(** * Commodity risk analytics: VaR estimators, backtest, credit risk and
      stress tests

    A shallow embedding of [src/risk_metrics.py], [src/credit_risk.py] and
    [src/stress_testing.py].

    Numbers.  A NumPy [float64] is modelled by [fp]: a rational for every
    finite value, plus the three IEEE special values (there is one zero,
    taken as positive).  The special values follow the IEEE rules NumPy
    uses (comparisons with NaN are false, [inf - inf] and [0 * inf] are
    NaN, [sqrt] of a negative number is NaN, [0 / 0] is NaN).

    Two layers of arithmetic.  The modules [Np], [RiskMetrics],
    [CreditRisk], [CreditScoring] and [StressTesting] compute the finite
    operations exactly.  They carry the statements that rounding cannot
    change: which error is raised and when, which value is returned on a
    special input, the formula an output is computed by, and orders that
    rounding preserves (a percentile lies between the least and the
    greatest element, a sum of whole numbers is exact).  The module
    [Binary64] rounds every operation to the nearest [float64], ties to
    even, and models NumPy's pairwise summation and its interpolation for
    percentiles; it carries the statements whose truth depends on the
    rounding: the boundaries of the backtest zones and the order of the
    expected shortfall and the historical VaR.

    Containers.  The estimators call [returns.std()] on whatever they are
    given: a NumPy array divides the squared deviations by [n], a pandas
    Series (what [data_loader.py] produces) by [n - 1].  The estimators
    that use the standard deviation take the kind of container as an
    argument.

    Library functions.  [np.sqrt] on the non-negative rationals,
    [scipy.stats.norm.ppf] and the legacy global generator behind
    [np.random.seed] / [np.random.normal] are parameters of the model;
    the facts used about them are stated as hypotheses where needed. *)

From Stdlib Require Import QArith Qabs Qround Qminmax Qpower ZArith List Bool Lia
  Lqa.
From Stdlib Require Import Permutation.
From Stdlib Require String Ascii.
Import ListNotations.

Open Scope Q_scope.

(* ------------------------------------------------------------------ *)
(** ** float64 values *)

Module Float.

Inductive fp : Type :=
| Fin (q : Q)
| PInf
| NInf
| NaN.

Definition is_nan (x : fp) : bool :=
  match x with NaN => true | _ => false end.

Definition is_finite (x : fp) : bool :=
  match x with Fin _ => true | _ => false end.

(** Sign of a value that is not NaN, as a comparison with zero. *)
Definition fsign (x : fp) : comparison :=
  match x with
  | Fin q => q ?= 0
  | PInf => Gt
  | NInf => Lt
  | NaN => Eq
  end.

Definition sign_mul (a b : comparison) : comparison :=
  match a, b with
  | Eq, _ | _, Eq => Eq
  | Gt, Gt | Lt, Lt => Gt
  | _, _ => Lt
  end.

(** The infinity of a given sign; a zero sign stands for an invalid
    operation ([0 * inf], [0 / 0]). *)
Definition inf_of_sign (c : comparison) : fp :=
  match c with Gt => PInf | Lt => NInf | Eq => NaN end.

Definition fneg (x : fp) : fp :=
  match x with
  | Fin q => Fin (- q)
  | PInf => NInf
  | NInf => PInf
  | NaN => NaN
  end.

Definition fabs (x : fp) : fp :=
  match x with
  | Fin q => Fin (Qabs q)
  | PInf | NInf => PInf
  | NaN => NaN
  end.

Definition fadd (x y : fp) : fp :=
  match x, y with
  | NaN, _ | _, NaN => NaN
  | Fin a, Fin b => Fin (a + b)
  | PInf, NInf | NInf, PInf => NaN
  | PInf, _ | _, PInf => PInf
  | NInf, _ | _, NInf => NInf
  end.

Definition fsub (x y : fp) : fp := fadd x (fneg y).

Definition fmul (x y : fp) : fp :=
  match x, y with
  | NaN, _ | _, NaN => NaN
  | Fin a, Fin b => Fin (a * b)
  | _, _ => inf_of_sign (sign_mul (fsign x) (fsign y))
  end.

Definition fdiv (x y : fp) : fp :=
  match x, y with
  | NaN, _ | _, NaN => NaN
  | Fin a, Fin b =>
      if Qeq_bool b 0 then inf_of_sign (a ?= 0) else Fin (a / b)
  | Fin _, _ => Fin 0
  | _, Fin b =>
      inf_of_sign (sign_mul (fsign x) (if Qeq_bool b 0 then Gt else b ?= 0))
  | _, _ => NaN
  end.

(** [x < y]: false as soon as one side is NaN. *)
Definition flt (x y : fp) : bool :=
  match x, y with
  | NaN, _ | _, NaN => false
  | Fin a, Fin b => match a ?= b with Lt => true | _ => false end
  | NInf, NInf | PInf, _ | _, NInf => false
  | _, _ => true
  end.

(** [x <= y]. *)
Definition fle (x y : fp) : bool :=
  match x, y with
  | NaN, _ | _, NaN => false
  | Fin a, Fin b => match a ?= b with Gt => false | _ => true end
  | NInf, _ | _, PInf => true
  | _, _ => false
  end.

(** [x == y]: NaN is equal to nothing, itself included. *)
Definition feqb (x y : fp) : bool :=
  match x, y with
  | Fin a, Fin b => Qeq_bool a b
  | PInf, PInf | NInf, NInf => true
  | _, _ => false
  end.

Section Sqrt.
(** [np.sqrt] restricted to the non-negative rationals. *)
Variable sqrtQ : Q -> Q.

Definition fsqrt (x : fp) : fp :=
  match x with
  | Fin q => match q ?= 0 with Lt => NaN | _ => Fin (sqrtQ q) end
  | PInf => PInf
  | NInf | NaN => NaN
  end.
End Sqrt.

(** [float(k)] for an integer [k]. *)
Definition of_Z (k : Z) : fp := Fin (inject_Z k).

End Float.
Export Float.

Declare Scope fp_scope.
Delimit Scope fp_scope with fp.
Bind Scope fp_scope with fp.
Infix "+" := fadd : fp_scope.
Infix "-" := fsub : fp_scope.
Infix "*" := fmul : fp_scope.
Infix "/" := fdiv : fp_scope.
Infix "<?" := flt : fp_scope.
Infix "<=?" := fle : fp_scope.
Infix "==?" := feqb (at level 70) : fp_scope.
Notation "- x" := (fneg x) : fp_scope.

(* ------------------------------------------------------------------ *)
(** ** Exceptions *)

Inductive exn : Type :=
| ValueError
| IndexError.

Inductive outcome (A : Type) : Type :=
| Returned (a : A)
| Raised (e : exn).
Arguments Returned {A} a.
Arguments Raised {A} e.

Definition obind {A B} (m : outcome A) (k : A -> outcome B) : outcome B :=
  match m with
  | Returned a => k a
  | Raised e => Raised e
  end.

Notation "'do' x <- m ; k" := (obind m (fun x => k))
  (at level 10, x name, m at level 100, k at level 200).

(* ------------------------------------------------------------------ *)
(** ** Python sequences *)

Module Py.

(** [range(lo, hi)]. *)
Definition range (lo hi : Z) : list Z :=
  map (fun k => (lo + Z.of_nat k)%Z) (seq 0 (Z.to_nat (hi - lo))).

(** A slice bound brought into [0 .. n], as Python does for [a[lo:hi]]. *)
Definition clamp (n i : Z) : Z :=
  let j := if (i <? 0)%Z then (i + n)%Z else i in
  if (j <? 0)%Z then 0%Z else if (n <? j)%Z then n else j.

(** [a[lo:hi]]. *)
Definition slice {A} (a : list A) (lo hi : Z) : list A :=
  let n := Z.of_nat (length a) in
  let l := clamp n lo in
  let h := clamp n hi in
  firstn (Z.to_nat (h - l)) (skipn (Z.to_nat l) a).

Fixpoint set_nth {A} (a : list A) (k : nat) (v : A) : list A :=
  match a, k with
  | [], _ => []
  | _ :: t, O => v :: t
  | x :: t, S k' => x :: set_nth t k' v
  end.

(** [a[i] = v]: a negative index counts from the end; out of range raises. *)
Definition setitem {A} (a : list A) (i : Z) (v : A) : outcome (list A) :=
  let n := Z.of_nat (length a) in
  let j := if (i <? 0)%Z then (i + n)%Z else i in
  if ((j <? 0) || (n <=? j))%Z then Raised IndexError
  else Returned (set_nth a (Z.to_nat j) v).

End Py.

(* ------------------------------------------------------------------ *)
(** ** NumPy primitives *)

Module Np.

Fixpoint zip_with {A B C} (f : A -> B -> C) (xs : list A) (ys : list B)
  : list C :=
  match xs, ys with
  | x :: xs', y :: ys' => f x y :: zip_with f xs' ys'
  | _, _ => []
  end.

(** An elementwise binary operation on two one-dimensional arrays: equal
    lengths, or one side of length one stretched over the other. *)
Definition broadcast {A B C} (f : A -> B -> C) (xs : list A) (ys : list B)
  : outcome (list C) :=
  if (length xs =? length ys)%nat then Returned (zip_with f xs ys)
  else match xs, ys with
       | [x], _ => Returned (map (f x) ys)
       | _, [y] => Returned (map (fun x => f x y) xs)
       | _, _ => Raised ValueError
       end.

(** [a[mask]] for a boolean mask: the mask must have the length of [a]. *)
Fixpoint select {A} (a : list A) (mask : list bool) : list A :=
  match a, mask with
  | x :: a', b :: m' => if b then x :: select a' m' else select a' m'
  | _, _ => []
  end.

Definition mask_index {A} (a : list A) (mask : list bool)
  : outcome (list A) :=
  if (length a =? length mask)%nat then Returned (select a mask)
  else Raised IndexError.

(** [np.sum] of a boolean array. *)
Definition count_true (bs : list bool) : Z :=
  Z.of_nat (length (filter (fun b => b) bs)).

(** [np.sum] of a float array. *)
Definition sum (a : list fp) : fp := fold_left fadd a (Fin 0).

(** [a.mean()]: NaN (with a warning) on an empty array. *)
Definition mean (a : list fp) : fp :=
  (sum a / of_Z (Z.of_nat (length a)))%fp.

(** [a.max()]: raises on an empty array, NaN as soon as one entry is. *)
Definition fmax2 (x y : fp) : fp :=
  if is_nan x then NaN else if is_nan y then NaN
  else if (x <? y)%fp then y else x.

Definition max (a : list fp) : outcome fp :=
  match a with
  | [] => Raised ValueError
  | x :: t => Returned (fold_left fmax2 t x)
  end.

(** Ascending sort of an array without NaN. *)
Fixpoint insert (x : fp) (l : list fp) : list fp :=
  match l with
  | [] => [x]
  | y :: t => if (x <=? y)%fp then x :: l else y :: insert x t
  end.

Definition sort (l : list fp) : list fp := fold_right insert [] l.

(** Linear interpolation as NumPy's [_lerp] writes it. *)
Definition lerp (a b : fp) (t : Q) : fp :=
  let d := (b - a)%fp in
  if Qle_bool (1 # 2) t then (b - d * Fin (1 - t))%fp
  else (a + d * Fin t)%fp.

(** [np.percentile(a, q)] with the default linear method.  The range of
    [q] is checked first; an empty array fails at the index lookup (the
    [IndexError] of NumPy 1.22 and later; earlier versions gave NaN); an
    array holding a NaN gives NaN. *)
Definition percentile (a : list fp) (q : Q) : outcome fp :=
  if negb (Qle_bool 0 q && Qle_bool q 100) then Raised ValueError
  else match a with
       | [] => Raised IndexError
       | _ =>
           if existsb is_nan a then Returned NaN
           else
             let s := sort a in
             let n := Z.of_nat (length a) in
             let virtual := (q / 100) * inject_Z (n - 1) in
             let prev := Qfloor virtual in
             let next := Z.min (prev + 1) (n - 1) in
             let gamma := virtual - inject_Z prev in
             Returned (lerp (nth (Z.to_nat prev) s NaN)
                            (nth (Z.to_nat next) s NaN) gamma)
       end.

Section Std.
Variable sqrtQ : Q -> Q.

(** [a.std(ddof)]: the square root of the sum of the squared deviations
    from the mean divided by [max(n - ddof, 0)].  With as many degrees
    removed as there are observations the quotient is [0 / 0], NaN; pandas
    gives NaN there too. *)
Definition std (ddof : Z) (a : list fp) : fp :=
  let m := mean a in
  let squares := map (fun x => let d := (x - m)%fp in (d * d)%fp) a in
  fsqrt sqrtQ
    (sum squares / of_Z (Z.max (Z.of_nat (length a) - ddof) 0))%fp.
End Std.

End Np.

(* ------------------------------------------------------------------ *)
(** ** The global random generator *)

Module Random.
Section Engine.
(** State of NumPy's global generator, [np.random.seed] and one standard
    normal draw. *)
Variable rng : Type.
Variable seed : Z -> rng.
Variable gauss : rng -> Q * rng.

(** A computation that reads and updates the global generator and may
    raise. *)
Definition M (A : Type) : Type := rng -> outcome A * rng.

Definition ret {A} (a : A) : M A := fun s => (Returned a, s).

Definition bind {A B} (m : M A) (k : A -> M B) : M B :=
  fun s =>
    match m s with
    | (Returned a, s') => k a s'
    | (Raised e, s') => (Raised e, s')
    end.

Definition lift {A} (o : outcome A) : M A := fun s => (o, s).

(** [np.random.seed(k)]. *)
Definition np_seed (k : Z) : M unit := fun _ => (Returned tt, seed k).

(** [np.random.normal(loc, scale)]: a negative scale is refused before
    anything is drawn. *)
Definition normal (loc scale : fp) : M fp :=
  fun s =>
    if (scale <? Fin 0)%fp then (Raised ValueError, s)
    else let (g, s') := gauss s in
         (Returned (loc + scale * Fin g)%fp, s').

Fixpoint normals (loc scale : fp) (k : nat) : M (list fp) :=
  match k with
  | O => ret []
  | S k' =>
      bind (normal loc scale) (fun x =>
      bind (normals loc scale k') (fun xs => ret (x :: xs)))
  end.

(** [np.random.normal(loc, scale, size)]. *)
Definition normal_size (loc scale : fp) (size : Z) : M (list fp) :=
  if (scale <? Fin 0)%fp then lift (Raised ValueError)
  else if (size <? 0)%Z then lift (Raised ValueError)
  else normals loc scale (Z.to_nat size).
End Engine.

Arguments ret {rng A} a.
Arguments bind {rng A B} m k.
Arguments lift {rng A} o.
Arguments np_seed {rng} seed k.
Arguments normal {rng} gauss loc scale.
Arguments normals {rng} gauss loc scale k.
Arguments normal_size {rng} gauss loc scale size.
End Random.

(* ------------------------------------------------------------------ *)
(** ** risk_metrics.py *)

Module RiskMetrics.

Inductive traffic_light : Type := GREEN | YELLOW | RED.

Record backtest : Type := {
  exceptions : Z;
  total_days : Z;
  exception_rate : fp;
  expected_rate : fp;
  status : traffic_light
}.

(** The series of returns handed to an estimator is a NumPy array or a
    pandas [Series], which is what [data_loader.py] produces.  Of the
    operations the estimators apply to it, one differs between the two on
    finite data: the method [std], whose default [ddof] is 0 on an array
    and 1 on a [Series]. *)
Inductive container : Type := Ndarray | Series.

Definition default_ddof (kind : container) : Z :=
  match kind with Ndarray => 0%Z | Series => 1%Z end.

(** A [for] loop over [idx] that stops at the first exception. *)
Fixpoint for_each {S} (body : Z -> S -> outcome S) (idx : list Z) (s : S)
  : outcome S :=
  match idx with
  | [] => Returned s
  | i :: rest => do s' <- body i s; for_each body rest s'
  end.

Section Estimators.
Variable sqrtQ : Q -> Q.
Variable norm_ppf : Q -> fp.
Variable rng : Type.
Variable seed : Z -> rng.
Variable gauss : rng -> Q * rng.

Definition historical_var (returns : list Q) (confidence holding_period : Q)
  : outcome fp :=
  let root := fsqrt sqrtQ (Fin holding_period) in
  let scaled := map (fun r => (Fin r * root)%fp) returns in
  let pct := (1 - confidence) * 100 in
  do var <- Np.percentile scaled pct;
  Returned (fabs var).


Definition monte_carlo_var (kind : container) (returns : list Q)
    (n_sims : Z) (confidence holding_period : Q) : Random.M rng fp :=
  let a := map Fin returns in
  let mu := Np.mean a in
  let sigma := Np.std sqrtQ (default_ddof kind) a in
  let h := Fin holding_period in
  Random.bind (Random.np_seed seed 42) (fun _ =>
  Random.bind (Random.normal_size gauss (mu * h)%fp
                 (sigma * fsqrt sqrtQ h)%fp n_sims) (fun sims =>
  let pct := (1 - confidence) * 100 in
  Random.lift (do var <- Np.percentile sims pct; Returned (fabs var)))).

Definition expected_shortfall (returns : list Q) (confidence : Q)
  : outcome fp :=
  do var <- historical_var returns confidence 1;
  let tail := filter (fun r => (Fin r <? - var)%fp) returns in
  if (0 <? length tail)%nat
  then Returned (fabs (Np.mean (map Fin tail)))
  else Returned var.

Definition rolling_var (returns : list Q) (window : Z) (confidence : Q)
  : outcome (list fp) :=
  let n := Z.of_nat (length returns) in
  let var_series := repeat NaN (length returns) in
  for_each
    (fun i vs =>
       let chunk := Py.slice returns (i - window) i in
       do v <- historical_var chunk confidence 1;
       Py.setitem vs i v)
    (Py.range window n) var_series.

Definition var_backtest (returns : list Q) (var_series : list fp)
    (confidence : Q) : outcome backtest :=
  let valid := map (fun v => negb (is_nan v)) var_series in
  do actual <- Np.mask_index returns valid;
  do predicted <- Np.mask_index var_series valid;
  let exceptions :=
    Np.count_true
      (Np.zip_with (fun a p => (Fin a <? - p)%fp) actual predicted) in
  let total := Z.of_nat (length actual) in
  let exception_rate := (of_Z exceptions / of_Z total)%fp in
  let expected_rate := Fin (1 - confidence) in
  let status :=
    if (exception_rate <? expected_rate * Fin (3 # 2))%fp then GREEN
    else if (exception_rate <? expected_rate * Fin 2)%fp then YELLOW
    else RED in
  Returned {| exceptions := exceptions;
              total_days := total;
              exception_rate := exception_rate;
              expected_rate := expected_rate;
              status := status |}.

(** [a @ b] for two vectors. *)
Definition dot (a b : list fp) : outcome fp :=
  if (length a =? length b)%nat then Returned (Np.sum (Np.zip_with fmul a b))
  else Raised ValueError.

(** Column [j] of a matrix given by rows. *)
Definition column (m : list (list fp)) (j : nat) : list fp :=
  map (fun row => nth j row NaN) m.

(** [v @ m] for a vector and a matrix given by rows; the rows must have
    one length and there must be as many rows as entries of [v]. *)
Definition vecmat (v : list fp) (m : list (list fp)) : outcome (list fp) :=
  match m with
  | [] => Raised ValueError
  | r0 :: _ =>
      let cols := length r0 in
      if negb (forallb (fun r => (length r =? cols)%nat) m)
      then Raised ValueError
      else if negb (length v =? length m)%nat then Raised ValueError
      else Returned
             (map (fun j => Np.sum (Np.zip_with fmul v (column m j)))
                  (seq 0 cols))
  end.

Definition portfolio_var (weights : list Q) (cov_matrix : list (list Q))
    (confidence portfolio_value : Q) : outcome fp :=
  let w := map Fin weights in
  do wm <- vecmat w (map (map Fin) cov_matrix);
  do quad <- dot wm w;
  let port_var := fsqrt sqrtQ quad in
  let z := norm_ppf confidence in
  Returned (port_var * z * Fin portfolio_value)%fp.
End Estimators.

Arguments monte_carlo_var sqrtQ {rng} seed gauss
  kind returns n_sims confidence holding_period.

End RiskMetrics.

(* ------------------------------------------------------------------ *)
(** ** credit_risk.py: credit_var *)

Module CreditRisk.

Record credit_result : Type := {
  expected_loss : fp;
  value_at_risk : fp;   (* key [credit_var] of the returned dict *)
  worst_case : fp
}.

Definition of_bool (b : bool) : fp := if b then Fin 1 else Fin 0.

Section Simulator.
Variable sqrtQ : Q -> Q.
Variable norm_ppf : Q -> fp.
Variable rng : Type.
Variable seed : Z -> rng.
Variable gauss : rng -> Q * rng.

Let M := Random.M rng.

(** The latent asset values of one trial. *)
Definition trial_assets (n_counterparties : nat) (correlation : Q)
  : M (list fp) :=
  Random.bind (Random.normal gauss (Fin 0) (Fin 1)) (fun z =>
  Random.bind (Random.normal_size gauss (Fin 0) (Fin 1)
                 (Z.of_nat n_counterparties)) (fun eps =>
  Random.ret
    (map (fun e => (fsqrt sqrtQ (Fin correlation) * z
                    + fsqrt sqrtQ (Fin (1 - correlation)) * e)%fp) eps))).

(** The default indicators of one trial. *)
Definition trial_defaults (n_counterparties : nat) (pds : list Q)
    (correlation : Q) : M (list bool) :=
  Random.bind (trial_assets n_counterparties correlation) (fun asset =>
  let thresholds := map norm_ppf pds in
  Random.lift (Np.broadcast flt asset thresholds)).

(** The loss of one trial. *)
Definition trial_loss (exposures pds lgds : list Q) (correlation : Q)
  : M fp :=
  Random.bind (trial_defaults (length exposures) pds correlation)
    (fun defaults =>
  Random.lift
    (do de <- Np.broadcast fmul (map of_bool defaults) (map Fin exposures);
     do del <- Np.broadcast fmul de (map Fin lgds);
     Returned (Np.sum del))).

Fixpoint trials (exposures pds lgds : list Q) (correlation : Q) (k : nat)
  : M (list fp) :=
  match k with
  | O => Random.ret []
  | S k' =>
      Random.bind (trial_loss exposures pds lgds correlation) (fun loss =>
      Random.bind (trials exposures pds lgds correlation k') (fun rest =>
      Random.ret (loss :: rest)))
  end.

Definition credit_var (exposures pds lgds : list Q) (correlation : Q)
    (n_sims : Z) (confidence : Q) : M credit_result :=
  Random.bind (Random.np_seed seed 42) (fun _ =>
  Random.bind (trials exposures pds lgds correlation (Z.to_nat n_sims))
    (fun losses =>
  let el := Np.mean losses in
  Random.lift
    (do var <- Np.percentile losses (confidence * 100);
     do worst <- Np.max losses;
     Returned {| expected_loss := el;
                 value_at_risk := var;
                 worst_case := worst |}))).
End Simulator.

Arguments trial_assets sqrtQ {rng} gauss n_counterparties correlation.
Arguments trial_defaults sqrtQ norm_ppf {rng} gauss
  n_counterparties pds correlation.
Arguments trial_loss sqrtQ norm_ppf {rng} gauss
  exposures pds lgds correlation.
Arguments trials sqrtQ norm_ppf {rng} gauss exposures pds lgds correlation k.
Arguments credit_var sqrtQ norm_ppf {rng} seed gauss
  exposures pds lgds correlation n_sims confidence.

End CreditRisk.

(* ------------------------------------------------------------------ *)
(** ** Reference instances of the library functions

    Concrete, executable stand-ins for the three parameters, used to run
    the model on explicit inputs.  [sqrt_ref] is exact on squares of
    rationals; [ppf_ref] is exact at 0, 1/2 and 1 and outside the unit
    interval; [gauss_ref] replays the start of the stream that follows
    [np.random.seed(42)]. *)

Module Reference.

Definition sqrt_ref (q : Q) : Q :=
  let r := Qred q in
  let scale := (2 ^ 32)%positive in
  Z.sqrt (Qnum r * Zpos (Qden r) * Zpos (scale * scale))
  # (Qden r * scale).

(** Upper-half quantiles of the standard normal law, to four decimals. *)
Definition ppf_knots : list (Q * Q) :=
  [ (1 # 2, 0); (6 # 10, 2533 # 10000); (7 # 10, 5244 # 10000);
    (8 # 10, 8416 # 10000); (9 # 10, 12816 # 10000);
    (95 # 100, 16449 # 10000); (975 # 1000, 196 # 100);
    (99 # 100, 23263 # 10000); (999 # 1000, 30902 # 10000);
    (1, 4) ].

Fixpoint interpolate (knots : list (Q * Q)) (p : Q) : Q :=
  match knots with
  | (p0, z0) :: ((p1, z1) :: _) as rest =>
      if Qle_bool p p1
      then z0 + (z1 - z0) * ((p - p0) / (p1 - p0))
      else interpolate rest p
  | (_, z0) :: [] => z0
  | [] => 0
  end.

Definition ppf_ref (p : Q) : fp :=
  if negb (Qle_bool 0 p && Qle_bool p 1) then NaN
  else if Qeq_bool p 0 then NInf
  else if Qeq_bool p 1 then PInf
  else if Qle_bool (1 # 2) p then Fin (interpolate ppf_knots p)
  else Fin (- interpolate ppf_knots (1 - p)).

(** The first standard normal deviates after [np.random.seed(42)], to six
    decimals. *)
Definition seed42_head : list Q :=
  [ 496714 # 1000000; - (138264 # 1000000); 647689 # 1000000;
    1523030 # 1000000; - (234153 # 1000000); - (234137 # 1000000);
    1579213 # 1000000; 767435 # 1000000 ].

(** Generator state: the seed and the number of deviates drawn since. *)
Definition rng_ref : Type := (Z * nat)%type.

Definition seed_ref (k : Z) : rng_ref := (k, O).

Definition gauss_ref (s : rng_ref) : Q * rng_ref :=
  let (k, i) := s in
  ((if (k =? 42)%Z then nth i seed42_head 0 else 0), (k, S i)).

End Reference.

(* ------------------------------------------------------------------ *)
(** ** Rounding to binary64

    The modules above compute in exact arithmetic.  Where the outcome of a
    comparison, or the order of two results, depends on the rounding of the
    [float64] operations, the functions concerned are modelled again here
    with every arithmetic operation rounded to the nearest binary64 value,
    ties to even: 53 significant bits, gradual underflow down to [2^-1074],
    overflow to infinity from [2^1024].  The sign of zero is not
    modelled. *)

Module Binary64.
Import RiskMetrics.

Definition pow2 (e : Z) : Q := 2 ^ e.

(** The integer nearest to [x], the even one when [x] lies half-way. *)
Definition nearest_even (x : Q) : Z :=
  let f := Qfloor x in
  match Qcompare (x - inject_Z f) (1 # 2) with
  | Lt => f
  | Gt => (f + 1)%Z
  | Eq => if Z.even f then f else (f + 1)%Z
  end.

(** [floor (log2 x)] for a positive [x]. *)
Definition ilog2 (x : Q) : Z :=
  let e := (Z.log2 (Qnum x) - Z.log2 (Zpos (Qden x)))%Z in
  if Qle_bool (pow2 e) x then e else (e - 1)%Z.

(** The exponent of the last bit kept for a positive [x]: 53 significant
    bits, and no bit below [2^-1074]. *)
Definition quantum (x : Q) : Z := Z.max (ilog2 x - 52) (-1074).

(** The multiple of [2^quantum] nearest to a positive [x]. *)
Definition round_magnitude (x : Q) : Q :=
  inject_Z (nearest_even (x / pow2 (quantum x))) * pow2 (quantum x).

(** The binary64 value nearest to a real number. *)
Definition round64 (x : Q) : fp :=
  match x ?= 0 with
  | Eq => Fin 0
  | Gt => let r := round_magnitude x in
          if Qle_bool (pow2 1024) r then PInf else Fin (Qred r)
  | Lt => let r := round_magnitude (- x) in
          if Qle_bool (pow2 1024) r then NInf else Fin (Qred (- r))
  end.

(** The rounding of the exact result of an operation. *)
Definition rnd (x : fp) : fp :=
  match x with Fin q => round64 q | _ => x end.

Definition add64 (x y : fp) : fp := rnd (x + y).
Definition sub64 (x y : fp) : fp := rnd (x - y).
Definition mul64 (x y : fp) : fp := rnd (x * y).
Definition div64 (x y : fp) : fp := rnd (x / y).

(** The value of a decimal literal such as [0.95]: the nearest binary64
    number. *)
Definition lit (q : Q) : Q :=
  match round64 q with Fin r => r | _ => 0 end.

(** The rationals that are binary64 numbers. *)
Definition is_binary64 (q : Q) : Prop := (round64 q ==? Fin q)%fp = true.

(** The multiples of [2^-1074], among which the binary64 numbers lie. *)
Definition on_grid (q : Q) : Prop :=
  exists m : Z, q == inject_Z m * pow2 (-1074).

(** [var_backtest]: the exception rate is a quotient of two counts, which
    are converted without rounding ([of_Z]: they are numbers of
    observations, far below [2^53]); the expected rate and its two
    multiples are rounded. *)
Definition var_backtest (returns : list Q) (var_series : list fp)
    (confidence : Q) : outcome backtest :=
  let valid := map (fun v => negb (is_nan v)) var_series in
  do actual <- Np.mask_index returns valid;
  do predicted <- Np.mask_index var_series valid;
  let exceptions :=
    Np.count_true
      (Np.zip_with (fun a p => (Fin a <? - p)%fp) actual predicted) in
  let total := Z.of_nat (length actual) in
  let exception_rate := div64 (of_Z exceptions) (of_Z total) in
  let expected_rate := sub64 (Fin 1) (Fin confidence) in
  let status :=
    if (exception_rate <? mul64 expected_rate (Fin (3 # 2)))%fp then GREEN
    else if (exception_rate <? mul64 expected_rate (Fin 2))%fp then YELLOW
    else RED in
  Returned {| exceptions := exceptions;
              total_days := total;
              exception_rate := exception_rate;
              expected_rate := expected_rate;
              status := status |}.

(** [res += a[i]] over the entries of [a], in order. *)
Definition accumulate (acc : fp) (a : list fp) : fp := fold_left add64 a acc.

(** The eight accumulators of NumPy's unrolled summation loop: each block
    of eight entries is added to them lane by lane. *)
Fixpoint lanes (r : list fp) (blocks : nat) (a : list fp)
  : list fp * list fp :=
  match blocks with
  | O => (r, a)
  | S b => lanes (Np.zip_with add64 r (firstn 8 a)) b (skipn 8 a)
  end.

Definition combine8 (r : list fp) : fp :=
  match r with
  | [r0; r1; r2; r3; r4; r5; r6; r7] =>
      add64 (add64 (add64 r0 r1) (add64 r2 r3))
            (add64 (add64 r4 r5) (add64 r6 r7))
  | _ => NaN
  end.

(** The sum of 8 to 128 entries: the first eight start the accumulators,
    the following whole blocks of eight are added to them, the
    accumulators are added pairwise and the entries left over are added
    one by one. *)
Definition unrolled_sum (a : list fp) : fp :=
  let (r, rest) := lanes (firstn 8 a) (length a / 8 - 1) (skipn 8 a) in
  accumulate (combine8 r) rest.

(** NumPy's pairwise summation: fewer than 8 entries are added in order,
    up to 128 with the unrolled loop, and a longer array is split in two
    halves, the first a multiple of eight long.  The recursion halves the
    array, so that a fuel equal to its length is never used up. *)
Fixpoint pairwise_sum (fuel : nat) (a : list fp) : fp :=
  let n := length a in
  if (n <? 8)%nat then accumulate (Fin 0) a
  else match fuel with
       | S f =>
           if (128 <? n)%nat
           then let n2 := (n / 2 - (n / 2) mod 8)%nat in
                add64 (pairwise_sum f (firstn n2 a))
                      (pairwise_sum f (skipn n2 a))
           else unrolled_sum a
       | O => unrolled_sum a
       end.

(** [np.sum] of a float array. *)
Definition sum (a : list fp) : fp := pairwise_sum (length a) a.

(** [a.mean()]. *)
Definition mean (a : list fp) : fp :=
  div64 (sum a) (of_Z (Z.of_nat (length a))).

(** NumPy's [_lerp]. *)
Definition lerp (a b t : fp) : fp :=
  let d := sub64 b a in
  if (Fin (1 # 2) <=? t)%fp then sub64 b (mul64 d (sub64 (Fin 1) t))
  else add64 a (mul64 d t).

(** [np.percentile(a, q)] with the default linear method: the quantile
    [q / 100] is checked, the virtual index is its rounded product with
    [n - 1].  That product is finite for a quantile in [0, 1]. *)
Definition percentile (a : list fp) (q : fp) : outcome fp :=
  let quantile := div64 q (Fin 100) in
  if negb ((Fin 0 <=? quantile) && (quantile <=? Fin 1))%fp
  then Raised ValueError
  else match a with
       | [] => Raised IndexError
       | _ =>
           if existsb is_nan a then Returned NaN
           else
             let s := Np.sort a in
             let n := Z.of_nat (length a) in
             match mul64 (of_Z (n - 1)) quantile with
             | Fin virtual =>
                 let prev := Qfloor virtual in
                 let next := Z.min (prev + 1) (n - 1) in
                 let gamma := sub64 (Fin virtual) (of_Z prev) in
                 Returned (lerp (nth (Z.to_nat prev) s NaN)
                                (nth (Z.to_nat next) s NaN) gamma)
             | _ => Returned NaN
             end
       end.

Section Estimators.
(** The exact square root; [np.sqrt] rounds it. *)
Variable sqrtQ : Q -> Q.

Definition sqrt64 (x : fp) : fp := rnd (fsqrt sqrtQ x).

Definition historical_var (returns : list Q) (confidence holding_period : Q)
  : outcome fp :=
  let root := sqrt64 (Fin holding_period) in
  let scaled := map (fun r => mul64 (Fin r) root) returns in
  let pct := mul64 (sub64 (Fin 1) (Fin confidence)) (Fin 100) in
  do var <- percentile scaled pct;
  Returned (fabs var).

Definition expected_shortfall (returns : list Q) (confidence : Q)
  : outcome fp :=
  do var <- historical_var returns confidence 1;
  let tail := filter (fun r => (Fin r <? - var)%fp) returns in
  if (0 <? length tail)%nat
  then Returned (fabs (mean (map Fin tail)))
  else Returned var.
End Estimators.

End Binary64.

(* ------------------------------------------------------------------ *)
(** ** Plain Python numbers and dictionaries

    The scoring functions of [credit_risk.py] and the scenario functions of
    [stress_testing.py] work on plain Python numbers and dictionaries: a
    number is an exact rational, a division by zero raises, and a dictionary
    is the list of its entries in insertion order. *)

Module Scalar.

Inductive py_error : Type :=
| ZeroDivisionError
| TypeError
| KeyError
| SeqIndexError.

Inductive py_result (A : Type) : Type :=
| Done (a : A)
| Fails (e : py_error).
Arguments Done {A} a.
Arguments Fails {A} e.

Definition pbind {A B} (m : py_result A) (k : A -> py_result B)
  : py_result B :=
  match m with
  | Done a => k a
  | Fails e => Fails e
  end.

(** [a / b] on Python numbers. *)
Definition true_div (a b : Q) : py_result Q :=
  if Qeq_bool b 0 then Fails ZeroDivisionError else Done (a / b).

(** [max(0, v)]: the first argument wins a tie. *)
Definition max0 (v : Q) : Q :=
  match v ?= 0 with Gt => v | _ => 0 end.

End Scalar.

Module Dict.
Section Ops.
Variables K V : Type.
Variable eqb : K -> K -> bool.

(** [d.get(k)]. *)
Fixpoint get (d : list (K * V)) (k : K) : option V :=
  match d with
  | [] => None
  | (k', v) :: t => if eqb k k' then Some v else get t k
  end.

(** [k in d]. *)
Definition mem (d : list (K * V)) (k : K) : bool :=
  match get d k with Some _ => true | None => false end.

(** [d[k] = v]: an existing key keeps its place, a new one goes last. *)
Fixpoint set (d : list (K * V)) (k : K) (v : V) : list (K * V) :=
  match d with
  | [] => [(k, v)]
  | (k', v') :: t =>
      if eqb k k' then (k', v) :: t else (k', v') :: set t k v
  end.

(** [d.values()]. *)
Definition values (d : list (K * V)) : list V := map snd d.
End Ops.

Arguments get {K V} eqb d k.
Arguments mem {K V} eqb d k.
Arguments set {K V} eqb d k v.
Arguments values {K V} d.
End Dict.

(* ------------------------------------------------------------------ *)
(** ** credit_risk.py: scoring, collateral and netting *)

Module CreditScoring.
Import Scalar String Ascii.
Local Open Scope string_scope.

Inductive zone : Type := Safe | Grey | Distress.

Definition altman_z_score (working_capital total_assets retained_earnings
    ebit market_equity total_liabilities sales : Q) : py_result (Q * zone) :=
  pbind (true_div working_capital total_assets) (fun X1 =>
  pbind (true_div retained_earnings total_assets) (fun X2 =>
  pbind (true_div ebit total_assets) (fun X3 =>
  pbind (true_div market_equity total_liabilities) (fun X4 =>
  pbind (true_div sales total_assets) (fun X5 =>
  let z := (12 # 10) * X1 + (14 # 10) * X2 + (33 # 10) * X3
           + (6 # 10) * X4 + (999 # 1000) * X5 in
  let zone :=
    if negb (Qle_bool z (299 # 100)) then Safe
    else if negb (Qle_bool z (181 # 100)) then Grey
    else Distress in
  Done (z, zone)))))).

Definition expected_loss (pd lgd ead : Q) : Q := pd * lgd * ead.

Definition cds_spread_estimate (pd lgd risk_free : Q) : Q :=
  pd * lgd * 10000.

(** [str.upper] on the ASCII letters; the other bytes are kept. *)
Definition upper_ascii (c : Ascii.ascii) : Ascii.ascii :=
  let n := Ascii.nat_of_ascii c in
  if ((97 <=? n) && (n <=? 122))%nat then Ascii.ascii_of_nat (n - 32)
  else c.

Fixpoint upper (s : String.string) : String.string :=
  match s with
  | String.EmptyString => String.EmptyString
  | String.String c t => String.String (upper_ascii c) (upper t)
  end.

Definition pd_map : list (string * Q) :=
  [ ("AAA", 1 # 10000); ("AA", 3 # 10000); ("A", 1 # 1000);
    ("BBB", 3 # 1000); ("BB", 1 # 100); ("B", 4 # 100);
    ("CCC", 15 # 100); ("CC", 30 # 100); ("C", 50 # 100); ("D", 1) ].

Definition credit_rating_to_pd (rating : String.string) : Q :=
  match Dict.get String.eqb pd_map (upper rating) with
  | Some pd => pd
  | None => 5 # 100
  end.

Definition margin_rates : list (string * Q) :=
  [ ("AAA", 2 # 100); ("AA", 5 # 100); ("A", 8 # 100); ("BBB", 12 # 100);
    ("BB", 18 # 100); ("B", 25 # 100); ("CCC", 35 # 100) ].

Definition collateral_requirement (exposure : Q) (rating : String.string)
    (haircut : Q) : py_result Q :=
  let rate :=
    match Dict.get String.eqb margin_rates (upper rating) with
    | Some r => r
    | None => 50 # 100
    end in
  true_div (exposure * rate) (1 - haircut).

Record netting : Type := {
  gross_exposure : Q;
  net_exposure : Q;
  netting_benefit_ratio : Q
}.

Section Netting.
Variable K : Type.
Variable eqb : K -> K -> bool.

(** One round of the loop: create the set at zero if it is new, then add
    the exposure at the same index. *)
Definition net_step (gross_exposures : list Q) (net_by_set : list (K * Q))
    (i : nat) (nset : K) : py_result (list (K * Q)) :=
  let d := if Dict.mem eqb net_by_set nset then net_by_set
           else Dict.set eqb net_by_set nset 0 in
  match Dict.get eqb d nset with
  | None => Fails KeyError
  | Some v =>
      match nth_error gross_exposures i with
      | None => Fails SeqIndexError
      | Some e => Done (Dict.set eqb d nset (v + e))
      end
  end.

Fixpoint net_loop (gross_exposures : list Q) (net_by_set : list (K * Q))
    (i : nat) (netting_sets : list K) : py_result (list (K * Q)) :=
  match netting_sets with
  | [] => Done net_by_set
  | nset :: rest =>
      pbind (net_step gross_exposures net_by_set i nset) (fun d =>
      net_loop gross_exposures d (S i) rest)
  end.

Definition netting_benefit (gross_exposures : list Q) (netting_sets : list K)
  : py_result netting :=
  let gross := fold_left Qplus (map Qabs gross_exposures) 0 in
  pbind (net_loop gross_exposures [] 0 netting_sets) (fun net_by_set =>
  let net := fold_left Qplus (map max0 (Dict.values net_by_set)) 0 in
  pbind (if negb (Qle_bool gross 0)
         then pbind (true_div net gross) (fun r => Done (1 - r))
         else Done 0) (fun benefit =>
  Done {| gross_exposure := gross;
          net_exposure := net;
          netting_benefit_ratio := benefit |})).
End Netting.

Arguments net_step {K} eqb gross_exposures net_by_set i nset.
Arguments net_loop {K} eqb gross_exposures net_by_set i netting_sets.
Arguments netting_benefit {K} eqb gross_exposures netting_sets.

(** *** Vocabulary of the statements about the scoring functions *)

(** Two outcomes of [altman_z_score] that agree: the same error, or equal
    scores in the same zone. *)
Definition same_score (a b : py_result (Q * zone)) : Prop :=
  match a, b with
  | Done (z, zn), Done (z', zn') => z == z' /\ zn = zn'
  | Fails e, Fails e' => e = e'
  | _, _ => False
  end.

(** The zones in increasing order of safety. *)
Definition zone_rank (zn : zone) : nat :=
  match zn with Distress => 0 | Grey => 1 | Safe => 2 end.

(** The score as a function of the five ratios. *)
Definition z_of (X1 X2 X3 X4 X5 : Q) : Q :=
  (12 # 10) * X1 + (14 # 10) * X2 + (33 # 10) * X3
  + (6 # 10) * X4 + (999 # 1000) * X5.

Definition zone_of (z : Q) : zone :=
  if negb (Qle_bool z (299 # 100)) then Safe
  else if negb (Qle_bool z (181 # 100)) then Grey
  else Distress.

(** The margin rate looked up by [collateral_requirement]. *)
Definition margin_rate (rating : string) : Q :=
  match Dict.get String.eqb margin_rates (upper rating) with
  | Some r => r
  | None => 50 # 100
  end.

(** A whole number: a Python [int], or a float holding a whole amount. *)
Definition whole (q : Q) : Prop := exists k : Z, q = inject_Z k.

(** The ratings of the scale, as the keys of the table of default
    probabilities. *)
Definition on_scale (rating : string) : Prop :=
  In (upper rating) (map fst pd_map).

End CreditScoring.

(* ------------------------------------------------------------------ *)
(** ** stress_testing.py *)

Module StressTesting.
Import Scalar String Ascii.
Local Open Scope string_scope.

(** A value of a scenario dictionary: a return shock, or the text stored
    under the key [description]. *)
Inductive entry : Type :=
| Shock (q : Q)
| Text (s : String.string).

Definition positions_t : Type := list (String.string * Q).
Definition scenario_t : Type := list (String.string * entry).

Definition key_total : string := "total".

Definition key_description : string := "description".

(** The loop of [run_stress_test]: the P&L dictionary and the running
    total.  A size times a text cannot be added to the total. *)
Fixpoint stress_loop (scenario : scenario_t) (items : positions_t)
    (pnl : list (String.string * Q)) (total : Q)
  : py_result (list (String.string * Q) * Q) :=
  match items with
  | [] => Done (pnl, total)
  | (asset, size) :: rest =>
      match Dict.get String.eqb scenario asset with
      | None => stress_loop scenario rest pnl total
      | Some (Text _) => Fails TypeError
      | Some (Shock shock) =>
          let asset_pnl := size * shock in
          stress_loop scenario rest
            (Dict.set String.eqb pnl asset asset_pnl) (total + asset_pnl)
      end
  end.

Definition run_stress_test (positions : positions_t) (scenario : scenario_t)
  : py_result (list (String.string * Q)) :=
  pbind (stress_loop scenario positions [] 0) (fun r =>
  Done (Dict.set String.eqb (fst r) key_total (snd r))).

Definition create_custom_scenario (shocks_dict : scenario_t)
    (name : String.string) : scenario_t :=
  Dict.set String.eqb shocks_dict key_description (Text name).

Definition reverse_stress_test (positions : positions_t) (target_loss : Q)
    (asset : String.string) : option Q :=
  let position :=
    match Dict.get String.eqb positions asset with
    | Some p => p
    | None => 0
    end in
  if Qeq_bool position 0 then None else Some (target_loss / position).

(** *** Vocabulary of the statements about the stress tests *)

(** The entries that a list of positions contributes to the P&L
    dictionary: one per position whose asset has a shock in the scenario. *)
Definition pnl_entries (scenario : scenario_t) (positions : positions_t)
  : list (string * Q) :=
  flat_map
    (fun item =>
       match Dict.get String.eqb scenario (fst item) with
       | Some (Shock shock) => [(fst item, snd item * shock)]
       | _ => []
       end) positions.

(** No position is named after a text entry of the scenario. *)
Definition numeric_on (scenario : scenario_t) (positions : positions_t)
  : Prop :=
  forall a t, In a (map fst positions) ->
              Dict.get String.eqb scenario a <> Some (Text t).

(** The first of the historical scenarios of the module. *)
Definition crisis_2008 : scenario_t :=
  [ ("description", Text "Global Financial Crisis");
    ("coffee", Shock (- (35 # 100))); ("equities", Shock (- (50 # 100)));
    ("rates", Shock (- (2 # 100))); ("fx_em", Shock (- (25 # 100))) ].

End StressTesting.

(* ------------------------------------------------------------------ *)
(** ** Vocabulary of the statements *)

Import RiskMetrics CreditRisk.

Definition Qsum (xs : list Q) : Q := fold_left Qplus xs 0.

Definition Qlen (xs : list Q) : Q := inject_Z (Z.of_nat (length xs)).




(** An array all of whose entries are finite and lie in [lo, hi]. *)
Definition within (lo hi : Q) (a : list fp) : Prop :=
  Forall (fun x => exists v, x = Fin v /\ lo <= v /\ v <= hi) a.

Definition Qof_bool (b : bool) : Q := if b then 1 else 0.

(** The latent asset value of a counterparty: systematic factor [z],
    idiosyncratic factor [e]. *)
Definition asset_value (sqrtQ : Q -> Q) (correlation z e : Q) : fp :=
  (fsqrt sqrtQ (Fin correlation) * Fin z
   + fsqrt sqrtQ (Fin (1 - correlation)) * Fin e)%fp.

(** The loss of a trial with default indicators [ds]. *)
Definition loss_of (ds : list bool) (exposures lgds : list Q) : Q :=
  Qsum (Np.zip_with Qmult
          (Np.zip_with Qmult (map Qof_bool ds) exposures) lgds).




(** The exception rate of a backtest record is exactly [k] times its
    expected rate: the float comparison
    [exception_rate == expected_rate * k] holds. *)
Definition rate_is (k : Q) (r : backtest) : Prop :=
  (exception_rate r ==? Binary64.mul64 (expected_rate r) (Fin k))%fp = true.

(** The share of a magnitude that one rounded operation keeps at least. *)
Definition kept_by_rounding : Q := 1 - Binary64.pow2 (-53).

(** A partial sum of [c] returns, each at most [- v], computed with at most
    [d] rounded additions in a row: minus infinity after an overflow, or a
    multiple of [2^-1074] that is at most [- c v] up to [d] roundings. *)
Definition partial_sum_below (v : Q) (c d : nat) (s : fp) : Prop :=
  match s with
  | NInf => True
  | Fin q =>
      Binary64.on_grid q
      /\ q <= - (inject_Z (Z.of_nat c) * v * kept_by_rounding ^ Z.of_nat d)
  | _ => False
  end.

(** What the magnitude of the rounded mean of [k] returns beyond [- v] is
    at least: [v], up to the [k + 1] roundings of the mean and, for a mean
    below the normal range, half the least positive binary64 number. *)
Definition shortfall_floor (v : Q) (k : nat) : Q :=
  v * kept_by_rounding ^ Z.of_nat (S k) - Binary64.pow2 (-1075).

(** The returns strictly more negative than [- var]. *)
Definition tail_beyond (var : Q) (returns : list Q) : list Q :=
  filter (fun r => negb (Qle_bool (- var) r)) returns.



(** The array after a run of assignments [a[i] = g i]. *)
Definition assign_all (g : Z -> fp) (idx : list Z) (a : list fp) : list fp :=
  fold_left (fun vs i => Py.set_nth vs (Z.to_nat i) (g i)) idx a.

(** Two invocations in a row: the second starts from the generator state
    the first one leaves. *)
Definition run_twice {rng A} (m : Random.M rng A) (s : rng)
  : outcome A * outcome A :=
  let (r1, s1) := m s in
  let (r2, _) := m s1 in
  (r1, r2).

(** The number of entries of a VaR series that are not NaN. *)
Definition scored_days (var_series : list fp) : Z :=
  Z.of_nat (length (filter (fun v => negb (is_nan v)) var_series)).




Section Totals.
Variable K : Type.
Variable eqb : K -> K -> bool.

(** The sum of [f] over the values of a dictionary. *)
Definition sum_values (f : Q -> Q) (d : list (K * Q)) : Q :=
  Qsum (map f (Dict.values d)).

Definition stored (f : Q -> Q) (d : list (K * Q)) (k : K) : Q :=
  match Dict.get eqb d k with Some v => f v | None => 0 end.

End Totals.

Arguments sum_values {K} f d.
Arguments stored {K} eqb f d k.

(* ------------------------------------------------------------------ *)
(** * Properties *)

(** ** Comparisons and arithmetic on finite values *)

Lemma flt_Fin_true (a b : Q) : (Fin a <? Fin b)%fp = true <-> a < b.
Proof.
  simpl. destruct (Qcompare_spec a b) as [E|L|G]; split; intro H;
    try reflexivity; try discriminate; try assumption.
  - rewrite E in H. exfalso; revert H; apply Qlt_irrefl.
  - exfalso. apply (Qlt_irrefl a). now apply Qlt_trans with b.
Qed.

Lemma flt_Fin_false (a b : Q) : (Fin a <? Fin b)%fp = false <-> b <= a.
Proof.
  split; intro H.
  - apply Qnot_lt_le. intro L. apply flt_Fin_true in L. congruence.
  - destruct (Fin a <? Fin b)%fp eqn:E; [|reflexivity].
    apply flt_Fin_true in E. exfalso. now apply (Qlt_not_le a b).
Qed.


Lemma feqb_Fin (x : fp) (b : Q) :
  (x ==? Fin b)%fp = true -> exists a, x = Fin a /\ a == b.
Proof.
  destruct x as [a| | |]; simpl; try discriminate.
  intro H. exists a. split; [reflexivity|]. now apply Qeq_bool_eq.
Qed.


Lemma inject_Z_pos (k : Z) : (0 < k)%Z -> 0 < inject_Z k.
Proof. intro H. change 0 with (inject_Z 0). now rewrite <- Zlt_Qlt. Qed.

Lemma inject_Z_nonneg (k : Z) : (0 <= k)%Z -> 0 <= inject_Z k.
Proof. intro H. change 0 with (inject_Z 0). now rewrite <- Zle_Qle. Qed.

Lemma count_true_nonneg (bs : list bool) : (0 <= Np.count_true bs)%Z.
Proof. unfold Np.count_true. lia. Qed.

(** ** Rounding to the nearest binary64 value *)

Import Binary64.

Lemma fle_Fin (a b : Q) : (Fin a <=? Fin b)%fp = true <-> a <= b.
Proof.
  simpl. destruct (Qcompare_spec a b) as [E|L|G]; split; intro H;
    try reflexivity; try discriminate; try lra.
Qed.

(** *** Powers of two *)

Lemma pow2_pos (e : Z) : 0 < pow2 e.
Proof. apply Qpower_0_lt. reflexivity. Qed.

Lemma pow2_plus (a b : Z) : pow2 (a + b) == pow2 a * pow2 b.
Proof. apply Qpower_plus. discriminate. Qed.

Lemma pow2_succ (a : Z) : pow2 (a + 1) == 2 * pow2 a.
Proof. rewrite pow2_plus. change (pow2 1) with 2. ring. Qed.

Lemma pow2_pred (a : Z) : pow2 (a - 1) == pow2 a / 2.
Proof.
  pose proof (pow2_succ (a - 1)) as H.
  replace (a - 1 + 1)%Z with a in H by lia. rewrite H. field.
Qed.

Lemma pow2_le (a b : Z) : (a <= b)%Z -> pow2 a <= pow2 b.
Proof. intro H. apply Qpower_le_compat_l; [exact H|discriminate]. Qed.

Lemma pow2_lt_inv (a b : Z) : pow2 a < pow2 b -> (a < b)%Z.
Proof.
  intro H. destruct (Z_lt_le_dec a b) as [L|L]; [exact L|].
  apply pow2_le in L. lra.
Qed.

Lemma pow2_Z (n : Z) : (0 <= n)%Z -> pow2 n == inject_Z (2 ^ n).
Proof. intro H. symmetry. apply (Zpower_Qpower 2 n H). Qed.


(** *** The binary logarithm *)

Lemma ilog2_spec (x : Q) :
  0 < x -> pow2 (ilog2 x) <= x /\ x < pow2 (ilog2 x + 1).
Proof.
  intro Hx. unfold ilog2.
  destruct x as [n d]. simpl Qnum. simpl Qden.
  assert (Hn : (0 < n)%Z).
  { unfold Qlt in Hx. simpl in Hx. lia. }
  set (a := Z.log2 n). set (b := Z.log2 (Z.pos d)).
  assert (Ha0 : (0 <= a)%Z) by apply Z.log2_nonneg.
  assert (Hb0 : (0 <= b)%Z) by apply Z.log2_nonneg.
  destruct (Z.log2_spec n Hn) as [A1 A2]. fold a in A1, A2.
  destruct (Z.log2_spec (Z.pos d) ltac:(lia)) as [B1 B2]. fold b in B1, B2.
  rewrite <- Z.add_1_r in A2, B2.
  assert (QA1 : pow2 a <= inject_Z n).
  { rewrite pow2_Z by lia. now rewrite <- Zle_Qle. }
  assert (QA2 : inject_Z n < 2 * pow2 a).
  { rewrite <- pow2_succ, pow2_Z by lia. now rewrite <- Zlt_Qlt. }
  assert (QB1 : pow2 b <= inject_Z (Z.pos d)).
  { rewrite pow2_Z by lia. now rewrite <- Zle_Qle. }
  assert (QB2 : inject_Z (Z.pos d) < 2 * pow2 b).
  { rewrite <- pow2_succ, pow2_Z by lia. now rewrite <- Zlt_Qlt. }
  assert (Ex : n # d == inject_Z n / inject_Z (Z.pos d)) by apply Qmake_Qdiv.
  assert (HD : 0 < inject_Z (Z.pos d)) by (apply inject_Z_pos; lia).
  pose proof (pow2_pos a) as PA. pose proof (pow2_pos b) as PB.
  assert (Ee : pow2 (a - b) == pow2 a / pow2 b).
  { unfold pow2. apply Qpower_minus. discriminate. }
  destruct (Qle_bool (pow2 (a - b)) (n # d)) eqn:C.
  - apply Qle_bool_iff in C. split; [exact C|].
    rewrite pow2_succ, Ee, Ex.
    apply Qlt_shift_div_r; [exact HD|].
    assert (R : 2 * (pow2 a / pow2 b) * inject_Z (Z.pos d)
                == (2 * pow2 a * inject_Z (Z.pos d)) / pow2 b)
      by (field; lra).
    rewrite R. apply Qlt_shift_div_l; [exact PB|].
    generalize dependent (inject_Z n). generalize dependent (inject_Z (Z.pos d)).
    generalize dependent (pow2 a). generalize dependent (pow2 b).
    intros. nra.
  - assert (C' : n # d < pow2 (a - b)).
    { apply Qnot_le_lt. intro H. apply Qle_bool_iff in H. congruence. }
    replace (a - b - 1 + 1)%Z with (a - b)%Z by lia.
    split; [|exact C'].
    rewrite pow2_pred, Ee, Ex.
    apply Qle_shift_div_l; [exact HD|].
    assert (R : pow2 a / pow2 b / 2 * inject_Z (Z.pos d)
                == (pow2 a * inject_Z (Z.pos d)) / (2 * pow2 b))
      by (field; lra).
    rewrite R. apply Qle_shift_div_r; [lra|].
    generalize dependent (inject_Z n). generalize dependent (inject_Z (Z.pos d)).
    generalize dependent (pow2 a). generalize dependent (pow2 b).
    intros. nra.
Qed.

Lemma ilog2_unique (x : Q) (k : Z) :
  pow2 k <= x -> x < pow2 (k + 1) -> ilog2 x = k.
Proof.
  intros H1 H2.
  assert (Hx : 0 < x) by (pose proof (pow2_pos k); lra).
  destruct (ilog2_spec x Hx) as [S1 S2].
  assert (L1 : (k < ilog2 x + 1)%Z) by (apply pow2_lt_inv; lra).
  assert (L2 : (ilog2 x < k + 1)%Z) by (apply pow2_lt_inv; lra).
  lia.
Qed.

Lemma ilog2_mono (x y : Q) : 0 < x -> x <= y -> (ilog2 x <= ilog2 y)%Z.
Proof.
  intros Hx H.
  destruct (ilog2_spec x Hx) as [S1 _].
  destruct (ilog2_spec y ltac:(lra)) as [_ T2].
  assert (L : (ilog2 x < ilog2 y + 1)%Z) by (apply pow2_lt_inv; lra).
  lia.
Qed.

Lemma ilog2_comp (x y : Q) : 0 < x -> x == y -> ilog2 x = ilog2 y.
Proof.
  intros Hx E. symmetry. destruct (ilog2_spec x Hx) as [S1 S2].
  apply ilog2_unique; lra.
Qed.

Lemma quantum_comp (x y : Q) : 0 < x -> x == y -> quantum x = quantum y.
Proof. intros Hx E. unfold quantum. now rewrite (ilog2_comp x y Hx E). Qed.

Lemma quantum_mono (x y : Q) : 0 < x -> x <= y -> (quantum x <= quantum y)%Z.
Proof. intros Hx H. unfold quantum. pose proof (ilog2_mono x y Hx H). lia. Qed.

(** *** Rounding to an integer *)

Lemma nearest_even_comp (x y : Q) : x == y -> nearest_even x = nearest_even y.
Proof.
  intro E. unfold nearest_even. rewrite (Qfloor_comp x y E).
  assert (C : (x - inject_Z (Qfloor y) ?= 1 # 2)
              = (y - inject_Z (Qfloor y) ?= 1 # 2)).
  { apply Qcompare_comp; [|reflexivity]. now rewrite E. }
  now rewrite C.
Qed.

Lemma nearest_even_range (x : Q) :
  (Qfloor x <= nearest_even x <= Qfloor x + 1)%Z.
Proof.
  unfold nearest_even.
  destruct (x - inject_Z (Qfloor x) ?= 1 # 2); [destruct (Z.even _)| |]; lia.
Qed.

Lemma nearest_even_error (x : Q) :
  Qabs (inject_Z (nearest_even x) - x) <= 1 # 2.
Proof.
  pose proof (Qfloor_le x) as F1. pose proof (Qlt_floor x) as F2.
  rewrite inject_Z_plus in F2. change (inject_Z 1) with 1 in F2.
  unfold nearest_even.
  destruct (Qcompare_spec (x - inject_Z (Qfloor x)) (1 # 2)) as [E|L|G].
  - destruct (Z.even (Qfloor x)).
    + apply Qabs_case; intros; lra.
    + rewrite inject_Z_plus. change (inject_Z 1) with 1.
      apply Qabs_case; intros; lra.
  - apply Qabs_case; intros; lra.
  - rewrite inject_Z_plus. change (inject_Z 1) with 1.
    apply Qabs_case; intros; lra.
Qed.

Lemma nearest_even_Z (x : Q) (k : Z) : x == inject_Z k -> nearest_even x = k.
Proof.
  intro E. rewrite (nearest_even_comp x (inject_Z k) E).
  unfold nearest_even. rewrite Qfloor_Z.
  assert (C : (inject_Z k - inject_Z k ?= 1 # 2) = Lt).
  { apply -> Qlt_alt. generalize (inject_Z k). intro q. lra. }
  now rewrite C.
Qed.

Lemma nearest_even_mono (x y : Q) :
  x <= y -> (nearest_even x <= nearest_even y)%Z.
Proof.
  intro H. pose proof (Qfloor_resp_le x y H) as F.
  pose proof (nearest_even_range x) as Rx.
  pose proof (nearest_even_range y) as Ry.
  destruct (Z.eq_dec (Qfloor x) (Qfloor y)) as [E|N]; [|lia].
  unfold nearest_even. rewrite E.
  destruct (Qcompare_spec (x - inject_Z (Qfloor y)) (1 # 2)) as [Ex|Lx|Gx];
    destruct (Qcompare_spec (y - inject_Z (Qfloor y)) (1 # 2)) as [Ey|Ly|Gy];
    try destruct (Z.even (Qfloor y)); try lia; exfalso; lra.
Qed.

(** *** Rounding a positive number *)

Lemma round_magnitude_comp (x y : Q) :
  0 < x -> x == y -> round_magnitude x == round_magnitude y.
Proof.
  intros Hx E. unfold round_magnitude.
  rewrite (quantum_comp x y Hx E).
  rewrite (nearest_even_comp (x / pow2 (quantum y)) (y / pow2 (quantum y)));
    [reflexivity|].
  now rewrite E.
Qed.

Lemma round_magnitude_nonneg (x : Q) : 0 < x -> 0 <= round_magnitude x.
Proof.
  intro Hx. unfold round_magnitude.
  pose proof (pow2_pos (quantum x)) as P.
  apply Qmult_le_0_compat; [|lra].
  apply inject_Z_nonneg.
  pose proof (nearest_even_range (x / pow2 (quantum x))) as R.
  assert (F : (Qfloor 0 <= Qfloor (x / pow2 (quantum x)))%Z).
  { apply Qfloor_resp_le. apply Qle_shift_div_l; lra. }
  change (Qfloor 0) with 0%Z in F. lia.
Qed.

(** The error is at most half the last bit kept. *)
Lemma round_magnitude_abs_error (x : Q) :
  Qabs (round_magnitude x - x) <= pow2 (quantum x) / 2.
Proof.
  unfold round_magnitude.
  pose proof (pow2_pos (quantum x)) as P.
  pose proof (nearest_even_error (x / pow2 (quantum x))) as E.
  set (m := inject_Z (nearest_even (x / pow2 (quantum x)))) in *.
  assert (R : m * pow2 (quantum x) - x
              == (m - x / pow2 (quantum x)) * pow2 (quantum x))
    by (field; lra).
  rewrite R, Qabs_Qmult, (Qabs_pos (pow2 (quantum x))) by lra.
  generalize dependent (Qabs (m - x / pow2 (quantum x))). intros a Ha.
  clear R m. generalize dependent (pow2 (quantum x)). intros p Hp.
  setoid_replace (p / 2) with ((1 # 2) * p) by field. nra.
Qed.

Lemma ilog2_normal (x : Q) : pow2 (-1022) <= x -> (-1022 <= ilog2 x)%Z.
Proof.
  intro H. pose proof (pow2_pos (-1022)) as P.
  destruct (ilog2_spec x ltac:(lra)) as [_ S].
  assert (L : (-1022 < ilog2 x + 1)%Z) by (apply pow2_lt_inv; lra).
  lia.
Qed.

(** In the normal range the error is at most [2^-53] times the number. *)
Lemma round_magnitude_error (x : Q) :
  pow2 (-1022) <= x ->
  Qabs (round_magnitude x - x) <= pow2 (-53) * x.
Proof.
  intro H. pose proof (pow2_pos (-1022)) as P.
  pose proof (ilog2_normal x H) as N.
  pose proof (round_magnitude_abs_error x) as E.
  destruct (ilog2_spec x ltac:(lra)) as [S _].
  assert (Q1 : quantum x = (ilog2 x - 52)%Z) by (unfold quantum; lia).
  rewrite Q1 in E.
  assert (Q2 : pow2 (ilog2 x - 52) / 2 == pow2 (-53) * pow2 (ilog2 x)).
  { rewrite <- pow2_pred, <- pow2_plus. 
    replace (ilog2 x - 52 - 1)%Z with (-53 + ilog2 x)%Z by lia. reflexivity. }
  rewrite Q2 in E. pose proof (pow2_pos (-53)) as U.
  generalize dependent (pow2 (ilog2 x)). generalize dependent (pow2 (-53)).
  intros. nra.
Qed.

Lemma round_magnitude_mono (x y : Q) :
  0 < x -> x <= y -> round_magnitude x <= round_magnitude y.
Proof.
  intros Hx H. assert (Hy : 0 < y) by lra.
  pose proof (quantum_mono x y Hx H) as Q.
  destruct (Z.eq_dec (quantum x) (quantum y)) as [E|N].
  - unfold round_magnitude. rewrite E.
    pose proof (pow2_pos (quantum y)) as P.
    apply Qmult_le_compat_r; [|lra].
    rewrite <- Zle_Qle. apply nearest_even_mono.
    apply Qmult_le_compat_r; [exact H|].
    apply Qlt_le_weak, Qinv_lt_0_compat, P.
  - assert (Ey : quantum y = (ilog2 y - 52)%Z).
    { unfold quantum in *. lia. }
    assert (Gx : (ilog2 x - 52 <= quantum x)%Z) by (unfold quantum; lia).
    destruct (ilog2_spec x Hx) as [_ Sx].
    destruct (ilog2_spec y Hy) as [Sy _].
    pose proof (pow2_pos (quantum x)) as Px.
    pose proof (pow2_pos (quantum y)) as Py.
    (* the larger number rounds to at least 2^52 of its last bits *)
    assert (Ly : pow2 (quantum y + 52) <= round_magnitude y).
    { unfold round_magnitude. rewrite pow2_plus, Qmult_comm.
      apply Qmult_le_compat_r; [|lra].
      assert (B : pow2 52 == inject_Z (2 ^ 52)) by (apply pow2_Z; lia).
      rewrite B, <- Zle_Qle.
      rewrite <- (nearest_even_Z (inject_Z (2 ^ 52)) _ (Qeq_refl _)).
      apply nearest_even_mono. rewrite <- B.
      apply Qle_shift_div_l; [exact Py|].
      rewrite <- pow2_plus. replace (52 + quantum y)%Z with (ilog2 y) by lia.
      exact Sy. }
    (* the smaller one to at most 2^53 of its own *)
    assert (Lx : round_magnitude x <= pow2 (quantum x + 53)).
    { unfold round_magnitude. rewrite pow2_plus, (Qmult_comm (pow2 _)).
      apply Qmult_le_compat_r; [|lra].
      assert (B : pow2 53 == inject_Z (2 ^ 53)) by (apply pow2_Z; lia).
      rewrite B, <- Zle_Qle.
      rewrite <- (nearest_even_Z (inject_Z (2 ^ 53)) _ (Qeq_refl _)).
      apply nearest_even_mono. rewrite <- B.
      apply Qle_shift_div_r; [exact Px|].
      rewrite <- pow2_plus.
      apply Qle_trans with (pow2 (ilog2 x + 1)); [lra|].
      apply pow2_le. lia. }
    apply Qle_trans with (1 := Lx). apply Qle_trans with (2 := Ly).
    apply pow2_le. lia.
Qed.

Lemma on_grid_comp (x y : Q) : x == y -> on_grid x -> on_grid y.
Proof. intros E (m & H). exists m. now rewrite <- E. Qed.

Lemma on_grid_plus (x y : Q) : on_grid x -> on_grid y -> on_grid (x + y).
Proof.
  intros (m & Hm) (k & Hk). exists (m + k)%Z.
  rewrite inject_Z_plus, Hm, Hk. ring.
Qed.

Lemma on_grid_opp (x : Q) : on_grid x -> on_grid (- x).
Proof.
  intros (m & Hm). exists (- m)%Z. rewrite inject_Z_opp, Hm. ring.
Qed.

Lemma on_grid_zero : on_grid 0.
Proof. exists 0%Z. ring. Qed.

Lemma quantum_min (x : Q) : (-1074 <= quantum x)%Z.
Proof. unfold quantum. lia. Qed.

(** The rounded number is a multiple of [2^-1074]. *)
Lemma round_magnitude_grid (x : Q) : on_grid (round_magnitude x).
Proof.
  pose proof (quantum_min x) as Q. unfold round_magnitude.
  exists (nearest_even (x / pow2 (quantum x)) * 2 ^ (quantum x + 1074))%Z.
  rewrite inject_Z_mult, <- pow2_Z by lia.
  rewrite <- Qmult_assoc, <- pow2_plus.
  replace (quantum x + 1074 + -1074)%Z with (quantum x) by lia. reflexivity.
Qed.

(** Below the normal range the multiples of [2^-1074] are not changed. *)
Lemma round_magnitude_subnormal (x : Q) :
  on_grid x -> 0 < x -> x < pow2 (-1022) -> round_magnitude x == x.
Proof.
  intros (m & Hm) Hx H.
  destruct (ilog2_spec x Hx) as [S _].
  assert (L : (ilog2 x < -1022)%Z) by (apply pow2_lt_inv; lra).
  assert (Q1 : quantum x = (-1074)%Z) by (unfold quantum; lia).
  unfold round_magnitude. rewrite Q1.
  pose proof (pow2_pos (-1074)) as P.
  rewrite (nearest_even_Z _ m); [now rewrite Hm|].
  rewrite Hm. field. lra.
Qed.

(** On the multiples of [2^-1074], as in the normal range, the error is at
    most [2^-53] times the number. *)
Lemma round_magnitude_grid_error (x : Q) :
  0 < x -> on_grid x \/ pow2 (-1022) <= x ->
  Qabs (round_magnitude x - x) <= pow2 (-53) * x.
Proof.
  intros Hx H. pose proof (pow2_pos (-53)) as U.
  destruct (Qlt_le_dec x (pow2 (-1022))) as [S|N].
  - destruct H as [G|N]; [|lra].
    rewrite (round_magnitude_subnormal x G Hx S).
    assert (Z0 : x - x == 0) by ring. rewrite Z0. simpl Qabs. nra.
  - now apply round_magnitude_error.
Qed.

(** In general the error is at most [2^-53] times the number plus half the
    least positive binary64 number. *)
Lemma round_magnitude_any_error (x : Q) :
  0 < x ->
  Qabs (round_magnitude x - x) <= pow2 (-53) * x + pow2 (-1075).
Proof.
  intro Hx. pose proof (pow2_pos (-53)) as U.
  pose proof (pow2_pos (-1075)) as V.
  destruct (Qlt_le_dec x (pow2 (-1022))) as [S|N].
  - pose proof (round_magnitude_abs_error x) as E.
    destruct (ilog2_spec x Hx) as [S1 _].
    assert (L : (ilog2 x < -1022)%Z) by (apply pow2_lt_inv; lra).
    assert (Q1 : quantum x = (-1074)%Z) by (unfold quantum; lia).
    rewrite Q1, <- pow2_pred in E. change (-1074 - 1)%Z with (-1075)%Z in E.
    nra.
  - pose proof (round_magnitude_error x N). lra.
Qed.

(** *** Rounding a real number *)

Lemma round64_zero (x : Q) : x == 0 -> round64 x = Fin 0.
Proof.
  intro E. unfold round64.
  destruct (Qcompare_spec x 0); [reflexivity|lra|lra].
Qed.

Lemma round64_pos (x : Q) :
  0 < x ->
  round64 x = if Qle_bool (pow2 1024) (round_magnitude x) then PInf
              else Fin (Qred (round_magnitude x)).
Proof.
  intro H. unfold round64.
  destruct (Qcompare_spec x 0); [lra|lra|reflexivity].
Qed.

Lemma round64_neg (x : Q) :
  x < 0 ->
  round64 x = if Qle_bool (pow2 1024) (round_magnitude (- x)) then NInf
              else Fin (Qred (- round_magnitude (- x))).
Proof.
  intro H. unfold round64.
  destruct (Qcompare_spec x 0); [lra|reflexivity|lra].
Qed.

(** What a finite result is. *)
Lemma round64_Fin (x r : Q) :
  round64 x = Fin r ->
  (x == 0 /\ r == 0)
  \/ (0 < x /\ r == round_magnitude x /\ round_magnitude x < pow2 1024)
  \/ (x < 0 /\ r == - round_magnitude (- x)
      /\ round_magnitude (- x) < pow2 1024).
Proof.
  destruct (Qcompare_spec x 0) as [E|L|G].
  - rewrite (round64_zero x E). intro H; injection H as <-.
    left. split; [exact E|reflexivity].
  - rewrite (round64_neg x L).
    destruct (Qle_bool _ _) eqn:C; [discriminate|].
    intro H. right; right.
    replace r with (Qred (- round_magnitude (- x))) by congruence.
    split; [exact L|]. split; [apply Qred_correct|].
    apply Qnot_le_lt. intro K. apply Qle_bool_iff in K. congruence.
  - rewrite (round64_pos x G).
    destruct (Qle_bool _ _) eqn:C; [discriminate|].
    intro H. right; left.
    replace r with (Qred (round_magnitude x)) by congruence.
    split; [exact G|]. split; [apply Qred_correct|].
    apply Qnot_le_lt. intro K. apply Qle_bool_iff in K. congruence.
Qed.

(** Equal numbers round to the same value. *)
Lemma round64_comp (x y : Q) : x == y -> round64 x = round64 y.
Proof.
  intro E. destruct (Qcompare_spec x 0) as [Z|L|G].
  - rewrite (round64_zero x Z), (round64_zero y); [reflexivity|].
    now rewrite <- E.
  - rewrite (round64_neg x L), (round64_neg y) by now rewrite <- E.
    assert (M : round_magnitude (- x) == round_magnitude (- y)).
    { apply round_magnitude_comp; [lra|now rewrite E]. }
    rewrite (Qleb_comp _ _ (Qeq_refl (pow2 1024)) _ _ M).
    destruct (Qle_bool _ _); [reflexivity|].
    f_equal. apply Qred_complete. now rewrite M.
  - rewrite (round64_pos x G), (round64_pos y) by now rewrite <- E.
    assert (M : round_magnitude x == round_magnitude y)
      by now apply round_magnitude_comp.
    rewrite (Qleb_comp _ _ (Qeq_refl (pow2 1024)) _ _ M).
    destruct (Qle_bool _ _); [reflexivity|].
    f_equal. now apply Qred_complete.
Qed.

(** Rounding keeps the sign. *)
Lemma round64_nonneg (x : Q) :
  0 <= x -> round64 x = PInf \/ exists r, round64 x = Fin r /\ 0 <= r.
Proof.
  intro H. destruct (Qcompare_spec x 0) as [Z|L|G]; [|lra|].
  - right. exists 0. split; [now apply round64_zero|apply Qle_refl].
  - rewrite (round64_pos x G). destruct (Qle_bool _ _); [now left|].
    right. eexists. split; [reflexivity|].
    rewrite Qred_correct. now apply round_magnitude_nonneg.
Qed.

Lemma round64_nonpos (x : Q) :
  x <= 0 -> round64 x = NInf \/ exists r, round64 x = Fin r /\ r <= 0.
Proof.
  intro H. destruct (Qcompare_spec x 0) as [Z|L|G]; [| |lra].
  - right. exists 0. split; [now apply round64_zero|apply Qle_refl].
  - rewrite (round64_neg x L). destruct (Qle_bool _ _); [now left|].
    right. eexists. split; [reflexivity|].
    rewrite Qred_correct.
    pose proof (round_magnitude_nonneg (- x) ltac:(lra)). lra.
Qed.

(** Rounding is monotone. *)
Lemma round64_mono (x y : Q) :
  x <= y -> (round64 x <=? round64 y)%fp = true.
Proof.
  intro H.
  destruct (Qlt_le_dec 0 x) as [Px|Nx].
  - (* both positive *)
    assert (Py : 0 < y) by lra.
    rewrite (round64_pos x Px), (round64_pos y Py).
    pose proof (round_magnitude_mono x y Px H) as M.
    destruct (Qle_bool (pow2 1024) (round_magnitude x)) eqn:Cx.
    + apply Qle_bool_iff in Cx.
      assert (Cy : Qle_bool (pow2 1024) (round_magnitude y) = true)
        by (apply Qle_bool_iff; lra).
      now rewrite Cy.
    + destruct (Qle_bool (pow2 1024) (round_magnitude y)); [reflexivity|].
      apply fle_Fin. now rewrite !Qred_correct.
  - destruct (Qlt_le_dec y 0) as [Ny|Py].
    + (* both negative *)
      assert (Nx' : x < 0) by lra.
      rewrite (round64_neg x Nx'), (round64_neg y Ny).
      pose proof (round_magnitude_mono (- y) (- x) ltac:(lra) ltac:(lra)) as M.
      destruct (Qle_bool (pow2 1024) (round_magnitude (- y))) eqn:Cy.
      * apply Qle_bool_iff in Cy.
        assert (Cx : Qle_bool (pow2 1024) (round_magnitude (- x)) = true)
          by (apply Qle_bool_iff; lra).
        now rewrite Cx.
      * destruct (Qle_bool (pow2 1024) (round_magnitude (- x)));
          [reflexivity|].
        apply fle_Fin. rewrite !Qred_correct. lra.
    + (* zero lies between them *)
      destruct (round64_nonpos x Nx) as [->|(a & -> & Ha)];
        destruct (round64_nonneg y Py) as [->|(b & -> & Hb)];
        try reflexivity.
      apply fle_Fin. lra.
Qed.

(** The result is a multiple of [2^-1074]. *)
Lemma round64_grid (x r : Q) : round64 x = Fin r -> on_grid r.
Proof.
  intro H. apply round64_Fin in H.
  destruct H as [[_ E]|[(_ & E & _)|(_ & E & _)]].
  - apply on_grid_comp with 0; [now symmetry|apply on_grid_zero].
  - apply on_grid_comp with (round_magnitude x); [now symmetry|].
    apply round_magnitude_grid.
  - apply on_grid_comp with (- round_magnitude (- x)); [now symmetry|].
    apply on_grid_opp, round_magnitude_grid.
Qed.

(** The relative error of a finite result is at most [2^-53] on the
    multiples of [2^-1074] and in the normal range. *)
Lemma round64_error (x r : Q) :
  round64 x = Fin r ->
  on_grid x \/ pow2 (-1022) <= Qabs x ->
  Qabs (r - x) <= pow2 (-53) * Qabs x.
Proof.
  intros H G. apply round64_Fin in H.
  destruct H as [[Z E]|[(P & E & _)|(N & E & _)]].
  - rewrite E, Z. simpl. vm_compute. discriminate.
  - rewrite E, (Qabs_pos x) by lra.
    apply round_magnitude_grid_error; [exact P|].
    destruct G as [G|G]; [now left|right]. now rewrite Qabs_pos in G by lra.
  - rewrite E, (Qabs_neg x) by lra.
    assert (R : - round_magnitude (- x) - x
                == - (round_magnitude (- x) - - x)) by ring.
    rewrite R, Qabs_opp.
    apply round_magnitude_grid_error; [lra|].
    destruct G as [G|G]; [left; now apply on_grid_opp|right].
    now rewrite Qabs_neg in G by lra.
Qed.

(** In general the error of a finite result is at most [2^-53] times the
    number plus [2^-1075]. *)
Lemma round64_any_error (x r : Q) :
  round64 x = Fin r ->
  Qabs (r - x) <= pow2 (-53) * Qabs x + pow2 (-1075).
Proof.
  intro H. apply round64_Fin in H.
  destruct H as [[Z E]|[(P & E & _)|(N & E & _)]].
  - rewrite E, Z. vm_compute. discriminate.
  - rewrite E, (Qabs_pos x) by lra. now apply round_magnitude_any_error.
  - rewrite E, (Qabs_neg x) by lra.
    assert (R : - round_magnitude (- x) - x
                == - (round_magnitude (- x) - - x)) by ring.
    rewrite R, Qabs_opp. apply round_magnitude_any_error. lra.
Qed.

(** A binary64 number is its own rounding. *)
Lemma is_binary64_round (x : Q) :
  is_binary64 x -> exists r, round64 x = Fin r /\ r == x.
Proof.
  unfold is_binary64. intro H. apply feqb_Fin in H.
  destruct H as (r & E & Hr). now exists r.
Qed.

Lemma is_binary64_grid (x : Q) : is_binary64 x -> on_grid x.
Proof.
  intro H. destruct (is_binary64_round x H) as (r & E & Hr).
  apply on_grid_comp with r; [exact Hr|]. now apply round64_grid with x.
Qed.

(** ** C1: the traffic-light boundaries *)

(** The largest binary64 number below 1 is [1 - 2^-53]. *)
Lemma binary64_below_one (c : Q) :
  is_binary64 c -> c < 1 -> c <= 1 - pow2 (-53).
Proof.
  intros B H.
  destruct (Qlt_le_dec c (1 # 2)) as [S|L].
  { apply Qle_trans with (1 # 2); [lra|]. vm_compute. discriminate. }
  destruct (is_binary64_round c B) as (r & E & Hr).
  apply round64_Fin in E.
  destruct E as [[Z _]|[(_ & E & _)|(N & _)]]; [lra| |lra].
  assert (I : ilog2 c = (-1)%Z).
  { apply ilog2_unique; [exact L|exact H]. }
  assert (Q1 : quantum c = (-53)%Z) by (unfold quantum; rewrite I; lia).
  unfold round_magnitude in E. rewrite Q1 in E.
  set (m := nearest_even (c / pow2 (-53))) in *.
  pose proof (pow2_pos (-53)) as U.
  assert (Hm : inject_Z m < inject_Z (2 ^ 53)).
  { rewrite <- pow2_Z by lia.
    assert (X : pow2 53 * pow2 (-53) == 1) by (vm_compute; reflexivity).
    rewrite <- Hr, E in H. clearbody m. revert H X U.
    generalize (pow2 53) (pow2 (-53)) (inject_Z m). intros a b k. intros.
    nra. }
  rewrite <- Zlt_Qlt in Hm.
  assert (Hm' : inject_Z m <= inject_Z (2 ^ 53 - 1))
    by (rewrite <- Zle_Qle; lia).
  assert (X : inject_Z (2 ^ 53 - 1) * pow2 (-53) == 1 - pow2 (-53))
    by (vm_compute; reflexivity).
  rewrite <- X, <- Hr, E.
  apply Qmult_le_compat_r; [exact Hm'|lra].
Qed.

Lemma zip_with_length_le {A B C} (f : A -> B -> C) (xs : list A)
    (ys : list B) :
  (length (Np.zip_with f xs ys) <= length xs)%nat.
Proof.
  revert ys. induction xs as [|x t IH]; intros [|y u]; simpl; try lia.
  specialize (IH u). lia.
Qed.

(** The rounded ratio of a count to a larger count is NaN, for [0 / 0], or
    a finite number that is not negative. *)
Lemma count_ratio64 (ex tot : Z) :
  (0 <= ex <= tot)%Z ->
  div64 (of_Z ex) (of_Z tot) = NaN
  \/ exists q, div64 (of_Z ex) (of_Z tot) = Fin q /\ 0 <= q.
Proof.
  intro H. unfold div64, of_Z, fdiv.
  destruct (Qeq_bool (inject_Z tot) 0) eqn:E.
  - apply Qeq_bool_eq in E. left.
    assert (T : tot = 0%Z) by (apply inject_Z_injective; exact E).
    assert (ex = 0%Z) by lia. subst. reflexivity.
  - right. apply Qeq_bool_neq in E.
    assert (Ht : 0 < inject_Z tot).
    { apply inject_Z_pos. destruct (Z.eq_dec tot 0) as [->|]; [|lia].
      exfalso. apply E. reflexivity. }
    assert (H0 : 0 <= inject_Z ex / inject_Z tot).
    { apply Qle_shift_div_l; [exact Ht|]. rewrite Qmult_0_l.
      apply inject_Z_nonneg. lia. }
    assert (H1 : inject_Z ex / inject_Z tot <= 1).
    { apply Qle_shift_div_r; [exact Ht|]. rewrite Qmult_1_l.
      rewrite <- Zle_Qle. lia. }
    cbn [rnd].
    destruct (round64_nonneg _ H0) as [P|(q & -> & Hq)]; [|now exists q].
    pose proof (round64_mono _ _ H1) as M. rewrite P in M.
    change (round64 1) with (Fin 1) in M. discriminate.
Qed.

(** What the backtest returns, field by field. *)
Lemma var_backtest_fields (returns : list Q) (var_series : list fp)
    (confidence : Q) (r : backtest) :
  Binary64.var_backtest returns var_series confidence = Returned r ->
  (exception_rate r = NaN \/ exists q, exception_rate r = Fin q /\ 0 <= q)
  /\ expected_rate r = round64 (1 + - confidence)
  /\ status r =
       if (exception_rate r <? mul64 (expected_rate r) (Fin (3 # 2)))%fp
       then GREEN
       else if (exception_rate r <? mul64 (expected_rate r) (Fin 2))%fp
            then YELLOW
            else RED.
Proof.
  unfold Binary64.var_backtest.
  destruct (Np.mask_index returns _) as [actual|]; [|discriminate].
  destruct (Np.mask_index var_series _) as [predicted|]; [|discriminate].
  cbn [obind]. intro H; injection H as <-. cbn [exception_rate expected_rate status].
  split; [|split; reflexivity].
  apply count_ratio64. split; [apply count_true_nonneg|].
  unfold Np.count_true. apply inj_le.
  eapply Nat.le_trans; [apply filter_length_le|].
  eapply Nat.le_trans; [apply zip_with_length_le|]. apply Nat.le_refl.
Qed.

(** Equal floats are finite and equal, or the same infinity. *)
Lemma feqb_true (x y : fp) :
  (x ==? y)%fp = true ->
  (exists a b, x = Fin a /\ y = Fin b /\ a == b)
  \/ (x = PInf /\ y = PInf) \/ (x = NInf /\ y = NInf).
Proof.
  destruct x as [a| | |], y as [b| | |]; simpl; try discriminate; intro H.
  - left. exists a, b. repeat split. now apply Qeq_bool_eq.
  - right; left. now split.
  - right; right. now split.
Qed.

(** C1 (counterexample): with three exceptions in four scored days and
    confidence 1/2, every operation is exact: the exception rate 3/4 is
    exactly 1.5 times the expected rate 1/2, and the status is YELLOW, not
    GREEN. *)
Lemma backtest_boundary_counterexample :
  exists r,
    Binary64.var_backtest [-(1); -(1); -(1); 0]
      [Fin (1 # 2); Fin (1 # 2); Fin (1 # 2); Fin (1 # 2)] (1 # 2)
    = Returned r
    /\ exception_rate r = Fin (3 # 4)
    /\ expected_rate r = Fin (1 # 2)
    /\ rate_is (3 # 2) r
    /\ status r = YELLOW
    /\ status r <> GREEN.
Proof.
  eexists. split; [vm_compute; reflexivity|].
  repeat split; try reflexivity. discriminate.
Qed.

(** At the confidence 0.95 rounding decides: [1 - 0.95] is
    0.050000000000000044, above 1/20, so that 3 exceptions in 40 days, a
    rate of 0.075, stay below 1.5 times the expected rate and are GREEN,
    and 4 exceptions in 40 days, a rate of 0.1, stay below twice the
    expected rate and are YELLOW. *)
Lemma backtest_at_confidence_95 :
  let var_series := repeat (Fin (1 # 2)) 40 in
  let confidence := lit (95 # 100) in
  (exists r,
     Binary64.var_backtest (repeat (- (1)) 3 ++ repeat 0 37) var_series
       confidence = Returned r
     /\ exceptions r = 3%Z /\ total_days r = 40%Z
     /\ exception_rate r = Fin (lit (75 # 1000))
     /\ expected_rate r = Fin (lit (50000000000000044 # 10 ^ 18))
     /\ status r = GREEN)
  /\ (exists r,
        Binary64.var_backtest (repeat (- (1)) 4 ++ repeat 0 36) var_series
          confidence = Returned r
        /\ exceptions r = 4%Z /\ total_days r = 40%Z
        /\ exception_rate r = Fin (lit (1 # 10))
        /\ status r = YELLOW).
Proof.
  split; (eexists; split; [vm_compute; reflexivity|]); repeat split.
Qed.

(** C1 (as amended): when the exception rate is exactly 1.5 times the
    expected rate the status is never GREEN, and it is YELLOW for every
    confidence below 1 that is a binary64 number; when it is exactly twice
    the expected rate the status is RED. *)
Theorem backtest_boundary_status (returns : list Q) (var_series : list fp)
    (confidence : Q) (r : backtest) :
  Binary64.var_backtest returns var_series confidence = Returned r ->
  (rate_is (3 # 2) r ->
     status r <> GREEN
     /\ (is_binary64 confidence -> confidence < 1 -> status r = YELLOW))
  /\ (rate_is 2 r -> status r = RED).
Proof.
  intro H. apply var_backtest_fields in H.
  destruct H as (Hrate & Hexp & Hst).
  unfold rate_is. rewrite Hst, Hexp. clear Hst Hexp.
  set (E := round64 (1 + - confidence)).
  split; intro R; apply feqb_true in R.
  - (* the rate equals 1.5 times the expected rate *)
    destruct R as [(q & q' & Eq & Eq' & Hq)|[[R _]|[R _]]];
      [|destruct Hrate as [N|(a & N & _)]; congruence
       |destruct Hrate as [N|(a & N & _)]; congruence].
    rewrite Eq, Eq'.
    assert (F : (Fin q <? Fin q')%fp = false) by (apply flt_Fin_false; lra).
    rewrite F. split.
    + destruct (Fin q <? mul64 E (Fin 2))%fp; discriminate.
    + intros B Hc. pose proof (binary64_below_one _ B Hc) as Hc'.
      pose proof (pow2_pos (-53)) as U.
      assert (U7 : pow2 (-53) < 1 # 7) by reflexivity.
      (* the expected rate is at least 2^-53 *)
      assert (He : exists e, E = Fin e /\ pow2 (-53) <= e).
      { assert (M : (round64 (pow2 (-53)) <=? E)%fp = true)
          by (apply round64_mono; lra).
        destruct (round64_nonneg (1 + - confidence) ltac:(lra))
          as [P|(e & P & He)]; fold E in P.
        - rewrite P in Eq'. discriminate.
        - exists e. split; [exact P|]. rewrite P in M.
          replace (round64 (pow2 (-53))) with (Fin (Qred (pow2 (-53)))) in M
            by (vm_compute; reflexivity).
          apply fle_Fin in M. now rewrite Qred_correct in M. }
      destruct He as (e & Ee & He). rewrite Ee in *.
      unfold mul64 in *. cbn [fmul rnd] in *.
      assert (N : pow2 (-1022) <= pow2 (-53)) by (apply pow2_le; lia).
      apply round64_error in Eq';
        [|right; rewrite Qabs_pos by nra; nra].
      rewrite (Qabs_pos (e * (3 # 2))) in Eq' by nra.
      assert (Hq' : q' <= e * (3 # 2) * (1 + pow2 (-53))).
      { revert Eq'. apply Qabs_case; intros; nra. }
      destruct (round64_nonneg (e * 2) ltac:(nra)) as [->|(p & Ep & Hp)];
        [reflexivity|].
      rewrite Ep. 
      apply round64_error in Ep;
        [|right; rewrite Qabs_pos by nra; nra].
      rewrite (Qabs_pos (e * 2)) in Ep by nra.
      assert (Hp' : e * 2 * (1 - pow2 (-53)) <= p).
      { revert Ep. apply Qabs_case; intros; nra. }
      assert (T : (Fin q <? Fin p)%fp = true).
      { apply flt_Fin_true. 
        generalize dependent (pow2 (-53)). intros u. intros. nra. }
      now rewrite T.
  - (* the rate equals twice the expected rate *)
    destruct R as [(q & p & Eq & Ep & Hq)|[[R _]|[R _]]];
      [|destruct Hrate as [N|(a & N & _)]; congruence
       |destruct Hrate as [N|(a & N & _)]; congruence].
    assert (Hq0 : 0 <= q).
    { destruct Hrate as [N|(a & N & Ha)]; [congruence|].
      rewrite Eq in N. injection N as ->. exact Ha. }
    rewrite Eq, Ep.
    assert (F2 : (Fin q <? Fin p)%fp = false) by (apply flt_Fin_false; lra).
    rewrite F2.
    assert (F1 : (Fin q <? mul64 E (Fin (3 # 2)))%fp = false).
    { destruct E as [e| | |] eqn:Ee; try discriminate.
      unfold mul64 in *. cbn [fmul rnd] in *.
      destruct (Qlt_le_dec e 0) as [Ne|Pe].
      - destruct (round64_nonpos (e * (3 # 2)) ltac:(lra))
          as [->|(a & -> & Ha)]; [reflexivity|].
        apply flt_Fin_false. lra.
      - pose proof (round64_mono (e * (3 # 2)) (e * 2) ltac:(lra)) as M.
        rewrite Ep in M.
        destruct (round64 (e * (3 # 2))) as [a| | |];
          try reflexivity; try discriminate.
        apply fle_Fin in M. apply flt_Fin_false. lra. }
    now rewrite F1.
Qed.

(** The theorem at the inputs of the counterexample: rate 3/4, expected
    rate 1/2, status YELLOW. *)
Lemma backtest_boundary_status_witness :
  exists r,
    Binary64.var_backtest [-(1); -(1); -(1); 0]
      [Fin (1 # 2); Fin (1 # 2); Fin (1 # 2); Fin (1 # 2)] (1 # 2)
    = Returned r
    /\ status r = YELLOW.
Proof.
  eexists. split; [vm_compute; reflexivity|].
  refine (proj2 (proj1 (backtest_boundary_status
                          [-(1); -(1); -(1); 0]
                          [Fin (1 # 2); Fin (1 # 2); Fin (1 # 2); Fin (1 # 2)]
                          (1 # 2) _ _) _) _ _).
  - vm_compute. reflexivity.
  - vm_compute. reflexivity.
  - vm_compute. reflexivity.
  - reflexivity.
Defined.

(** From here on the unqualified estimators are those of the exact model
    again; the rounded ones are written [Binary64.f]. *)
Import RiskMetrics.

(** ** Sorting and percentiles *)

Lemma insert_perm (x : fp) (l : list fp) : Permutation (Np.insert x l) (x :: l).
Proof.
  induction l as [|y t IH]; simpl.
  - apply Permutation_refl.
  - destruct (x <=? y)%fp.
    + apply Permutation_refl.
    + apply Permutation_trans with (y :: x :: t).
      * now apply perm_skip.
      * apply perm_swap.
Qed.

Lemma sort_perm (l : list fp) : Permutation (Np.sort l) l.
Proof.
  induction l as [|x t IH]; simpl.
  - apply perm_nil.
  - apply Permutation_trans with (x :: Np.sort t).
    + apply insert_perm.
    + now apply perm_skip.
Qed.

Lemma sort_length (l : list fp) : length (Np.sort l) = length l.
Proof. apply Permutation_length, sort_perm. Qed.

Lemma sort_nth_In (l : list fp) (k : nat) :
  (k < length l)%nat -> In (nth k (Np.sort l) NaN) l.
Proof.
  intro H. apply (Permutation_in _ (sort_perm l)).
  apply nth_In. now rewrite sort_length.
Qed.

(** The virtual index of a percentile lies inside the array, and its
    fractional part inside the unit interval. *)
Lemma virtual_index_range (q : Q) (n : Z) :
  0 <= q -> q <= 100 -> (1 <= n)%Z ->
  let virtual := (q / 100) * inject_Z (n - 1) in
  let prev := Qfloor virtual in
  (0 <= prev <= n - 1)%Z
  /\ 0 <= virtual - inject_Z prev /\ virtual - inject_Z prev <= 1.
Proof.
  intros Hq0 Hq1 Hn virtual prev.
  assert (Hm : 0 <= inject_Z (n - 1)) by (apply inject_Z_nonneg; lia).
  assert (Hf0 : 0 <= q / 100) by (apply Qle_shift_div_l; lra).
  assert (Hf1 : q / 100 <= 1) by (apply Qle_shift_div_r; lra).
  assert (Hv0 : 0 <= virtual) by (unfold virtual; nra).
  assert (Hv1 : virtual <= inject_Z (n - 1)) by (unfold virtual; nra).
  assert (Hlo := Qfloor_le virtual). assert (Hhi := Qlt_floor virtual).
  fold prev in Hlo, Hhi.
  repeat split.
  - change 0%Z with (Qfloor 0). now apply Qfloor_resp_le.
  - rewrite <- (Qfloor_Z (n - 1)). now apply Qfloor_resp_le.
  - lra.
  - rewrite inject_Z_plus in Hhi. change (inject_Z 1) with 1 in Hhi. lra.
Qed.

(** A percentile of a non-empty array without NaN interpolates between two
    of its entries. *)
Lemma percentile_lerp (a : list fp) (q : Q) :
  a <> [] -> existsb is_nan a = false -> 0 <= q -> q <= 100 ->
  exists x y t,
    In x a /\ In y a /\ 0 <= t /\ t <= 1
    /\ Np.percentile a q = Returned (Np.lerp x y t).
Proof.
  intros Hne Hnan Hq0 Hq1. unfold Np.percentile.
  assert (B : negb (Qle_bool 0 q && Qle_bool q 100) = false).
  { apply negb_false_iff, andb_true_iff.
    split; now apply Qle_bool_iff. }
  rewrite B, Hnan.
  destruct a as [|x0 a']; [congruence|].
  set (a := x0 :: a') in *.
  assert (Hn : (1 <= Z.of_nat (length a))%Z) by (simpl; lia).
  destruct (virtual_index_range q _ Hq0 Hq1 Hn) as (Hp & Hg0 & Hg1).
  eexists _, _, _.
  split; [|split; [|split; [exact Hg0|split; [exact Hg1|reflexivity]]]].
  - apply sort_nth_In. lia.
  - apply sort_nth_In. lia.
Qed.

Lemma lerp_Fin_bounds (a b t lo hi : Q) :
  lo <= a -> a <= hi -> lo <= b -> b <= hi -> 0 <= t -> t <= 1 ->
  exists v, Np.lerp (Fin a) (Fin b) t = Fin v /\ lo <= v /\ v <= hi.
Proof.
  intros. unfold Np.lerp. simpl.
  destruct (Qle_bool (1 # 2) t); eexists; (split; [reflexivity|]); nra.
Qed.

Lemma within_no_nan (lo hi : Q) (a : list fp) :
  within lo hi a -> existsb is_nan a = false.
Proof.
  induction 1 as [|x t (v & -> & _) _ IH]; simpl; [reflexivity|exact IH].
Qed.

(** The percentile of a non-empty finite array is finite and stays within
    any bounds its entries satisfy. *)
Lemma percentile_within (a : list fp) (q lo hi : Q) :
  a <> [] -> within lo hi a -> 0 <= q -> q <= 100 ->
  exists v, Np.percentile a q = Returned (Fin v) /\ lo <= v /\ v <= hi.
Proof.
  intros Hne Hw Hq0 Hq1.
  destruct (percentile_lerp a q Hne (within_no_nan _ _ _ Hw) Hq0 Hq1)
    as (x & y & t & Hx & Hy & Ht0 & Ht1 & E).
  unfold within in Hw. rewrite Forall_forall in Hw.
  destruct (Hw _ Hx) as (vx & -> & Hx0 & Hx1).
  destruct (Hw _ Hy) as (vy & -> & Hy0 & Hy1).
  destruct (lerp_Fin_bounds vx vy t lo hi) as (v & Ev & Hv); try assumption.
  exists v. split; [now rewrite E, Ev|exact Hv].
Qed.

(** ** Sums and means of finite arrays *)

Lemma sum_from_Fin (xs : list Q) (acc : Q) :
  fold_left fadd (map Fin xs) (Fin acc) = Fin (fold_left Qplus xs acc).
Proof.
  revert acc. induction xs as [|x t IH]; intro acc; simpl;
    [reflexivity|apply IH].
Qed.

Lemma sum_map_Fin (xs : list Q) : Np.sum (map Fin xs) = Fin (Qsum xs).
Proof. apply sum_from_Fin. Qed.

Lemma fold_sum_shift (xs : list Q) (a : Q) :
  fold_left Qplus xs a == a + Qsum xs.
Proof.
  unfold Qsum. revert a. induction xs as [|x t IH]; intro a; simpl.
  - ring.
  - rewrite (IH (a + x)), (IH (0 + x)). ring.
Qed.

Lemma Qsum_cons (x : Q) (t : list Q) : Qsum (x :: t) == x + Qsum t.
Proof.
  unfold Qsum at 1. simpl. rewrite fold_sum_shift. ring.
Qed.

Lemma Qlen_cons (x : Q) (xs : list Q) : Qlen (x :: xs) == Qlen xs + 1.
Proof.
  unfold Qlen. simpl length. rewrite Nat2Z.inj_succ, <- Z.add_1_r.
  rewrite inject_Z_plus. reflexivity.
Qed.

Lemma Qlen_pos (xs : list Q) : xs <> [] -> 0 < Qlen xs.
Proof.
  intro H. apply inject_Z_pos. destruct xs; [congruence|simpl; lia].
Qed.

Lemma fold_sum_bounds (lo hi : Q) (xs : list Q) (acc : Q) :
  Forall (fun x => lo <= x /\ x <= hi) xs ->
  acc + Qlen xs * lo <= fold_left Qplus xs acc
  /\ fold_left Qplus xs acc <= acc + Qlen xs * hi.
Proof.
  intro H. revert acc.
  induction H as [|x t [Hx0 Hx1] _ IH]; intro acc.
  - unfold Qlen; simpl. change (inject_Z 0) with 0. lra.
  - simpl fold_left. destruct (IH (acc + x)) as [I0 I1].
    rewrite Qlen_cons. lra.
Qed.

Lemma Qsum_bounds (lo hi : Q) (xs : list Q) :
  Forall (fun x => lo <= x /\ x <= hi) xs ->
  Qlen xs * lo <= Qsum xs /\ Qsum xs <= Qlen xs * hi.
Proof.
  intro H. destruct (fold_sum_bounds lo hi xs 0 H). unfold Qsum. lra.
Qed.

(** The mean of a non-empty finite array is finite. *)
Lemma mean_map_Fin (xs : list Q) :
  xs <> [] -> Np.mean (map Fin xs) = Fin (Qsum xs / Qlen xs).
Proof.
  intro H. unfold Np.mean. rewrite sum_map_Fin, length_map.
  unfold of_Z, fdiv. fold (Qlen xs).
  destruct (Qeq_bool (Qlen xs) 0) eqn:E; [|reflexivity].
  apply Qeq_bool_eq in E. pose proof (Qlen_pos xs H). lra.
Qed.

(** The mean stays within any bounds the entries satisfy. *)
Lemma Qmean_bounds (lo hi : Q) (xs : list Q) :
  xs <> [] -> Forall (fun x => lo <= x /\ x <= hi) xs ->
  lo <= Qsum xs / Qlen xs /\ Qsum xs / Qlen xs <= hi.
Proof.
  intros Hne H. destruct (Qsum_bounds lo hi xs H) as [B0 B1].
  pose proof (Qlen_pos xs Hne) as Hp. split.
  - apply Qle_shift_div_l; lra.
  - apply Qle_shift_div_r; lra.
Qed.

(** Bounds for the entries of any list of rationals. *)
Lemma Forall_bounded (xs : list Q) :
  exists lo hi, Forall (fun x => lo <= x /\ x <= hi) xs.
Proof.
  induction xs as [|x t (lo & hi & IH)].
  - exists 0, 0. constructor.
  - exists (Qmin lo x), (Qmax hi x). constructor.
    + split; [apply Q.le_min_r|apply Q.le_max_r].
    + revert IH. apply Forall_impl. intros y [H0 H1]. split.
      * apply Qle_trans with lo; [apply Q.le_min_l|assumption].
      * apply Qle_trans with hi; [assumption|apply Q.le_max_l].
Qed.

Lemma within_map_Fin (lo hi : Q) (xs : list Q) :
  Forall (fun x => lo <= x /\ x <= hi) xs -> within lo hi (map Fin xs).
Proof.
  intro H. unfold within. rewrite Forall_map.
  revert H. apply Forall_impl. intros x Hx. now exists x.
Qed.

(** The percentile of a non-empty array of finite values is finite. *)
Lemma percentile_map_Fin (xs : list Q) (q : Q) :
  xs <> [] -> 0 <= q -> q <= 100 ->
  exists v, Np.percentile (map Fin xs) q = Returned (Fin v).
Proof.
  intros Hne Hq0 Hq1. destruct (Forall_bounded xs) as (lo & hi & B).
  destruct (percentile_within (map Fin xs) q lo hi) as (v & E & _);
    try assumption.
  - destruct xs; [congruence|discriminate].
  - now apply within_map_Fin.
  - now exists v.
Qed.

(** ** Square roots, standard deviation and the random draws *)

Lemma fsqrt_Fin_nonneg (sqrtQ : Q -> Q) (h : Q) :
  0 <= h -> fsqrt sqrtQ (Fin h) = Fin (sqrtQ h).
Proof.
  intro H. simpl. destruct (Qcompare_spec h 0) as [E|L|G]; try reflexivity.
  exfalso. lra.
Qed.

Lemma fsqrt_Fin_neg (sqrtQ : Q -> Q) (h : Q) :
  h < 0 -> fsqrt sqrtQ (Fin h) = NaN.
Proof.
  intro H. simpl. destruct (Qcompare_spec h 0) as [E|L|G]; try reflexivity;
    exfalso; lra.
Qed.





(** With a finite location and a finite non-negative scale, [k] normal
    draws return [k] finite numbers. *)
Lemma normals_finite {rng} (gauss : rng -> Q * rng) (loc scale : Q)
    (k : nat) (s : rng) :
  0 <= scale ->
  exists xs s',
    Random.normals gauss (Fin loc) (Fin scale) k s = (Returned (map Fin xs), s')
    /\ length xs = k.
Proof.
  intro Hs. revert s. induction k as [|k IH]; intro s; simpl.
  - exists [], s. split; reflexivity.
  - unfold Random.bind at 1. unfold Random.normal.
    assert (F : (Fin scale <? Fin 0)%fp = false) by now apply flt_Fin_false.
    rewrite F. destruct (gauss s) as [g s1].
    unfold Random.bind at 1.
    destruct (IH s1) as (xs & s' & E & L). rewrite E.
    exists (loc + scale * g :: xs), s'. split; [reflexivity|].
    simpl. now rewrite L.
Qed.

Lemma normal_size_finite {rng} (gauss : rng -> Q * rng) (loc scale : Q)
    (size : Z) (s : rng) :
  0 <= scale -> (0 <= size)%Z ->
  exists xs s',
    Random.normal_size gauss (Fin loc) (Fin scale) size s
    = (Returned (map Fin xs), s')
    /\ length xs = Z.to_nat size.
Proof.
  intros Hs Hn. unfold Random.normal_size.
  assert (F : (Fin scale <? Fin 0)%fp = false) by now apply flt_Fin_false.
  rewrite F. destruct (Z.ltb_spec size 0); [lia|].
  now apply normals_finite.
Qed.

(** ** Elementwise operations *)

Lemma bind_returned {rng A B} (m : Random.M rng A) (k : A -> Random.M rng B)
    (s s' : rng) (a : A) :
  m s = (Returned a, s') -> Random.bind m k s = k a s'.
Proof. intro E. unfold Random.bind. now rewrite E. Qed.

Lemma zip_with_length {A B C} (f : A -> B -> C) (xs : list A) (ys : list B) :
  length xs = length ys -> length (Np.zip_with f xs ys) = length xs.
Proof.
  revert ys. induction xs as [|x t IH]; intros [|y u] H; simpl in *;
    try reflexivity; try discriminate.
  f_equal. apply IH. now injection H.
Qed.

Lemma broadcast_aligned {A B C} (f : A -> B -> C) (xs : list A)
    (ys : list B) :
  length xs = length ys ->
  Np.broadcast f xs ys = Returned (Np.zip_with f xs ys).
Proof.
  intro H. unfold Np.broadcast. now rewrite H, Nat.eqb_refl.
Qed.

Lemma zip_with_fmul_Fin (xs ys : list Q) :
  Np.zip_with fmul (map Fin xs) (map Fin ys)
  = map Fin (Np.zip_with Qmult xs ys).
Proof.
  revert ys. induction xs as [|x t IH]; intros [|y u]; simpl;
    try reflexivity.
  now rewrite IH.
Qed.

Lemma map_of_bool (ds : list bool) :
  map of_bool ds = map Fin (map Qof_bool ds).
Proof.
  rewrite map_map. apply map_ext. now intros [|].
Qed.

(** ** Matrix products *)






(** ** C2: sign of the four estimators *)

Lemma scaled_finite (returns : list Q) (root : Q) :
  map (fun r => (Fin r * Fin root)%fp) returns
  = map Fin (map (fun r => r * root) returns).
Proof. rewrite map_map. reflexivity. Qed.

(** Historical VaR of a non-empty series, for a confidence in [0, 1] and a
    non-negative holding period: the absolute value of a finite
    percentile. *)
Lemma historical_var_value (sqrtQ : Q -> Q) (returns : list Q)
    (confidence holding_period : Q) :
  returns <> [] -> 0 <= confidence -> confidence <= 1 ->
  0 <= holding_period ->
  exists p,
    Np.percentile
      (map Fin (map (fun r => r * sqrtQ holding_period) returns))
      ((1 - confidence) * 100) = Returned (Fin p)
    /\ historical_var sqrtQ returns confidence holding_period
       = Returned (Fin (Qabs p)).
Proof.
  intros Hne Hc0 Hc1 Hh. unfold historical_var.
  rewrite (fsqrt_Fin_nonneg sqrtQ _ Hh). cbv zeta.
  rewrite scaled_finite.
  destruct (percentile_map_Fin
              (map (fun r => r * sqrtQ holding_period) returns)
              ((1 - confidence) * 100)) as (p & E); try lra.
  - destruct returns; [congruence|discriminate].
  - exists p. split; [exact E|]. now rewrite E.
Qed.









Lemma sqrt_ref_nonneg (x : Q) : 0 <= Reference.sqrt_ref x.
Proof.
  unfold Reference.sqrt_ref, Qle. simpl. rewrite Z.mul_1_r.
  apply Z.sqrt_nonneg.
Qed.


(** ** Running the simulator *)

Section SimulatorRuns.
Variable sqrtQ : Q -> Q.
Variable norm_ppf : Q -> fp.
Variable rng : Type.
Variable seed : Z -> rng.
Variable gauss : rng -> Q * rng.
Variables exposures pds lgds : list Q.
Variable correlation : Q.
Hypothesis pds_aligned : length pds = length exposures.
Hypothesis lgds_aligned : length lgds = length exposures.

(** One trial draws the systematic factor, then one factor per
    counterparty, and yields as many asset values. *)
Lemma trial_assets_run (s : rng) :
  exists (z : Q) (eps : list Q) (s' : rng),
    length eps = length exposures
    /\ trial_assets sqrtQ gauss (length exposures) correlation s
       = (Returned (map (asset_value sqrtQ correlation z) eps), s').
Proof.
  clear pds_aligned lgds_aligned. unfold trial_assets.
  unfold Random.bind at 1. unfold Random.normal at 1.
  change (Fin 1 <? Fin 0)%fp with false. cbv iota.
  destruct (gauss s) as [g s1].
  destruct (normal_size_finite gauss 0 1 (Z.of_nat (length exposures)) s1)
    as (eps & s' & E & L); [lra|lia|].
  rewrite (bind_returned _ _ _ _ _ E). unfold Random.ret.
  exists (0 + 1 * g), eps, s'. split.
  - now rewrite L, Nat2Z.id.
  - rewrite map_map. reflexivity.
Qed.

(** The default indicators compare each asset value with the quantile of
    the counterparty's default probability. *)
Lemma trial_defaults_run (s : rng) :
  exists (z : Q) (eps : list Q) (s' : rng),
    length eps = length exposures
    /\ trial_defaults sqrtQ norm_ppf gauss (length exposures) pds
         correlation s
       = (Returned
            (Np.zip_with flt (map (asset_value sqrtQ correlation z) eps)
               (map norm_ppf pds)), s').
Proof.
  clear lgds_aligned. unfold trial_defaults.
  destruct (trial_assets_run s) as (z & eps & s' & L & E).
  rewrite (bind_returned _ _ _ _ _ E). unfold Random.lift.
  rewrite broadcast_aligned by (rewrite !length_map; congruence).
  now exists z, eps, s'.
Qed.

(** The loss of a trial is a finite number, the sum of exposure times loss
    given default over the defaulting counterparties. *)
Lemma trial_loss_run (s : rng) :
  exists (ds : list bool) (s' : rng),
    length ds = length exposures
    /\ trial_defaults sqrtQ norm_ppf gauss (length exposures) pds
         correlation s = (Returned ds, s')
    /\ trial_loss sqrtQ norm_ppf gauss exposures pds lgds correlation s
       = (Returned (Fin (loss_of ds exposures lgds)), s').
Proof.
  unfold trial_loss.
  destruct (trial_defaults_run s) as (z & eps & s' & L & E).
  rewrite (bind_returned _ _ _ _ _ E). unfold Random.lift.
  set (ds := Np.zip_with flt _ _) in *.
  assert (Ld : length ds = length exposures).
  { unfold ds. rewrite zip_with_length; rewrite !length_map; congruence. }
  rewrite map_of_bool.
  rewrite broadcast_aligned by (rewrite !length_map; congruence).
  simpl obind. rewrite zip_with_fmul_Fin.
  rewrite broadcast_aligned
    by (rewrite !length_map, zip_with_length;
        rewrite ?length_map; congruence).
  simpl obind. rewrite zip_with_fmul_Fin, sum_map_Fin.
  exists ds, s'. repeat split; assumption.
Qed.

(** [k] trials give [k] finite losses, each with any property [P] that the
    loss of a single trial has from every generator state. *)
Lemma trials_run_with (P : Q -> Prop) :
  (forall s, exists l s',
      P l /\ trial_loss sqrtQ norm_ppf gauss exposures pds lgds correlation s
             = (Returned (Fin l), s')) ->
  forall (k : nat) (s : rng),
  exists (ls : list Q) (s' : rng),
    length ls = k /\ Forall P ls
    /\ trials sqrtQ norm_ppf gauss exposures pds lgds correlation k s
       = (Returned (map Fin ls), s').
Proof.
  intros Hone k. induction k as [|k IH]; intro s; simpl.
  - exists [], s. repeat split. constructor.
  - destruct (Hone s) as (l & s1 & Hl & E).
    rewrite (bind_returned _ _ _ _ _ E).
    destruct (IH s1) as (ls & s' & L & F & E').
    rewrite (bind_returned _ _ _ _ _ E'). unfold Random.ret.
    exists (l :: ls), s'. split; [simpl; congruence|].
    split; [now constructor|reflexivity].
Qed.

Lemma trials_run (k : nat) (s : rng) :
  exists (ls : list Q) (s' : rng),
    length ls = k
    /\ trials sqrtQ norm_ppf gauss exposures pds lgds correlation k s
       = (Returned (map Fin ls), s').
Proof.
  destruct (trials_run_with (fun _ => True)) with (k := k) (s := s)
    as (ls & s' & L & _ & E).
  - intro s0. destruct (trial_loss_run s0) as (ds & s1 & _ & _ & E).
    eexists _, s1. split; [exact I|exact E].
  - now exists ls, s'.
Qed.
End SimulatorRuns.

(** ** C3: ordering of the credit VaR outputs *)

Lemma fold_max_Fin (t : list Q) (x : Q) :
  exists m,
    fold_left Np.fmax2 (map Fin t) (Fin x) = Fin m
    /\ x <= m /\ Forall (fun y => y <= m) t.
Proof.
  revert x. induction t as [|y t IH]; intro x; simpl.
  - exists x. repeat split; [apply Qle_refl|constructor].
  - unfold Np.fmax2 at 2. simpl is_nan. cbv iota.
    destruct (Fin x <? Fin y)%fp eqn:E.
    + apply flt_Fin_true in E.
      destruct (IH y) as (m & Em & Hy & Ht).
      exists m. repeat split; [exact Em|lra|now constructor].
    + apply flt_Fin_false in E.
      destruct (IH x) as (m & Em & Hx & Ht).
      exists m. repeat split; [exact Em|exact Hx|constructor; [lra|exact Ht]].
Qed.

(** The maximum of a non-empty finite array is finite and bounds every
    entry. *)
Lemma max_map_Fin (ls : list Q) :
  ls <> [] ->
  exists m, Np.max (map Fin ls) = Returned (Fin m)
            /\ Forall (fun y => y <= m) ls.
Proof.
  destruct ls as [|x t]; [congruence|intros _]. simpl.
  destruct (fold_max_Fin t x) as (m & E & Hx & Ht).
  exists m. rewrite E. split; [reflexivity|now constructor].
Qed.

Lemma Forall_upper_bounded (hi : Q) (xs : list Q) :
  Forall (fun x => x <= hi) xs ->
  exists lo, Forall (fun x => lo <= x /\ x <= hi) xs.
Proof.
  intro H. destruct (Forall_bounded xs) as (lo & hi' & B). exists lo.
  rewrite Forall_forall in *. intros x Hx. split; [|now apply H].
  now apply B.
Qed.

(** C3 (counterexample): one counterparty with exposure 100, default
    probability 1/2, full loss given default and no correlation, two trials.
    The first trial defaults and the second does not, so the losses are
    [100, 0]: their mean is 50 while their 25th percentile is 25.  The value
    at risk at confidence 1/4 is below the expected loss. *)
Lemma credit_var_below_expected_loss :
  exists el v w,
    fst (credit_var Reference.sqrt_ref Reference.ppf_ref
           Reference.seed_ref Reference.gauss_ref
           [100] [1 # 2] [1] 0 2 (1 # 4) (Reference.seed_ref 0))
    = Returned {| expected_loss := Fin el;
                  value_at_risk := Fin v;
                  worst_case := Fin w |}
    /\ el == 50 /\ v == 25 /\ w == 100 /\ ~ (el <= v).
Proof.
  eexists _, _, _. split; [vm_compute; reflexivity|].
  repeat split; try reflexivity. vm_compute. congruence.
Qed.

(** The maximum stays within any bounds the entries satisfy. *)
Lemma max_within (lo hi : Q) (ls : list Q) :
  ls <> [] -> Forall (fun x => lo <= x /\ x <= hi) ls ->
  exists m, Np.max (map Fin ls) = Returned (Fin m) /\ lo <= m /\ m <= hi.
Proof.
  intros Hne B. destruct ls as [|x t]; [congruence|]. simpl.
  inversion B as [|? ? Hx Ht]; subst. clear B Hne.
  revert x Hx. induction Ht as [|y t Hy _ IH]; intros x Hx; simpl.
  - now exists x.
  - unfold Np.fmax2 at 2. simpl is_nan. cbv iota.
    destruct (Fin x <? Fin y)%fp; now apply IH.
Qed.

(** On aligned arrays, with at least one trial and a confidence in [0, 1],
    [credit_var] returns three finite numbers that lie within any bounds
    satisfied by the loss of every single trial. *)
Lemma credit_var_within (sqrtQ : Q -> Q) (norm_ppf : Q -> fp) {rng}
    (seed : Z -> rng) (gauss : rng -> Q * rng)
    (exposures pds lgds : list Q) (correlation : Q) (n_sims : Z)
    (confidence : Q) (s : rng) (lo hi : Q) :
  length pds = length exposures -> length lgds = length exposures ->
  (0 < n_sims)%Z -> 0 <= confidence -> confidence <= 1 ->
  (forall s0, exists l s1,
      (lo <= l /\ l <= hi)
      /\ trial_loss sqrtQ norm_ppf gauss exposures pds lgds correlation s0
         = (Returned (Fin l), s1)) ->
  exists el v w,
    fst (credit_var sqrtQ norm_ppf seed gauss exposures pds lgds
           correlation n_sims confidence s)
    = Returned {| expected_loss := Fin el;
                  value_at_risk := Fin v;
                  worst_case := Fin w |}
    /\ (lo <= el /\ el <= hi) /\ (lo <= v /\ v <= hi)
    /\ (lo <= w /\ w <= hi).
Proof.
  intros Hp Hl Hn Hc0 Hc1 Hone. unfold credit_var.
  unfold Random.bind at 1. unfold Random.np_seed.
  destruct (trials_run_with sqrtQ norm_ppf rng gauss exposures pds lgds
              correlation (fun l => lo <= l /\ l <= hi) Hone
              (Z.to_nat n_sims) (seed 42%Z))
    as (ls & s' & L & B & E).
  rewrite (bind_returned _ _ _ _ _ E). unfold Random.lift. simpl fst.
  assert (Hne : ls <> []) by (intros ->; simpl in L; lia).
  destruct (max_within lo hi ls Hne B) as (w & Ew & Hw).
  destruct (percentile_within (map Fin ls) (confidence * 100) lo hi)
    as (v & Ev & Hv); try lra.
  - destruct ls; [congruence|discriminate].
  - now apply within_map_Fin.
  - rewrite Ev, Ew, (mean_map_Fin ls Hne). simpl obind.
    eexists _, v, w. split; [reflexivity|].
    split; [|split; assumption].
    now apply Qmean_bounds.
Qed.

(** Same inputs: the worst case bounds the value at risk. *)
Lemma credit_var_ordered (sqrtQ : Q -> Q) (norm_ppf : Q -> fp) {rng}
    (seed : Z -> rng) (gauss : rng -> Q * rng)
    (exposures pds lgds : list Q) (correlation : Q) (n_sims : Z)
    (confidence : Q) (s : rng) :
  length pds = length exposures -> length lgds = length exposures ->
  (0 < n_sims)%Z -> 0 <= confidence -> confidence <= 1 ->
  exists el v w,
    fst (credit_var sqrtQ norm_ppf seed gauss exposures pds lgds
           correlation n_sims confidence s)
    = Returned {| expected_loss := Fin el;
                  value_at_risk := Fin v;
                  worst_case := Fin w |}
    /\ v <= w.
Proof.
  intros Hp Hl Hn Hc0 Hc1. unfold credit_var.
  unfold Random.bind at 1. unfold Random.np_seed.
  destruct (trials_run sqrtQ norm_ppf rng gauss exposures pds lgds
              correlation Hp Hl (Z.to_nat n_sims) (seed 42%Z))
    as (ls & s' & L & E).
  rewrite (bind_returned _ _ _ _ _ E). unfold Random.lift. simpl fst.
  assert (Hne : ls <> []) by (intros ->; simpl in L; lia).
  destruct (max_map_Fin ls Hne) as (m & Em & Hm).
  destruct (Forall_upper_bounded m ls Hm) as (lo & B).
  destruct (percentile_within (map Fin ls) (confidence * 100) lo m)
    as (v & Ev & _ & Hv); try lra.
  - destruct ls; [congruence|discriminate].
  - now apply within_map_Fin.
  - rewrite Ev, Em, (mean_map_Fin ls Hne). simpl obind.
    eexists _, v, m. split; [reflexivity|exact Hv].
Qed.

(** C3 (as amended): for aligned input arrays, at least one trial and a
    confidence in [0, 1], [credit_var] returns three finite numbers, and the
    worst case is at least the value at risk.  The expected loss is ordered
    against neither: the value at risk can lie below it (the counterexample
    above), and it is a rounded mean, which the statement leaves alone. *)
Theorem credit_var_worst_case_dominates (sqrtQ : Q -> Q)
    (norm_ppf : Q -> fp) {rng} (seed : Z -> rng) (gauss : rng -> Q * rng)
    (exposures pds lgds : list Q) (correlation : Q) (n_sims : Z)
    (confidence : Q) (s : rng) :
  length pds = length exposures -> length lgds = length exposures ->
  (0 < n_sims)%Z -> 0 <= confidence -> confidence <= 1 ->
  exists el v w,
    fst (credit_var sqrtQ norm_ppf seed gauss exposures pds lgds
           correlation n_sims confidence s)
    = Returned {| expected_loss := Fin el;
                  value_at_risk := Fin v;
                  worst_case := Fin w |}
    /\ v <= w.
Proof.
  intros Hp Hl Hn Hc0 Hc1. now apply credit_var_ordered.
Qed.

(** The theorem on the inputs of the counterexample. *)
Lemma credit_var_worst_case_dominates_witness :
  exists el v w,
    fst (credit_var Reference.sqrt_ref Reference.ppf_ref
           Reference.seed_ref Reference.gauss_ref
           [100] [1 # 2] [1] 0 2 (1 # 4) (Reference.seed_ref 0))
    = Returned {| expected_loss := Fin el;
                  value_at_risk := Fin v;
                  worst_case := Fin w |}
    /\ v <= w.
Proof.
  apply credit_var_worst_case_dominates.
  - reflexivity.
  - reflexivity.
  - lia.
  - vm_compute. discriminate.
  - vm_compute. discriminate.
Defined.

(** ** C4: degenerate inputs of the VaR estimators *)







(** ** C5: parameters of [credit_var] that are out of range *)

(** Outside [0, 1] one of the two square roots is NaN, and so is every
    asset value. *)
Lemma asset_value_invalid_correlation (sqrtQ : Q -> Q) (correlation z e : Q) :
  correlation < 0 \/ 1 < correlation ->
  asset_value sqrtQ correlation z e = NaN.
Proof.
  intros [H|H]; unfold asset_value.
  - rewrite (fsqrt_Fin_neg sqrtQ correlation H). reflexivity.
  - rewrite (fsqrt_Fin_neg sqrtQ (1 - correlation)) by lra.
    rewrite (fsqrt_Fin_nonneg sqrtQ correlation) by lra. reflexivity.
Qed.


Lemma zip_with_flt_nan (xs ys : list fp) :
  Forall (fun x => x = NaN) xs ->
  Forall (fun b => b = false) (Np.zip_with flt xs ys).
Proof.
  intro H. revert ys. induction H as [|x t -> _ IH]; intros [|y u]; simpl;
    constructor; [reflexivity|apply IH].
Qed.

(** Without a default the loss of a trial is zero. *)
Lemma loss_of_no_default (ds : list bool) (exposures lgds : list Q) :
  Forall (fun b => b = false) ds ->
  0 <= loss_of ds exposures lgds /\ loss_of ds exposures lgds <= 0.
Proof.
  intro H. unfold loss_of.
  assert (F : Forall (fun x => 0 <= x /\ x <= 0)
                (Np.zip_with Qmult
                   (Np.zip_with Qmult (map Qof_bool ds) exposures) lgds)).
  { revert exposures lgds.
    induction H as [|b t -> _ IH]; intros [|e es] [|l ls]; simpl;
      try constructor; try apply IH.
    unfold Qof_bool. lra. }
  destruct (Qsum_bounds 0 0 _ F). lra.
Qed.

(** C5 (counterexample): with correlation -1, and with correlation 1, both
    outside [0, 1), [credit_var] raises nothing and returns a record; for
    correlation -1 the record is all zero. *)
Lemma credit_var_accepts_bad_correlation :
  (exists el v w,
     fst (credit_var Reference.sqrt_ref Reference.ppf_ref
            Reference.seed_ref Reference.gauss_ref
            [100] [1 # 2] [1] (- (1)) 2 (99 # 100) (Reference.seed_ref 0))
     = Returned {| expected_loss := Fin el;
                   value_at_risk := Fin v;
                   worst_case := Fin w |}
     /\ el == 0 /\ v == 0 /\ w == 0)
  /\ (exists r,
        fst (credit_var Reference.sqrt_ref Reference.ppf_ref
               Reference.seed_ref Reference.gauss_ref
               [100] [1 # 2] [1] 1 2 (99 # 100) (Reference.seed_ref 0))
        = Returned r).
Proof.
  split.
  - eexists _, _, _. split; [vm_compute; reflexivity|].
    repeat split; reflexivity.
  - eexists. vm_compute. reflexivity.
Qed.

(** C5 (as amended): the correlation is not validated.  For a correlation
    below 0 or above 1 (aligned arrays, at least one trial, confidence in
    [0, 1]) no counterparty ever defaults and [credit_var] returns the
    all-zero record instead of raising.  With no trial to run
    ([n_sims <= 0]) the call fails with an exception raised while the empty
    loss sample is aggregated. *)
Theorem credit_var_unvalidated_parameters (sqrtQ : Q -> Q)
    (norm_ppf : Q -> fp) {rng} (seed : Z -> rng) (gauss : rng -> Q * rng)
    (exposures pds lgds : list Q) (correlation : Q) (n_sims : Z)
    (confidence : Q) (s : rng) :
  (correlation < 0 \/ 1 < correlation ->
   length pds = length exposures -> length lgds = length exposures ->
   (0 < n_sims)%Z -> 0 <= confidence -> confidence <= 1 ->
   exists el v w,
     fst (credit_var sqrtQ norm_ppf seed gauss exposures pds lgds
            correlation n_sims confidence s)
     = Returned {| expected_loss := Fin el;
                   value_at_risk := Fin v;
                   worst_case := Fin w |}
     /\ el == 0 /\ v == 0 /\ w == 0)
  /\ ((n_sims <= 0)%Z ->
      exists e,
        fst (credit_var sqrtQ norm_ppf seed gauss exposures pds lgds
               correlation n_sims confidence s) = Raised e).
Proof.
  split.
  - intros Hrho Hp Hl Hn Hc0 Hc1.
    destruct (credit_var_within sqrtQ norm_ppf seed gauss exposures pds lgds
                correlation n_sims confidence s 0 0)
      as (el & v & w & E & Hel & Hv & Hw); try assumption.
    + intro s0.
      destruct (trial_loss_run sqrtQ norm_ppf rng gauss exposures pds lgds
                  correlation Hp Hl s0) as (ds & s1 & Ld & Ed & El).
      destruct (trial_defaults_run sqrtQ norm_ppf rng gauss exposures pds
                  correlation Hp s0) as (z & eps & s2 & Le & Ed').
      rewrite Ed in Ed'. injection Ed' as -> _.
      exists (loss_of
                (Np.zip_with flt (map (asset_value sqrtQ correlation z) eps)
                   (map norm_ppf pds)) exposures lgds), s1.
      split; [|exact El].
      apply loss_of_no_default, zip_with_flt_nan.
      rewrite Forall_map, Forall_forall. intros e _.
      now apply asset_value_invalid_correlation.
    + exists el, v, w. split; [exact E|]. repeat split; lra.
  - intro Hn. unfold credit_var.
    unfold Random.bind at 1. unfold Random.np_seed.
    replace (Z.to_nat n_sims) with O by lia. simpl trials.
    unfold Random.bind, Random.ret, Random.lift. simpl fst.
    unfold Np.percentile.
    destruct (negb _); eexists; reflexivity.
Qed.

(** The theorem with correlation -1 and two trials, and with no trial. *)
Lemma credit_var_unvalidated_parameters_witness :
  (exists el v w,
     fst (credit_var Reference.sqrt_ref Reference.ppf_ref
            Reference.seed_ref Reference.gauss_ref
            [100] [1 # 2] [1] (- (1)) 2 (99 # 100) (Reference.seed_ref 0))
     = Returned {| expected_loss := Fin el;
                   value_at_risk := Fin v;
                   worst_case := Fin w |}
     /\ el == 0 /\ v == 0 /\ w == 0)
  /\ (exists e,
        fst (credit_var Reference.sqrt_ref Reference.ppf_ref
               Reference.seed_ref Reference.gauss_ref
               [100] [1 # 2] [1] (1 # 5) 0 (99 # 100) (Reference.seed_ref 0))
        = Raised e).
Proof.
  split.
  - apply (proj1 (credit_var_unvalidated_parameters
                    Reference.sqrt_ref Reference.ppf_ref
                    Reference.seed_ref Reference.gauss_ref
                    [100] [1 # 2] [1] (- (1)) 2 (99 # 100)
                    (Reference.seed_ref 0))).
    + left. reflexivity.
    + reflexivity.
    + reflexivity.
    + lia.
    + vm_compute. discriminate.
    + vm_compute. discriminate.
  - apply (proj2 (credit_var_unvalidated_parameters
                    Reference.sqrt_ref Reference.ppf_ref
                    Reference.seed_ref Reference.gauss_ref
                    [100] [1 # 2] [1] (1 # 5) 0 (99 # 100)
                    (Reference.seed_ref 0))).
    lia.
Defined.

(** ** C6: default probabilities 0 and 1 *)












(** ** C7: expected shortfall *)


Lemma tail_filter (v : Q) (returns : list Q) :
  filter (fun r => (Fin r <? - Fin v)%fp) returns = tail_beyond v returns.
Proof.
  unfold tail_beyond. apply filter_ext. intro r.
  destruct (Qle_bool (- v) r) eqn:E; simpl negb.
  - apply flt_Fin_false. now apply Qle_bool_iff.
  - apply flt_Fin_true. apply Qnot_le_lt. intro H.
    apply Qle_bool_iff in H. congruence.
Qed.

Lemma tail_beyond_spec (v : Q) (returns : list Q) :
  Forall (fun r => r < - v) (tail_beyond v returns).
Proof.
  rewrite Forall_forall. intros r Hr. unfold tail_beyond in Hr.
  apply filter_In in Hr. destruct Hr as [_ Hr].
  apply negb_true_iff in Hr. apply Qnot_le_lt. intro H.
  apply Qle_bool_iff in H. congruence.
Qed.







(** ** C10: expected shortfall against VaR, with rounding *)

Lemma kept_range : 0 < kept_by_rounding /\ kept_by_rounding <= 1.
Proof. split; [reflexivity|vm_compute; discriminate]. Qed.

Lemma kept_pow_succ (d : nat) :
  kept_by_rounding ^ Z.of_nat (S d)
  == kept_by_rounding ^ Z.of_nat d * kept_by_rounding.
Proof.
  rewrite Nat2Z.inj_succ, <- Z.add_1_r, Qpower_plus.
  - now rewrite Qpower_1_r.
  - destruct kept_range. lra.
Qed.

Lemma kept_pow_range (d : nat) :
  0 < kept_by_rounding ^ Z.of_nat d /\ kept_by_rounding ^ Z.of_nat d <= 1.
Proof.
  destruct kept_range as [K0 K1].
  induction d as [|d [I0 I1]].
  - simpl. lra.
  - rewrite kept_pow_succ. revert I0 I1 K0 K1.
    generalize (kept_by_rounding ^ Z.of_nat d).
    generalize kept_by_rounding. intros. nra.
Qed.

Lemma kept_pow_le (d d' : nat) :
  (d <= d')%nat ->
  kept_by_rounding ^ Z.of_nat d' <= kept_by_rounding ^ Z.of_nat d.
Proof.
  destruct kept_range as [K0 K1].
  induction 1 as [|d' _ IH]; [apply Qle_refl|].
  rewrite kept_pow_succ.
  destruct (kept_pow_range d') as [P0 P1]. revert IH P0 P1 K0 K1.
  generalize (kept_by_rounding ^ Z.of_nat d').
  generalize (kept_by_rounding ^ Z.of_nat d).
  generalize kept_by_rounding. intros. nra.
Qed.

Section PartialSums.
Variable v : Q.
Hypothesis v_nonneg : 0 <= v.

Let Qn (c : nat) : Q := inject_Z (Z.of_nat c).

Lemma Qn_nonneg (c : nat) : 0 <= Qn c.
Proof. apply inject_Z_nonneg. lia. Qed.

Lemma Qn_plus (a b : nat) : Qn (a + b) == Qn a + Qn b.
Proof. unfold Qn. now rewrite Nat2Z.inj_add, inject_Z_plus. Qed.

Lemma below_weaken (c d d' : nat) (s : fp) :
  (d <= d')%nat ->
  partial_sum_below v c d s -> partial_sum_below v c d' s.
Proof.
  intros Hd. destruct s as [q| | |]; simpl; try tauto.
  intros [G H]. split; [exact G|].
  pose proof (kept_pow_le d d' Hd) as K. pose proof (Qn_nonneg c) as C.
  fold (Qn c) in *.
  assert (CV : 0 <= Qn c * v) by nra.
  revert H K CV.
  generalize (Qn c * v).
  generalize (kept_by_rounding ^ Z.of_nat d').
  generalize (kept_by_rounding ^ Z.of_nat d). intros. nra.
Qed.

(** One rounded addition of two partial sums. *)
Lemma below_add (c1 c2 d : nat) (s1 s2 : fp) :
  partial_sum_below v c1 d s1 -> partial_sum_below v c2 d s2 ->
  partial_sum_below v (c1 + c2) (S d) (add64 s1 s2).
Proof.
  destruct s1 as [q1| | |], s2 as [q2| | |]; simpl; try tauto.
  intros [G1 H1] [G2 H2]. fold (Qn c1) in *. fold (Qn c2) in *.
  fold (Qn (c1 + c2)). unfold add64. cbn [fadd rnd].
  destruct (kept_pow_range d) as [P0 P1].
  pose proof (Qn_nonneg c1) as C1. pose proof (Qn_nonneg c2) as C2.
  assert (Hq : q1 + q2 <= - (Qn (c1 + c2) * v * kept_by_rounding ^ Z.of_nat d)).
  { rewrite Qn_plus. lra. }
  pose proof (Qn_nonneg (c1 + c2)) as C.
  assert (CV : 0 <= Qn (c1 + c2) * v) by nra.
  assert (Hneg : q1 + q2 <= 0).
  { apply Qle_trans with (1 := Hq). revert P0 CV.
    generalize (Qn (c1 + c2) * v).
    generalize (kept_by_rounding ^ Z.of_nat d). intros. nra. }
  destruct (round64_nonpos _ Hneg) as [->|(r & E & Hr)]; [exact I|].
  rewrite E. split; [now apply round64_grid with (q1 + q2)|].
  apply round64_error in E; [|left; now apply on_grid_plus].
  rewrite (Qabs_neg (q1 + q2)) in E by exact Hneg.
  assert (B : r <= (q1 + q2) * kept_by_rounding).
  { unfold kept_by_rounding. revert E. apply Qabs_case; intros; lra. }
  rewrite kept_pow_succ.
  destruct kept_range as [K0 K1]. fold (Qn (c1 + c2)). revert Hq B P0 CV K0.
  generalize (Qn (c1 + c2) * v). intro cv.
  generalize (kept_by_rounding ^ Z.of_nat d). intro p.
  generalize kept_by_rounding. intro k.
  generalize (q1 + q2). intros s Hq B P0 CV K0.
  apply Qle_trans with (1 := B).
  setoid_replace (- (cv * (p * k))) with (- (cv * p) * k) by ring.
  apply Qmult_le_compat_r; lra.
Qed.

(** The partial sums of [c] returns: at most [c] roundings in a row. *)
Let inv (c : nat) (s : fp) : Prop := partial_sum_below v c c s.

Let elem (s : fp) : Prop := partial_sum_below v 1 0 s.

Lemma inv_zero : inv 0 (Fin 0).
Proof.
  split; [apply on_grid_zero|].
  change (inject_Z (Z.of_nat 0)) with 0.
  change (kept_by_rounding ^ Z.of_nat 0) with 1. lra.
Qed.

Lemma inv_add_elem (c : nat) (s x : fp) :
  inv c s -> elem x -> inv (S c) (add64 s x).
Proof.
  intros Hs Hx. unfold inv. rewrite <- (Nat.add_1_r c) at 1.
  apply below_add; [exact Hs|].
  apply below_weaken with 0%nat; [lia|exact Hx].
Qed.

Lemma inv_add (c1 c2 : nat) (s1 s2 : fp) :
  (1 <= c1)%nat -> (1 <= c2)%nat ->
  inv c1 s1 -> inv c2 s2 -> inv (c1 + c2) (add64 s1 s2).
Proof.
  intros L1 L2 H1 H2. unfold inv.
  apply below_weaken with (S (Nat.max c1 c2)); [lia|].
  apply below_add.
  - apply below_weaken with c1; [lia|exact H1].
  - apply below_weaken with c2; [lia|exact H2].
Qed.

Lemma accumulate_inv (a : list fp) (c : nat) (acc : fp) :
  inv c acc -> Forall elem a -> inv (c + length a) (accumulate acc a).
Proof.
  intros Hacc Ha. revert c acc Hacc.
  induction Ha as [|x t Hx _ IH]; intros c acc Hacc; simpl.
  - now rewrite Nat.add_0_r.
  - rewrite <- Nat.add_succ_comm. apply IH. now apply inv_add_elem.
Qed.

Lemma zip_with_Forall {A B C} (P : A -> Prop) (R : B -> Prop) (T : C -> Prop)
    (f : A -> B -> C) (xs : list A) (ys : list B) :
  (forall x y, P x -> R y -> T (f x y)) ->
  Forall P xs -> Forall R ys -> Forall T (Np.zip_with f xs ys).
Proof.
  intros Hf Hx. revert ys.
  induction Hx as [|x t Hx _ IH]; intros ys Hy; simpl; [constructor|].
  destruct Hy as [|y u Hy Hu]; constructor; [now apply Hf|now apply IH].
Qed.

Lemma Forall_on_firstn {A} (P : A -> Prop) (k : nat) (l : list A) :
  Forall P l -> Forall P (firstn k l).
Proof.
  intro H. rewrite <- (firstn_skipn k l) in H.
  now apply Forall_app in H.
Qed.

Lemma Forall_on_skipn {A} (P : A -> Prop) (k : nat) (l : list A) :
  Forall P l -> Forall P (skipn k l).
Proof.
  intro H. rewrite <- (firstn_skipn k l) in H.
  now apply Forall_app in H.
Qed.

(** The eight accumulators after [b] more blocks. *)
Lemma lanes_inv (b : nat) (r a : list fp) (c : nat) :
  length r = 8%nat -> Forall (inv c) r -> Forall elem a ->
  (8 * b <= length a)%nat ->
  length (fst (lanes r b a)) = 8%nat
  /\ Forall (inv (c + b)) (fst (lanes r b a))
  /\ Forall elem (snd (lanes r b a))
  /\ length (snd (lanes r b a)) = (length a - 8 * b)%nat.
Proof.
  revert r a c.
  induction b as [|b IH]; intros r a c Lr Hr Ha Hlen; cbn [lanes].
  - cbn [fst snd]. rewrite Nat.add_0_r, Nat.mul_0_r, Nat.sub_0_r. auto.
  - destruct (IH (Np.zip_with add64 r (firstn 8 a)) (skipn 8 a) (S c))
      as (I1 & I2 & I3 & I4).
    + rewrite zip_with_length; [exact Lr|].
      rewrite Lr, length_firstn. lia.
    + apply (zip_with_Forall (inv c) elem).
      * intros x y Hx Hy. now apply inv_add_elem.
      * exact Hr.
      * now apply Forall_on_firstn.
    + now apply Forall_on_skipn.
    + rewrite length_skipn. lia.
    + rewrite length_skipn in I4.
      replace (c + S b)%nat with (S c + b)%nat by lia.
      repeat split; try assumption. lia.
Qed.

Lemma combine8_inv (r : list fp) (c : nat) :
  (1 <= c)%nat -> length r = 8%nat -> Forall (inv c) r ->
  inv (8 * c) (combine8 r).
Proof.
  intros Hc Lr Hr.
  destruct r as [|r0 [|r1 [|r2 [|r3 [|r4 [|r5 [|r6 [|r7 [|]]]]]]]]];
    try discriminate.
  repeat match goal with
         | H : Forall _ (_ :: _) |- _ => inversion H; subst; clear H
         end.
  unfold combine8.
  replace (8 * c)%nat with (((c + c) + (c + c)) + ((c + c) + (c + c)))%nat
    by lia.
  repeat (apply inv_add; try lia); assumption.
Qed.

Lemma unrolled_sum_inv (a : list fp) :
  (8 <= length a)%nat -> Forall elem a ->
  inv (length a) (unrolled_sum a).
Proof.
  intros Hn Ha. unfold unrolled_sum.
  pose proof (Nat.div_mod_eq (length a) 8) as D.
  pose proof (Nat.mod_upper_bound (length a) 8 ltac:(lia)) as M.
  assert (Hb : (1 <= length a / 8)%nat).
  { destruct (length a / 8)%nat; lia. }
  destruct (lanes_inv (length a / 8 - 1) (firstn 8 a) (skipn 8 a) 1)
    as (I1 & I2 & I3 & I4).
  - rewrite length_firstn. lia.
  - apply Forall_impl with (P := elem).
    + intros x Hx. apply below_weaken with 0%nat; [lia|exact Hx].
    + now apply Forall_on_firstn.
  - now apply Forall_on_skipn.
  - rewrite length_skipn. lia.
  - destruct (lanes (firstn 8 a) (length a / 8 - 1) (skipn 8 a))
      as [r rest]. cbn [fst snd] in I1, I2, I3, I4.
    rewrite length_skipn in I4.
    replace (length a)
      with (8 * (1 + (length a / 8 - 1)) + length rest)%nat at 1 by lia.
    apply accumulate_inv; [|exact I3].
    apply combine8_inv; [lia|exact I1|exact I2].
Qed.

Lemma pairwise_sum_inv (fuel : nat) (a : list fp) :
  Forall elem a -> inv (length a) (pairwise_sum fuel a).
Proof.
  revert a. induction fuel as [|f IH]; intros a Ha; simpl.
  - destruct (Nat.ltb_spec (length a) 8).
    + apply (accumulate_inv a 0 (Fin 0) inv_zero Ha).
    + now apply unrolled_sum_inv.
  - destruct (Nat.ltb_spec (length a) 8).
    + apply (accumulate_inv a 0 (Fin 0) inv_zero Ha).
    + destruct (Nat.ltb_spec 128 (length a)) as [L|L];
        [|now apply unrolled_sum_inv].
      set (n := length a) in *. set (n2 := (n / 2 - (n / 2) mod 8)%nat).
      pose proof (Nat.div_mod_eq n 2) as D.
      pose proof (Nat.mod_upper_bound n 2 ltac:(lia)) as M.
      pose proof (Nat.mod_upper_bound (n / 2) 8 ltac:(lia)) as M8.
      assert (H1 : (1 <= n2)%nat) by (unfold n2; lia).
      assert (H2 : (n2 < n)%nat) by (unfold n2; lia).
      replace n with (length (firstn n2 a) + length (skipn n2 a))%nat at 1
        by (rewrite length_firstn, length_skipn; fold n; lia).
      apply inv_add.
      * rewrite length_firstn. fold n. lia.
      * rewrite length_skipn. fold n. lia.
      * apply IH. now apply Forall_on_firstn.
      * apply IH. now apply Forall_on_skipn.
Qed.

(** The magnitude of the rounded mean. *)
Lemma mean_floor (a : list fp) :
  a <> [] -> Forall elem a ->
  (Fin (shortfall_floor v (length a)) <=? fabs (Binary64.mean a))%fp = true.
Proof.
  intros Hne Ha. unfold Binary64.mean, Binary64.sum.
  pose proof (pairwise_sum_inv (length a) a Ha) as I.
  set (n := length a) in *.
  assert (Hn : 0 < Qn n).
  { apply inject_Z_pos. destruct a; [congruence|unfold n; simpl; lia]. }
  unfold div64, of_Z. change (inject_Z (Z.of_nat n)) with (Qn n).
  destruct (pairwise_sum n a) as [q| | |]; simpl in I; try tauto.
  - destruct I as [_ I]. fold (Qn n) in I. unfold fdiv.
    destruct (Qeq_bool (Qn n) 0) eqn:E.
    { apply Qeq_bool_eq in E. lra. }
    cbn [rnd].
    destruct (kept_pow_range n) as [P0 P1].
    assert (Hx : q / Qn n <= - (v * kept_by_rounding ^ Z.of_nat n)).
    { apply Qle_shift_div_r; [exact Hn|]. lra. }
    assert (Hx0 : q / Qn n <= 0).
    { apply Qle_trans with (1 := Hx). revert P0.
      generalize (kept_by_rounding ^ Z.of_nat n). intros. nra. }
    destruct (round64_nonpos _ Hx0) as [->|(m & Em & Hm)]; [reflexivity|].
    rewrite Em. cbn [fabs]. apply fle_Fin.
    apply round64_any_error in Em.
    rewrite (Qabs_neg (q / Qn n)) in Em by exact Hx0.
    rewrite (Qabs_neg m) by exact Hm.
    unfold shortfall_floor. rewrite kept_pow_succ.
    assert (B : m <= q / Qn n * kept_by_rounding + pow2 (-1075)).
    { unfold kept_by_rounding. revert Em. apply Qabs_case; intros; lra. }
    destruct kept_range as [K0 K1]. revert Hx B K0.
    generalize (kept_by_rounding ^ Z.of_nat n). intro p.
    generalize (q / Qn n). intro x.
    generalize kept_by_rounding. intro k.
    generalize (pow2 (-1075)). intros eta Hx B K0.
    assert (X : x * k <= - (v * p) * k) by (apply Qmult_le_compat_r; lra).
    lra.
  - unfold fdiv. cbn [fsign].
    destruct (Qeq_bool (Qn n) 0) eqn:E.
    { apply Qeq_bool_eq in E. lra. }
    apply Qgt_alt in Hn. rewrite Hn. reflexivity.
Qed.

End PartialSums.

(** A binary64 return beyond [- v] starts a partial sum. *)
Lemma tail_elements (v : Q) (returns : list Q) :
  Forall is_binary64 returns ->
  Forall (partial_sum_below v 1 0) (map Fin (tail_beyond v returns)).
Proof.
  intro B. rewrite Forall_map. apply Forall_forall. intros x Hx.
  pose proof (tail_beyond_spec v returns) as T.
  rewrite Forall_forall in T. specialize (T x Hx).
  unfold tail_beyond in Hx. apply filter_In in Hx. destruct Hx as [Hx _].
  rewrite Forall_forall in B. specialize (B x Hx).
  split; [now apply is_binary64_grid|].
  change (inject_Z (Z.of_nat 1)) with 1.
  change (kept_by_rounding ^ Z.of_nat 0) with 1. lra.
Qed.

(** The rounded mean of one binary64 number is that number. *)
Lemma mean_singleton (x : Q) :
  is_binary64 x -> exists r, Binary64.mean [Fin x] = Fin r /\ r == x.
Proof.
  intro B. destruct (is_binary64_round x B) as (r & E & Hr).
  exists r. split; [|exact Hr].
  unfold Binary64.mean, Binary64.sum. simpl.
  unfold add64. cbn [fadd rnd].
  rewrite (round64_comp (0 + x) x) by ring. rewrite E.
  unfold div64, of_Z, fdiv.
  change (Qeq_bool (inject_Z 1) 0) with false. cbv iota.
  cbn [rnd]. rewrite (round64_comp (r / inject_Z 1) x); [exact E|].
  rewrite Hr. change (inject_Z 1) with 1. field.
Qed.

(** A confidence in [0, 1] gives a quantile in [0, 1]. *)
Lemma round64_unit (x : Q) :
  0 <= x -> x <= 1 -> exists r, round64 x = Fin r /\ 0 <= r /\ r <= 1.
Proof.
  intros H0 H1. pose proof (round64_mono x 1 H1) as M.
  change (round64 1) with (Fin 1) in M.
  destruct (round64_nonneg x H0) as [P|(r & E & Hr)].
  - rewrite P in M. discriminate.
  - exists r. rewrite E in M. apply fle_Fin in M. auto.
Qed.

Lemma quantile_valid (confidence : Q) :
  0 <= confidence -> confidence <= 1 ->
  exists t,
    div64 (mul64 (sub64 (Fin 1) (Fin confidence)) (Fin 100)) (Fin 100)
    = Fin t /\ 0 <= t /\ t <= 1.
Proof.
  intros H0 H1. unfold sub64, mul64, div64. cbn [fsub fneg fadd rnd].
  destruct (round64_unit (1 + - confidence)) as (a & -> & A0 & A1);
    try lra.
  cbn [fmul rnd].
  pose proof (round64_mono (a * 100) 100 ltac:(lra)) as M.
  replace (round64 100) with (Fin 100) in M by (vm_compute; reflexivity).
  destruct (round64_nonneg (a * 100) ltac:(lra)) as [P|(b & E & B0)].
  { rewrite P in M. discriminate. }
  rewrite E in *. apply fle_Fin in M.
  unfold fdiv. replace (Qeq_bool 100 0) with false by reflexivity.
  cbn [rnd]. apply round64_unit.
  - apply Qle_shift_div_l; lra.
  - apply Qle_shift_div_r; lra.
Qed.

(** On a non-empty series and a confidence in [0, 1] the historical VaR
    is returned, and it is the magnitude of a percentile. *)
Lemma historical_var64_returns (sqrtQ : Q -> Q) (returns : list Q)
    (confidence holding_period : Q) :
  returns <> [] -> 0 <= confidence -> confidence <= 1 ->
  exists p,
    Binary64.historical_var sqrtQ returns confidence holding_period
    = Returned (fabs p).
Proof.
  intros Hne H0 H1. unfold Binary64.historical_var, Binary64.percentile.
  destruct (quantile_valid confidence H0 H1) as (t & -> & T0 & T1).
  assert (C : negb ((Fin 0 <=? Fin t)%fp && (Fin t <=? Fin 1)%fp) = false).
  { apply negb_false_iff, andb_true_iff. split; now apply fle_Fin. }
  rewrite C.
  destruct returns as [|x rest]; [congruence|]. cbn [map].
  destruct (existsb is_nan _); [now exists NaN|].
  destruct (mul64 _ (Fin t)); eexists; reflexivity.
Qed.

(** C10 (counterexample): a series of fifteen binary64 returns, seven at
    -0.831, one at -0.8309999999999998 and seven at 1, at confidence 1/2.
    The median is the eighth return, so the VaR is 0.8309999999999998; the
    seven returns beyond it are equal, and their rounded mean
    -0.8309999999999997 has a magnitude below the VaR. *)
Lemma expected_shortfall_below_var :
  let returns :=
    repeat (lit (- (831 # 1000))) 7
    ++ [lit (- (8309999999999998 # 10 ^ 16))] ++ repeat 1 7 in
  exists v e,
    Binary64.historical_var Reference.sqrt_ref returns (1 # 2) 1
    = Returned (Fin v)
    /\ Binary64.expected_shortfall Reference.sqrt_ref returns (1 # 2)
       = Returned (Fin e)
    /\ v == lit (8309999999999998 # 10 ^ 16)
    /\ e == lit (8309999999999997 # 10 ^ 16)
    /\ e < v
    /\ length (tail_beyond v returns) = 7%nat.
Proof.
  eexists _, _. split; [vm_compute; reflexivity|].
  split; [vm_compute; reflexivity|].
  repeat split.
Qed.

(** C10 (as amended): on a non-empty series of binary64 returns and a
    confidence in [0, 1], the historical VaR at holding period 1 and the
    expected shortfall are both returned.  When the VaR is a finite number
    [v]: with no return beyond [- v] the expected shortfall is [v]; with
    one it exceeds [v]; with [k] of them it is the magnitude of their
    rounded mean, which is at least [v (1 - 2^-53)^(k+1) - 2^-1075], and
    can be below [v]. *)
Theorem expected_shortfall_at_least_var (sqrtQ : Q -> Q) (returns : list Q)
    (confidence : Q) :
  returns <> [] -> 0 <= confidence -> confidence <= 1 ->
  Forall is_binary64 returns ->
  exists var e,
    Binary64.historical_var sqrtQ returns confidence 1 = Returned var
    /\ Binary64.expected_shortfall sqrtQ returns confidence = Returned e
    /\ forall v, var = Fin v ->
         0 <= v
         /\ (tail_beyond v returns = [] -> e = Fin v)
         /\ (length (tail_beyond v returns) = 1%nat ->
             exists q, e = Fin q /\ v < q)
         /\ (tail_beyond v returns <> [] ->
             (Fin (shortfall_floor v (length (tail_beyond v returns)))
              <=? e)%fp = true).
Proof.
  intros Hne Hc0 Hc1 B.
  destruct (historical_var64_returns sqrtQ returns confidence 1 Hne Hc0 Hc1)
    as (p & E).
  exists (fabs p).
  exists (let tail := filter (fun r => (Fin r <? - fabs p)%fp) returns in
          if (0 <? length tail)%nat
          then fabs (Binary64.mean (map Fin tail)) else fabs p).
  split; [exact E|]. split.
  { unfold Binary64.expected_shortfall. rewrite E. cbn [obind]. cbv zeta.
    now destruct (0 <? _)%nat. }
  intros v Hv.
  assert (V0 : 0 <= v).
  { destruct p as [a| | |]; try discriminate.
    injection Hv as <-. apply Qabs_nonneg. }
  rewrite Hv. cbv zeta. split; [exact V0|].
  rewrite tail_filter.
  pose proof (tail_elements v returns B) as T.
  pose proof (tail_beyond_spec v returns) as S.
  assert (Bt : Forall is_binary64 (tail_beyond v returns)).
  { apply Forall_forall. intros x Hx. rewrite Forall_forall in B. apply B.
    unfold tail_beyond in Hx. now apply filter_In in Hx. }
  destruct (tail_beyond v returns) as [|x t] eqn:Et.
  - split; [reflexivity|]. split; [discriminate|congruence].
  - replace (0 <? length (x :: t))%nat with true by reflexivity.
    split; [discriminate|]. split.
    + intro L. destruct t; [|discriminate].
      inversion Bt as [|? ? Bx _]; subst.
      inversion S as [|? ? Sx _]; subst.
      cbn [map]. destruct (mean_singleton x Bx) as (r & -> & Hr).
      exists (Qabs r). split; [reflexivity|].
      rewrite Hr, Qabs_neg by lra. lra.
    + intros _. rewrite <- (length_map Fin).
      apply mean_floor; [exact V0|discriminate|exact T].
Qed.

(** The theorem on the series of the counterexample: the VaR is finite,
    seven returns lie beyond it, and the expected shortfall keeps to the
    bound although it is below the VaR. *)
Lemma expected_shortfall_at_least_var_witness :
  let returns :=
    repeat (lit (- (831 # 1000))) 7
    ++ [lit (- (8309999999999998 # 10 ^ 16))] ++ repeat 1 7 in
  exists v e,
    Binary64.historical_var Reference.sqrt_ref returns (1 # 2) 1
    = Returned (Fin v)
    /\ Binary64.expected_shortfall Reference.sqrt_ref returns (1 # 2)
       = Returned e
    /\ (Fin (shortfall_floor v 7) <=? e)%fp = true.
Proof.
  intro returns.
  destruct (expected_shortfall_at_least_var Reference.sqrt_ref returns
              (1 # 2)) as (var & e & Ev & Ee & H).
  - discriminate.
  - vm_compute. discriminate.
  - vm_compute. discriminate.
  - repeat constructor; vm_compute; reflexivity.
  - assert (Ev' : exists v, var = Fin v
                            /\ length (tail_beyond v returns) = 7%nat).
    { vm_compute in Ev. injection Ev as <-. eexists. split; [reflexivity|].
      vm_compute. reflexivity. }
    destruct Ev' as (v & -> & L).
    destruct (H v eq_refl) as (_ & _ & _ & F).
    exists v, e. split; [exact Ev|]. split; [exact Ee|].
    rewrite <- L. apply F. intro C. rewrite C in L. discriminate.
Defined.

(** ** C8: rolling VaR *)

Lemma range_In (lo hi i : Z) : In i (Py.range lo hi) <-> (lo <= i < hi)%Z.
Proof.
  unfold Py.range. rewrite in_map_iff. split.
  - intros (k & <- & Hk). apply in_seq in Hk. lia.
  - intro H. exists (Z.to_nat (i - lo)). split; [lia|].
    apply in_seq. lia.
Qed.

Lemma range_NoDup (lo hi : Z) : NoDup (Py.range lo hi).
Proof.
  unfold Py.range. apply Finite.Injective_map_NoDup.
  - intros a b H. lia.
  - apply seq_NoDup.
Qed.

Lemma set_nth_length {A} (a : list A) (k : nat) (v : A) :
  length (Py.set_nth a k v) = length a.
Proof.
  revert k. induction a as [|x t IH]; intros [|k]; simpl; try reflexivity.
  now rewrite IH.
Qed.

Lemma set_nth_same {A} (a : list A) (k : nat) (v d : A) :
  (k < length a)%nat -> nth k (Py.set_nth a k v) d = v.
Proof.
  revert k. induction a as [|x t IH]; intros [|k] H; simpl in *;
    try lia; try reflexivity.
  apply IH. lia.
Qed.

Lemma set_nth_other {A} (a : list A) (k j : nat) (v d : A) :
  j <> k -> nth j (Py.set_nth a k v) d = nth j a d.
Proof.
  revert k j. induction a as [|x t IH]; intros [|k] [|j] H; simpl;
    try reflexivity; try congruence.
  apply IH. congruence.
Qed.

Lemma assign_all_length (g : Z -> fp) (idx : list Z) (a : list fp) :
  length (assign_all g idx a) = length a.
Proof.
  unfold assign_all. revert a. induction idx as [|i rest IH]; intro a; simpl.
  - reflexivity.
  - now rewrite IH, set_nth_length.
Qed.

Lemma assign_all_untouched (g : Z -> fp) (idx : list Z) (a : list fp)
    (k : nat) (d : fp) :
  (forall i, In i idx -> (0 <= i)%Z) -> ~ In (Z.of_nat k) idx ->
  nth k (assign_all g idx a) d = nth k a d.
Proof.
  unfold assign_all. revert a.
  induction idx as [|i rest IH]; intros a Hpos Hk; simpl.
  - reflexivity.
  - rewrite IH.
    + apply set_nth_other. intro E. apply Hk. left.
      assert (0 <= i)%Z by (apply Hpos; now left). lia.
    + intros j Hj. apply Hpos. now right.
    + intro H. apply Hk. now right.
Qed.

Lemma assign_all_assigned (g : Z -> fp) (idx : list Z) (a : list fp)
    (k : nat) (d : fp) :
  (forall i, In i idx -> (0 <= i)%Z) -> NoDup idx ->
  In (Z.of_nat k) idx -> (k < length a)%nat ->
  nth k (assign_all g idx a) d = g (Z.of_nat k).
Proof.
  revert a. induction idx as [|i rest IH]; intros a Hpos Hnd Hin Hk.
  - destruct Hin.
  - inversion Hnd as [|? ? Hni Hnd']; subst.
    assert (Hpos' : forall j, In j rest -> (0 <= j)%Z)
      by (intros j Hj; apply Hpos; now right).
    destruct Hin as [->|Hin].
    + change (assign_all g (Z.of_nat k :: rest) a)
        with (assign_all g rest
                (Py.set_nth a (Z.to_nat (Z.of_nat k)) (g (Z.of_nat k)))).
      rewrite assign_all_untouched by assumption.
      rewrite Nat2Z.id. now apply set_nth_same.
    + change (assign_all g (i :: rest) a)
        with (assign_all g rest (Py.set_nth a (Z.to_nat i) (g i))).
      apply IH; try assumption. now rewrite set_nth_length.
Qed.

(** A loop whose body computes [f i] and stores it at index [i] is a run
    of assignments, as long as every index is in range and [f] returns. *)
Lemma for_each_assigns (f : Z -> outcome fp) (g : Z -> fp) (idx : list Z)
    (a : list fp) :
  (forall i, In i idx ->
     (0 <= i < Z.of_nat (length a))%Z /\ f i = Returned (g i)) ->
  for_each (fun i vs => do v <- f i; Py.setitem vs i v) idx a
  = Returned (assign_all g idx a).
Proof.
  revert a. induction idx as [|i rest IH]; intros a H; simpl.
  - reflexivity.
  - destruct (H i (or_introl eq_refl)) as [Hi Ef]. rewrite Ef. simpl obind.
    assert (E1 : (i <? 0)%Z = false) by (apply Z.ltb_ge; lia).
    assert (E2 : (Z.of_nat (length a) <=? i)%Z = false)
      by (apply Z.leb_gt; lia).
    unfold Py.setitem. cbv zeta. rewrite !E1, E2. cbn [orb obind].
    apply IH. intros j Hj. rewrite set_nth_length. apply H. now right.
Qed.

Lemma clamp_in_range (n i : Z) : (0 <= i <= n)%Z -> Py.clamp n i = i.
Proof.
  intro H. unfold Py.clamp.
  assert (E1 : (i <? 0)%Z = false) by (apply Z.ltb_ge; lia).
  assert (E2 : (n <? i)%Z = false) by (apply Z.ltb_ge; lia).
  cbv zeta. now rewrite !E1, E2.
Qed.

(** A trailing window that fits inside the series. *)
Lemma slice_window {A} (a : list A) (w i : Z) :
  (0 < w)%Z -> (w <= i)%Z -> (i <= Z.of_nat (length a))%Z ->
  Py.slice a (i - w) i
  = firstn (Z.to_nat w) (skipn (Z.to_nat i - Z.to_nat w) a).
Proof.
  intros Hw Hi Hn. unfold Py.slice. cbv zeta.
  rewrite !clamp_in_range by lia.
  f_equal; [lia|]. f_equal. lia.
Qed.

Lemma window_length {A} (a : list A) (w k : nat) :
  (w <= k)%nat -> (k <= length a)%nat ->
  length (firstn w (skipn (k - w) a)) = w.
Proof.
  intros Hw Hk. rewrite length_firstn, length_skipn. lia.
Qed.

(** C8: for a window [W >= 1] and a confidence in [0, 1], [rolling_var]
    returns a series as long as the input; its positions before [W] are
    NaN; its entry at each index [i >= W] is the historical VaR (holding
    period 1) of the window made of the [W] observations at indices
    [i - W], ..., [i - 1], which stops before the observation at [i]. *)
Theorem rolling_var_trailing_windows (sqrtQ : Q -> Q) (returns : list Q)
    (window : Z) (confidence : Q) :
  (0 < window)%Z -> 0 <= confidence -> confidence <= 1 ->
  exists vs,
    rolling_var sqrtQ returns window confidence = Returned vs
    /\ length vs = length returns
    /\ (forall i, (i < Z.to_nat window)%nat -> (i < length returns)%nat ->
          nth i vs (Fin 0) = NaN)
    /\ (forall i, (Z.to_nat window <= i < length returns)%nat ->
          let chunk :=
            firstn (Z.to_nat window) (skipn (i - Z.to_nat window) returns) in
          length chunk = Z.to_nat window
          /\ (forall j, (j < Z.to_nat window)%nat ->
                nth j chunk 0 = nth (i - Z.to_nat window + j) returns 0)
          /\ historical_var sqrtQ chunk confidence 1
             = Returned (nth i vs NaN)).
Proof.
  intros Hw Hc0 Hc1. unfold rolling_var.
  set (n := length returns).
  set (f := fun i : Z =>
              historical_var sqrtQ (Py.slice returns (i - window) i)
                confidence 1).
  set (g := fun i : Z =>
              match f i with Returned v => v | Raised _ => NaN end).
  assert (Hf : forall i, (window <= i < Z.of_nat n)%Z ->
                 f i = historical_var sqrtQ
                         (firstn (Z.to_nat window)
                            (skipn (Z.to_nat i - Z.to_nat window) returns))
                         confidence 1
                 /\ f i = Returned (g i)).
  { intros i Hi. unfold g, f.
    rewrite slice_window by (fold n; lia).
    split; [reflexivity|].
    destruct (historical_var_value sqrtQ
                (firstn (Z.to_nat window)
                   (skipn (Z.to_nat i - Z.to_nat window) returns))
                confidence 1) as (p & _ & E); try assumption; try lra.
    - intro E0. apply (f_equal (@length Q)) in E0.
      rewrite window_length in E0 by (fold n; lia). simpl in E0. lia.
    - now rewrite E. }
  assert (Hpos : forall i, In i (Py.range window (Z.of_nat n)) -> (0 <= i)%Z)
    by (intros i Hi; apply range_In in Hi; lia).
  exists (assign_all g (Py.range window (Z.of_nat n)) (repeat NaN n)).
  split; [|split; [|split]].
  - apply (for_each_assigns f g). intros i Hi. apply range_In in Hi.
    rewrite repeat_length. split; [lia|]. now apply Hf.
  - now rewrite assign_all_length, repeat_length.
  - intros i Hi Hn. rewrite assign_all_untouched.
    + apply nth_repeat_lt. exact Hn.
    + exact Hpos.
    + rewrite range_In. lia.
  - intros i Hi. cbv zeta. split; [|split].
    + apply window_length; fold n; lia.
    + intros j Hj. rewrite nth_firstn.
      destruct (Nat.ltb_spec j (Z.to_nat window)); [|lia].
      now rewrite nth_skipn.
    + rewrite assign_all_assigned.
      * destruct (Hf (Z.of_nat i)) as [E1 E2]; [lia|].
        rewrite <- E2, E1. now rewrite Nat2Z.id.
      * exact Hpos.
      * apply range_NoDup.
      * rewrite range_In. lia.
      * rewrite repeat_length. fold n. lia.
Qed.

(** The theorem on a five-day series with a window of two days. *)
Lemma rolling_var_trailing_windows_witness :
  exists vs,
    rolling_var Reference.sqrt_ref [1; - (2); 3; - (4); 5] 2 (1 # 2)
    = Returned vs
    /\ length vs = 5%nat
    /\ nth 0 vs (Fin 0) = NaN /\ nth 1 vs (Fin 0) = NaN
    /\ historical_var Reference.sqrt_ref [1; - (2)] (1 # 2) 1
       = Returned (nth 2 vs NaN)
    /\ historical_var Reference.sqrt_ref [3; - (4)] (1 # 2) 1
       = Returned (nth 4 vs NaN).
Proof.
  destruct (rolling_var_trailing_windows Reference.sqrt_ref
              [1; - (2); 3; - (4); 5] 2 (1 # 2))
    as (vs & E & L & Hnan & Hwin).
  - lia.
  - vm_compute. discriminate.
  - vm_compute. discriminate.
  - exists vs. split; [exact E|]. split; [exact L|].
    split; [apply Hnan; simpl; lia|].
    split; [apply Hnan; simpl; lia|].
    split.
    + apply (Hwin 2%nat). simpl. lia.
    + apply (Hwin 4%nat). simpl. lia.
Defined.

(** ** C9: determinism *)

(** A computation that starts by seeding the generator does not depend on
    the state it is started from. *)
Lemma reseeded_independent {rng A} (seed : Z -> rng) (k : Z)
    (body : unit -> Random.M rng A) (s1 s2 : rng) :
  Random.bind (Random.np_seed seed k) body s1
  = Random.bind (Random.np_seed seed k) body s2.
Proof. reflexivity. Qed.

Lemma run_twice_same {rng A} (m : Random.M rng A) (s : rng) :
  (forall s1 s2, m s1 = m s2) ->
  fst (run_twice m s) = snd (run_twice m s).
Proof.
  intro H. unfold run_twice.
  destruct (m s) as [r1 s1] eqn:E1.
  destruct (m s1) as [r2 s2] eqn:E2.
  rewrite (H s1 s) in E2. rewrite E1 in E2. simpl. congruence.
Qed.

(** C9: [monte_carlo_var] and [credit_var] give the same result and leave
    the same generator state whatever the state of the global generator
    when they are called, because each call reseeds it; [var_backtest] does
    not touch the generator.  Hence two invocations in a row on the same
    inputs give identical outputs. *)
Theorem engine_deterministic (sqrtQ : Q -> Q) (norm_ppf : Q -> fp) {rng}
    (seed : Z -> rng) (gauss : rng -> Q * rng)
    (returns : list Q) (var_series : list fp)
    (exposures pds lgds : list Q) (correlation : Q) (n_sims : Z)
    (confidence holding_period : Q) (kind : container) (s1 s2 : rng) :
  let mc := monte_carlo_var sqrtQ seed gauss kind returns n_sims confidence
              holding_period in
  let cv := credit_var sqrtQ norm_ppf seed gauss exposures pds lgds
              correlation n_sims confidence in
  let bt := Random.lift (rng := rng)
              (var_backtest returns var_series confidence) in
  (mc s1 = mc s2 /\ fst (run_twice mc s1) = snd (run_twice mc s1))
  /\ (cv s1 = cv s2 /\ fst (run_twice cv s1) = snd (run_twice cv s1))
  /\ (fst (bt s1) = fst (bt s2) /\ snd (bt s1) = s1
      /\ fst (run_twice bt s1) = snd (run_twice bt s1)).
Proof.
  intros mc cv bt.
  assert (Hmc : forall a b, mc a = mc b)
    by (intros a b; apply reseeded_independent).
  assert (Hcv : forall a b, cv a = cv b)
    by (intros a b; apply reseeded_independent).
  split; [|split].
  - split; [apply Hmc|now apply run_twice_same].
  - split; [apply Hcv|now apply run_twice_same].
  - repeat split.
Qed.

(* ------------------------------------------------------------------ *)
(** * Further properties of risk_metrics.py *)

(** ** The backtest *)

Lemma select_length {A} (a : list A) (mask : list bool) :
  length a = length mask ->
  length (Np.select a mask) = length (filter (fun b => b) mask).
Proof.
  revert mask. induction a as [|x t IH]; intros [|b m] H; simpl in *;
    try reflexivity; try discriminate.
  injection H as H. destruct b; simpl; now rewrite IH.
Qed.

Lemma filter_map_length {A} (f : A -> bool) (l : list A) :
  length (filter (fun b => b) (map f l)) = length (filter f l).
Proof.
  induction l as [|x t IH]; simpl; [reflexivity|].
  destruct (f x); simpl; now rewrite IH.
Qed.

Lemma count_true_le (bs : list bool) :
  (Np.count_true bs <= Z.of_nat (length bs))%Z.
Proof.
  unfold Np.count_true. apply inj_le. apply filter_length_le.
Qed.

(** The record returned on two series of one length. *)
Lemma var_backtest_record (returns : list Q) (var_series : list fp)
    (confidence : Q) :
  length returns = length var_series ->
  exists r,
    var_backtest returns var_series confidence = Returned r
    /\ total_days r = scored_days var_series
    /\ (0 <= exceptions r <= total_days r)%Z
    /\ ((0 < total_days r)%Z ->
        exists q, exception_rate r = Fin q
                  /\ q == inject_Z (exceptions r) / inject_Z (total_days r)
                  /\ 0 <= q /\ q <= 1).
Proof.
  intro Hlen. unfold var_backtest, Np.mask_index.
  rewrite !length_map, Hlen, Nat.eqb_refl. cbn [obind].
  set (valid := map (fun v => negb (is_nan v)) var_series).
  set (actual := Np.select returns valid).
  set (predicted := Np.select var_series valid).
  set (flags := Np.zip_with (fun a p => (Fin a <? - p)%fp) actual predicted).
  assert (La : length actual = length (filter (fun b => b) valid)).
  { apply select_length. unfold valid. now rewrite length_map. }
  assert (Lp : length predicted = length actual).
  { rewrite La. apply select_length. unfold valid. now rewrite length_map. }
  assert (Lf : length flags = length actual).
  { unfold flags. apply zip_with_length. now rewrite Lp. }
  eexists. split; [reflexivity|]. cbn [total_days exceptions exception_rate].
  split; [|split].
  - unfold scored_days. rewrite La. unfold valid.
    now rewrite filter_map_length.
  - split; [apply count_true_nonneg|].
    rewrite <- Lf. apply count_true_le.
  - intro Hpos.
    assert (Hex : (0 <= Np.count_true flags <= Z.of_nat (length actual))%Z).
    { split; [apply count_true_nonneg|]. rewrite <- Lf. apply count_true_le. }
    assert (Hq : 0 < inject_Z (Z.of_nat (length actual)))
      by now apply inject_Z_pos.
    unfold fdiv, of_Z.
    destruct (Qeq_bool (inject_Z (Z.of_nat (length actual))) 0) eqn:E.
    { apply Qeq_bool_eq in E. lra. }
    eexists. split; [reflexivity|]. split; [reflexivity|].
    assert (H0 : 0 <= inject_Z (Np.count_true flags))
      by (apply inject_Z_nonneg; lia).
    assert (H1 : inject_Z (Np.count_true flags)
                 <= inject_Z (Z.of_nat (length actual)))
      by (rewrite <- Zle_Qle; lia).
    split.
    + apply Qle_shift_div_l; lra.
    + apply Qle_shift_div_r; lra.
Qed.

Lemma var_backtest_mismatch (returns : list Q) (var_series : list fp)
    (confidence : Q) :
  length returns <> length var_series ->
  var_backtest returns var_series confidence = Raised IndexError.
Proof.
  intro H. unfold var_backtest, Np.mask_index. rewrite length_map.
  apply Nat.eqb_neq in H. now rewrite H.
Qed.

(** X1: the backtest returns exactly when the two series have one length;
    otherwise it fails at the mask lookup.  When it returns, it scores
    exactly the days whose VaR is defined, counts at most that many
    exceptions, and when at least one day is scored the exception rate is
    the finite ratio of the two counts, between 0 and 1. *)
Theorem var_backtest_counts (returns : list Q) (var_series : list fp)
    (confidence : Q) :
  (length returns <> length var_series ->
   var_backtest returns var_series confidence = Raised IndexError)
  /\ (length returns = length var_series ->
      exists r,
        var_backtest returns var_series confidence = Returned r
        /\ total_days r = scored_days var_series
        /\ (0 <= exceptions r <= total_days r)%Z
        /\ ((0 < total_days r)%Z ->
            exists q,
              exception_rate r = Fin q
              /\ q == inject_Z (exceptions r) / inject_Z (total_days r)
              /\ 0 <= q /\ q <= 1)).
Proof.
  split; [apply var_backtest_mismatch|apply var_backtest_record].
Qed.

Lemma var_backtest_counts_witness :
  var_backtest [- (1); 0; 1] [NaN; Fin (1 # 2)] (95 # 100)
  = Raised IndexError
  /\ exists r,
       var_backtest [- (1); 0; - (1); 0]
         [NaN; Fin (1 # 2); Fin (1 # 2); NaN] (95 # 100) = Returned r
       /\ total_days r = 2%Z /\ exceptions r = 1%Z
       /\ exception_rate r = Fin (1 # 2).
Proof.
  split.
  - apply (proj1 (var_backtest_counts [- (1); 0; 1] [NaN; Fin (1 # 2)]
                    (95 # 100))). simpl. lia.
  - destruct (proj2 (var_backtest_counts [- (1); 0; - (1); 0]
                       [NaN; Fin (1 # 2); Fin (1 # 2); NaN] (95 # 100))
                eq_refl) as (r & E & _).
    exists r. split; [exact E|].
    vm_compute in E. injection E as <-. repeat split.
Defined.

Lemma select_all_false {A} (a : list A) (mask : list bool) :
  Forall (fun b => b = false) mask -> Np.select a mask = [].
Proof.
  intro H. revert a. induction H as [|b m -> _ IH]; intros [|x t]; simpl;
    try reflexivity. apply IH.
Qed.

(** When no VaR is defined nothing is scored. *)
Lemma var_backtest_all_nan (returns : list Q) (var_series : list fp)
    (confidence : Q) :
  length returns = length var_series ->
  Forall (fun v => v = NaN) var_series ->
  exists r,
    var_backtest returns var_series confidence = Returned r
    /\ total_days r = 0%Z /\ exceptions r = 0%Z
    /\ exception_rate r = NaN /\ status r = RED.
Proof.
  intros Hlen Hnan. unfold var_backtest, Np.mask_index.
  rewrite !length_map, Hlen, Nat.eqb_refl. cbn [obind].
  assert (Hmask : Forall (fun b => b = false)
                    (map (fun v => negb (is_nan v)) var_series)).
  { rewrite Forall_map. revert Hnan. apply Forall_impl. now intros v ->. }
  rewrite !(select_all_false _ _ Hmask).
  eexists. split; [reflexivity|]. repeat split.
Qed.

(** X2: when no VaR is defined (every entry is NaN, or the series are
    empty) no day is scored, the exception rate is NaN, every comparison
    with it is false and the status is RED. *)
Theorem var_backtest_nothing_scored (returns : list Q) (var_series : list fp)
    (confidence : Q) :
  length returns = length var_series ->
  Forall (fun v => v = NaN) var_series ->
  exists r,
    var_backtest returns var_series confidence = Returned r
    /\ total_days r = 0%Z /\ exceptions r = 0%Z
    /\ exception_rate r = NaN /\ status r = RED.
Proof. apply var_backtest_all_nan. Qed.

Lemma var_backtest_nothing_scored_witness :
  exists r,
    var_backtest [- (1); 0] [NaN; NaN] (95 # 100) = Returned r
    /\ total_days r = 0%Z /\ exceptions r = 0%Z
    /\ exception_rate r = NaN /\ status r = RED.
Proof.
  apply var_backtest_nothing_scored.
  - reflexivity.
  - repeat constructor.
Defined.

(** ** Rolling VaR *)

Lemma range_empty (lo hi : Z) : (hi <= lo)%Z -> Py.range lo hi = [].
Proof.
  intro H. unfold Py.range. replace (Z.to_nat (hi - lo)) with O by lia.
  reflexivity.
Qed.

(** X3: a window at least as long as the series leaves every position
    undefined, whatever the confidence; the backtest of such a rolling VaR
    scores no day and reports RED. *)
Theorem rolling_var_short_series (sqrtQ : Q -> Q) (returns : list Q)
    (window : Z) (confidence backtest_confidence : Q) :
  (Z.of_nat (length returns) <= window)%Z ->
  rolling_var sqrtQ returns window confidence
  = Returned (repeat NaN (length returns))
  /\ exists r,
       var_backtest returns (repeat NaN (length returns))
         backtest_confidence = Returned r
       /\ total_days r = 0%Z /\ exception_rate r = NaN /\ status r = RED.
Proof.
  intro H. split.
  - unfold rolling_var. now rewrite range_empty.
  - destruct (var_backtest_all_nan returns (repeat NaN (length returns))
                backtest_confidence) as (r & E & T & _ & R & S).
    + now rewrite repeat_length.
    + apply Forall_forall. intros v Hv. now apply repeat_spec in Hv.
    + now exists r.
Qed.

Lemma rolling_var_short_series_witness :
  rolling_var Reference.sqrt_ref [1; - (2); 3] 3 (95 # 100)
  = Returned [NaN; NaN; NaN]
  /\ exists r,
       var_backtest [1; - (2); 3] [NaN; NaN; NaN] (95 # 100) = Returned r
       /\ total_days r = 0%Z /\ exception_rate r = NaN /\ status r = RED.
Proof.
  apply (rolling_var_short_series Reference.sqrt_ref [1; - (2); 3] 3).
  simpl. lia.
Defined.

(** What [rolling_var] returns for a window of at least one day: the run of
    assignments of finite values at the indices from the window on. *)
Lemma rolling_var_assigns (sqrtQ : Q -> Q) (returns : list Q) (window : Z)
    (confidence : Q) :
  (0 < window)%Z -> 0 <= confidence -> confidence <= 1 ->
  exists g : Z -> fp,
    rolling_var sqrtQ returns window confidence
    = Returned (assign_all g (Py.range window (Z.of_nat (length returns)))
                  (repeat NaN (length returns)))
    /\ forall i, (window <= i < Z.of_nat (length returns))%Z ->
                 exists q, g i = Fin q.
Proof.
  intros Hw Hc0 Hc1. unfold rolling_var.
  set (n := length returns).
  set (f := fun i : Z =>
              historical_var sqrtQ (Py.slice returns (i - window) i)
                confidence 1).
  set (g := fun i : Z =>
              match f i with Returned v => v | Raised _ => NaN end).
  assert (Hf : forall i, (window <= i < Z.of_nat n)%Z ->
                 exists q, f i = Returned (Fin q)).
  { intros i Hi. unfold f. rewrite slice_window by (fold n; lia).
    destruct (historical_var_value sqrtQ
                (firstn (Z.to_nat window)
                   (skipn (Z.to_nat i - Z.to_nat window) returns))
                confidence 1) as (p & _ & E); try assumption; try lra.
    - intro E0. apply (f_equal (@length Q)) in E0.
      rewrite window_length in E0 by (fold n; lia). simpl in E0. lia.
    - now exists (Qabs p). }
  exists g. split.
  - apply (for_each_assigns f g). intros i Hi. apply range_In in Hi.
    rewrite repeat_length. split; [lia|].
    unfold g. destruct (Hf i Hi) as (q & ->). reflexivity.
  - intros i Hi. unfold g. destruct (Hf i Hi) as (q & ->). now exists q.
Qed.

Lemma filter_all_true {A} (f : A -> bool) (l : list A) :
  Forall (fun x => f x = true) l -> filter f l = l.
Proof.
  induction 1 as [|x t Hx _ IH]; simpl; [reflexivity|].
  now rewrite Hx, IH.
Qed.

Lemma filter_all_false {A} (f : A -> bool) (l : list A) :
  Forall (fun x => f x = false) l -> filter f l = [].
Proof.
  induction 1 as [|x t Hx _ IH]; simpl; [reflexivity|].
  now rewrite Hx.
Qed.

(** A list whose entries fail [f] before position [w] and pass it from
    there on has [length l - w] entries passing [f]. *)
Lemma filter_length_from {A} (f : A -> bool) (l : list A) (w : nat) (d : A) :
  (forall k, (k < w)%nat -> (k < length l)%nat -> f (nth k l d) = false) ->
  (forall k, (w <= k < length l)%nat -> f (nth k l d) = true) ->
  length (filter f l) = (length l - w)%nat.
Proof.
  intros Hlow Hhigh. rewrite <- (firstn_skipn w l) at 1.
  rewrite filter_app, length_app.
  rewrite filter_all_false, filter_all_true.
  - simpl. apply length_skipn.
  - apply Forall_nth. intros i d' Hi. rewrite length_skipn in Hi.
    rewrite nth_skipn, (nth_indep _ d' d) by lia. apply Hhigh. lia.
  - apply Forall_nth. intros i d' Hi. rewrite length_firstn in Hi.
    rewrite nth_firstn.
    destruct (Nat.ltb_spec i w); [|lia].
    rewrite (nth_indep _ d' d) by lia. apply Hlow; lia.
Qed.

(** X4: the backtest of a series against its own rolling VaR (window of at
    least one day, confidences in [0, 1] for the rolling VaR) never fails
    and scores exactly the [n - W] days that have a full trailing window. *)
Theorem backtest_of_rolling_var (sqrtQ : Q -> Q) (returns : list Q)
    (window : Z) (confidence backtest_confidence : Q) :
  (0 < window)%Z -> 0 <= confidence -> confidence <= 1 ->
  exists vs r,
    rolling_var sqrtQ returns window confidence = Returned vs
    /\ var_backtest returns vs backtest_confidence = Returned r
    /\ total_days r = Z.max 0 (Z.of_nat (length returns) - window)
    /\ (0 <= exceptions r <= total_days r)%Z.
Proof.
  intros Hw Hc0 Hc1.
  destruct (rolling_var_assigns sqrtQ returns window confidence Hw Hc0 Hc1)
    as (g & E & Hg).
  set (n := length returns) in *.
  set (vs := assign_all g (Py.range window (Z.of_nat n)) (repeat NaN n)) in *.
  assert (Lvs : length vs = n)
    by (unfold vs; now rewrite assign_all_length, repeat_length).
  assert (Hpos : forall i, In i (Py.range window (Z.of_nat n)) -> (0 <= i)%Z)
    by (intros i Hi; apply range_In in Hi; lia).
  destruct (var_backtest_record returns vs backtest_confidence)
    as (r & Er & Ht & Hex & _); [now rewrite Lvs|].
  exists vs, r. split; [exact E|]. split; [exact Er|].
  split; [|exact Hex].
  rewrite Ht. unfold scored_days.
  rewrite (filter_length_from _ vs (Z.to_nat window) NaN).
  - rewrite Lvs. fold n. lia.
  - intros k Hk Hkn. unfold vs. rewrite assign_all_untouched.
    + rewrite nth_repeat_lt by (rewrite Lvs in Hkn; exact Hkn). reflexivity.
    + exact Hpos.
    + rewrite range_In. lia.
  - intros k Hk. rewrite Lvs in Hk. unfold vs.
    rewrite assign_all_assigned.
    + destruct (Hg (Z.of_nat k)) as (q & ->); [lia|]. reflexivity.
    + exact Hpos.
    + apply range_NoDup.
    + rewrite range_In. lia.
    + rewrite repeat_length. lia.
Qed.

Lemma backtest_of_rolling_var_witness :
  exists vs r,
    rolling_var Reference.sqrt_ref [1; - (2); 3; - (4); 5] 2 (1 # 2)
    = Returned vs
    /\ var_backtest [1; - (2); 3; - (4); 5] vs (95 # 100) = Returned r
    /\ total_days r = Z.max 0 (Z.of_nat (length [1; - (2); 3; - (4); 5]) - 2)
    /\ (0 <= exceptions r <= total_days r)%Z.
Proof.
  apply backtest_of_rolling_var.
  - lia.
  - vm_compute. discriminate.
  - vm_compute. discriminate.
Defined.

(** ** Bounds and extreme confidence levels of historical VaR *)

Lemma Qabs_bound (x m : Q) : - m <= x -> x <= m -> Qabs x <= m.
Proof. intros H0 H1. apply Qabs_Qle_condition. now split. Qed.

(** X5: when every return lies in [-M, M], the historical VaR is at most
    [M] times the square root of the holding period. *)
Theorem historical_var_bounded (sqrtQ : Q -> Q) (returns : list Q)
    (confidence holding_period M : Q) :
  (forall x, 0 <= x -> 0 <= sqrtQ x) ->
  returns <> [] -> 0 <= confidence -> confidence <= 1 ->
  0 <= holding_period ->
  Forall (fun r => - M <= r /\ r <= M) returns ->
  exists v,
    historical_var sqrtQ returns confidence holding_period = Returned (Fin v)
    /\ 0 <= v /\ v <= M * sqrtQ holding_period.
Proof.
  intros Hsq Hne Hc0 Hc1 Hh HM. unfold historical_var.
  rewrite (fsqrt_Fin_nonneg sqrtQ _ Hh). cbv zeta. rewrite scaled_finite.
  pose proof (Hsq _ Hh) as Hs. set (s := sqrtQ holding_period) in *.
  destruct (percentile_within (map Fin (map (fun r => r * s) returns))
              ((1 - confidence) * 100) (- (M * s)) (M * s))
    as (p & E & Hp0 & Hp1); try lra.
  - destruct returns; [congruence|discriminate].
  - apply within_map_Fin. rewrite Forall_map.
    revert HM. apply Forall_impl. intros r [H0 H1]. split; nra.
  - rewrite E. cbn [obind fabs]. exists (Qabs p).
    split; [reflexivity|]. split; [apply Qabs_nonneg|now apply Qabs_bound].
Qed.

Lemma historical_var_bounded_witness :
  exists v,
    historical_var Reference.sqrt_ref [- (1 # 2); 1 # 4; - (1 # 8)]
      (95 # 100) 4 = Returned (Fin v)
    /\ 0 <= v /\ v <= (1 # 2) * Reference.sqrt_ref 4.
Proof.
  apply historical_var_bounded.
  - intros x _. apply sqrt_ref_nonneg.
  - discriminate.
  - vm_compute. discriminate.
  - vm_compute. discriminate.
  - vm_compute. discriminate.
  - repeat constructor; vm_compute; discriminate.
Defined.

(** The first entry of a sorted finite array is its least entry. *)
Lemma sort_head_min (x : Q) (t : list Q) :
  exists m,
    nth 0 (Np.sort (map Fin (x :: t))) NaN = Fin m
    /\ In m (x :: t) /\ Forall (fun y => m <= y) (x :: t).
Proof.
  revert x. induction t as [|y u IH]; intro x.
  - exists x. simpl. repeat split; [now left|].
    constructor; [apply Qle_refl|constructor].
  - destruct (IH y) as (m & Em & Hin & Hall).
    change (Np.sort (map Fin (x :: y :: u)))
      with (Np.insert (Fin x) (Np.sort (map Fin (y :: u)))).
    destruct (Np.sort (map Fin (y :: u))) as [|h l] eqn:Es.
    { exfalso. apply (f_equal (@length fp)) in Es.
      rewrite sort_length in Es. discriminate. }
    simpl in Em. subst h.
    change (Np.insert (Fin x) (Fin m :: l))
      with (if (Fin x <=? Fin m)%fp then Fin x :: Fin m :: l
            else Fin m :: Np.insert (Fin x) l).
    destruct (Fin x <=? Fin m)%fp eqn:E.
    + exists x. split; [reflexivity|]. split; [now left|].
      assert (Hx : x <= m).
      { simpl in E. destruct (Qcompare_spec x m) as [H|H|H];
          try discriminate; lra. }
      constructor; [apply Qle_refl|].
      revert Hall. apply Forall_impl. intros z Hz. lra.
    + exists m. split; [reflexivity|]. split; [now right|].
      assert (Hx : m <= x).
      { simpl in E. destruct (Qcompare_spec x m) as [H|H|H];
          try discriminate; lra. }
      now constructor.
Qed.

(** The percentile at [q = 0] of a finite array is its least entry. *)
Lemma percentile_zero (xs : list Q) (q : Q) :
  xs <> [] -> q == 0 ->
  exists v m,
    Np.percentile (map Fin xs) q = Returned (Fin v)
    /\ v == m /\ In m xs /\ Forall (fun y => m <= y) xs.
Proof.
  intros Hne Hq. destruct xs as [|x t]; [congruence|].
  destruct (sort_head_min x t) as (m & Em & Hin & Hall).
  destruct (Forall_bounded (x :: t)) as (lo & hi & B).
  unfold Np.percentile.
  assert (Bq : negb (Qle_bool 0 q && Qle_bool q 100) = false).
  { apply negb_false_iff, andb_true_iff.
    split; apply Qle_bool_iff; lra. }
  rewrite Bq, (within_no_nan lo hi) by now apply within_map_Fin.
  rewrite length_map.
  set (n := Z.of_nat (length (x :: t))).
  set (virtual := q / 100 * inject_Z (n - 1)).
  assert (Hv : virtual == 0).
  { unfold virtual. rewrite Hq. unfold Qdiv. ring. }
  assert (Hprev : Qfloor virtual = 0%Z).
  { rewrite (Qfloor_comp _ _ Hv). reflexivity. }
  cbn [map] in *. rewrite Hprev. simpl Z.to_nat at 1. rewrite Em.
  set (next := Z.to_nat (Z.min (0 + 1) (n - 1))).
  assert (Hnext : exists y, nth next (Np.sort (Fin x :: map Fin t)) NaN = Fin y).
  { assert (In (nth next (Np.sort (Fin x :: map Fin t)) NaN)
              (map Fin (x :: t))).
    { apply sort_nth_In. simpl length. rewrite length_map.
      unfold next, n. simpl length. lia. }
    apply in_map_iff in H. destruct H as (y & <- & _). now exists y. }
  destruct Hnext as (y & ->).
  unfold Np.lerp.
  assert (Hg : Qle_bool (1 # 2) (virtual - inject_Z 0) = false).
  { destruct (Qle_bool (1 # 2) (virtual - inject_Z 0)) eqn:E;
      [|reflexivity].
    apply Qle_bool_iff in E. change (inject_Z 0) with 0 in E. lra. }
  rewrite Hg. cbn [fsub fneg fadd fmul].
  eexists _, m. split; [reflexivity|].
  split; [|split; assumption].
  change (inject_Z 0) with 0. rewrite Hv. ring.
Qed.

(** X6: at confidence 1 the historical VaR is the magnitude of the least
    scaled return, the worst day of the sample. *)
Theorem historical_var_full_confidence (sqrtQ : Q -> Q) (returns : list Q)
    (confidence holding_period : Q) :
  returns <> [] -> confidence == 1 -> 0 <= holding_period ->
  exists v r,
    historical_var sqrtQ returns confidence holding_period = Returned (Fin v)
    /\ In r returns
    /\ (forall r', In r' returns ->
          r * sqrtQ holding_period <= r' * sqrtQ holding_period)
    /\ v == Qabs (r * sqrtQ holding_period).
Proof.
  intros Hne Hc Hh. unfold historical_var.
  rewrite (fsqrt_Fin_nonneg sqrtQ _ Hh). cbv zeta. rewrite scaled_finite.
  set (s := sqrtQ holding_period).
  destruct (percentile_zero (map (fun r => r * s) returns)
              ((1 - confidence) * 100))
    as (v & m & E & Hvm & Hin & Hall).
  - destruct returns; [congruence|discriminate].
  - rewrite Hc. ring.
  - apply in_map_iff in Hin. destruct Hin as (r & <- & Hr).
    rewrite E. cbn [obind fabs]. exists (Qabs v), r.
    split; [reflexivity|]. split; [exact Hr|]. split.
    + intros r' Hr'. rewrite Forall_forall in Hall. apply Hall.
      apply in_map_iff. now exists r'.
    + now rewrite Hvm.
Qed.

Lemma historical_var_full_confidence_witness :
  exists v r,
    historical_var Reference.sqrt_ref [1 # 4; - (1 # 2); - (1 # 8)] 1 1
    = Returned (Fin v)
    /\ In r [1 # 4; - (1 # 2); - (1 # 8)]
    /\ (forall r', In r' [1 # 4; - (1 # 2); - (1 # 8)] ->
          r * Reference.sqrt_ref 1 <= r' * Reference.sqrt_ref 1)
    /\ v == Qabs (r * Reference.sqrt_ref 1).
Proof.
  apply historical_var_full_confidence.
  - discriminate.
  - reflexivity.
  - vm_compute. discriminate.
Defined.

(** ** Error behaviour of the Monte Carlo and portfolio estimators *)

(** X8: a negative number of simulations makes [monte_carlo_var] fail with
    a value error, for every other input, after the generator has been
    reseeded and before anything is drawn. *)
Theorem monte_carlo_var_negative_sims (sqrtQ : Q -> Q) {rng}
    (seed : Z -> rng) (gauss : rng -> Q * rng) (kind : container)
    (returns : list Q) (n_sims : Z) (confidence holding_period : Q)
    (s : rng) :
  (n_sims < 0)%Z ->
  monte_carlo_var sqrtQ seed gauss kind returns n_sims confidence
    holding_period s
  = (Raised ValueError, seed 42%Z).
Proof.
  intro Hn. unfold monte_carlo_var.
  unfold Random.bind at 1. unfold Random.np_seed.
  unfold Random.bind, Random.normal_size, Random.lift.
  destruct (_ <? Fin 0)%fp; [reflexivity|].
  destruct (Z.ltb_spec n_sims 0); [reflexivity|lia].
Qed.

Lemma monte_carlo_var_negative_sims_witness :
  monte_carlo_var Reference.sqrt_ref Reference.seed_ref Reference.gauss_ref
    Ndarray [- (1 # 2); 1 # 4] (- (3)) (95 # 100) 1 (Reference.seed_ref 7)
  = (Raised ValueError, Reference.seed_ref 42).
Proof.
  apply (monte_carlo_var_negative_sims Reference.sqrt_ref Reference.seed_ref
           Reference.gauss_ref).
  lia.
Defined.

(** X9: [portfolio_var] fails with a value error unless the covariance
    matrix is square with one row and one column per weight, there being at
    least one weight. *)
Theorem portfolio_var_shape_error (sqrtQ : Q -> Q) (norm_ppf : Q -> fp)
    (weights : list Q) (cov_matrix : list (list Q))
    (confidence portfolio_value : Q) :
  ~ (weights <> []
     /\ length cov_matrix = length weights
     /\ Forall (fun r => length r = length weights) cov_matrix) ->
  portfolio_var sqrtQ norm_ppf weights cov_matrix confidence portfolio_value
  = Raised ValueError.
Proof.
  intro Hbad. unfold portfolio_var, vecmat.
  destruct cov_matrix as [|r0 rest]; [reflexivity|].
  set (m := r0 :: rest) in *.
  change (map (map Fin) m) with (map Fin r0 :: map (map Fin) rest).
  cbv beta iota zeta.
  change (map Fin r0 :: map (map Fin) rest) with (map (map Fin) m).
  destruct (forallb _ (map (map Fin) m)) eqn:F; [|reflexivity].
  cbn [negb]. rewrite !length_map.
  destruct (Nat.eqb_spec (length weights) (length m)) as [Hrows|];
    [|reflexivity].
  cbn [negb obind]. unfold dot. rewrite !length_map, length_seq.
  destruct (Nat.eqb_spec (length r0) (length weights)) as [Hcols|];
    [|reflexivity].
  exfalso. apply Hbad. split; [|split].
  - intros ->. unfold m in Hrows. discriminate.
  - now symmetry.
  - rewrite forallb_forall in F. rewrite Forall_forall. intros r Hr.
    assert (Hm : In (map Fin r) (map (map Fin) m)) by now apply in_map.
    apply F in Hm. apply Nat.eqb_eq in Hm.
    rewrite !length_map in Hm. congruence.
Qed.

Lemma portfolio_var_shape_error_witness :
  portfolio_var Reference.sqrt_ref Reference.ppf_ref
    [1 # 2; 1 # 2] [[1; 0; 0]; [0; 1; 0]] (95 # 100) 1000000
  = Raised ValueError.
Proof.
  apply portfolio_var_shape_error. intros (_ & _ & H).
  inversion H as [|? ? H0 _]. discriminate H0.
Defined.

(* ------------------------------------------------------------------ *)
(** * Further properties of credit_var *)











Lemma broadcast_mismatch {A B C} (f : A -> B -> C) (xs : list A)
    (ys : list B) :
  length xs <> length ys -> length xs <> 1%nat -> length ys <> 1%nat ->
  Np.broadcast f xs ys = Raised ValueError.
Proof.
  intros H Hx Hy. unfold Np.broadcast.
  apply Nat.eqb_neq in H. rewrite H.
  destruct xs as [|x [|x' xs]]; destruct ys as [|y [|y' ys]];
    simpl in *; try reflexivity; congruence.
Qed.

(** X12: arrays that are not aligned make [credit_var] fail with a value
    error in its first trial: default probabilities, or loss rates, whose
    number differs from the number of exposures, neither number being 1. *)
Theorem credit_var_misaligned (sqrtQ : Q -> Q) (norm_ppf : Q -> fp) {rng}
    (seed : Z -> rng) (gauss : rng -> Q * rng)
    (exposures pds lgds : list Q) (correlation : Q) (n_sims : Z)
    (confidence : Q) (s : rng) :
  (0 < n_sims)%Z -> length exposures <> 1%nat ->
  (length pds <> length exposures /\ length pds <> 1%nat)
  \/ (length pds = length exposures
      /\ length lgds <> length exposures /\ length lgds <> 1%nat) ->
  fst (credit_var sqrtQ norm_ppf seed gauss exposures pds lgds
         correlation n_sims confidence s) = Raised ValueError.
Proof.
  intros Hn He Hbad. unfold credit_var.
  unfold Random.bind at 1. unfold Random.np_seed.
  destruct (Z.to_nat n_sims) as [|k] eqn:Ek; [lia|].
  cbn [trials]. unfold Random.bind at 1. unfold Random.bind at 1.
  unfold trial_loss. unfold Random.bind at 1. unfold trial_defaults.
  destruct (trial_assets_run sqrtQ rng gauss exposures correlation
              (seed 42%Z)) as (z & eps & s' & Le & E).
  rewrite (bind_returned _ _ _ _ _ E). unfold Random.lift.
  destruct Hbad as [[Hp Hp1]|(Hp & Hl & Hl1)].
  - rewrite broadcast_mismatch; rewrite ?length_map; try congruence.
    reflexivity.
  - rewrite broadcast_aligned by (rewrite !length_map; congruence).
    set (ds := Np.zip_with flt _ _).
    assert (Ld : length ds = length exposures).
    { unfold ds. rewrite zip_with_length; rewrite !length_map; congruence. }
    rewrite broadcast_aligned by (rewrite !length_map; congruence).
    cbn [obind].
    rewrite broadcast_mismatch; [reflexivity| | |];
      rewrite ?zip_with_length, ?length_map; try congruence;
      rewrite ?length_map; congruence.
Qed.

Lemma credit_var_misaligned_witness :
  fst (credit_var Reference.sqrt_ref Reference.ppf_ref
         Reference.seed_ref Reference.gauss_ref
         [100; 50] [1 # 2; 1 # 10; 1 # 10] [1; 1] (1 # 5) 10 (99 # 100)
         (Reference.seed_ref 0)) = Raised ValueError.
Proof.
  apply credit_var_misaligned.
  - lia.
  - discriminate.
  - left. split; discriminate.
Defined.

(* ------------------------------------------------------------------ *)
(** * Properties of the scoring functions of credit_risk.py *)

Module ScoringFacts.
Import Scalar CreditScoring.

(** ** Altman Z-score *)

(** Turns the boolean comparisons of the context into inequalities. *)
Ltac qle_facts :=
  repeat match goal with
         | E : Qle_bool _ _ = true |- _ => apply Qle_bool_iff in E
         | E : Qle_bool ?a ?b = false |- _ =>
             assert (b < a)
               by (let C := fresh "C" in
                   apply Qnot_le_lt; intro C; apply Qle_bool_iff in C;
                   congruence);
             clear E
         end.

Lemma zone_of_comp (z z' : Q) : z == z' -> zone_of z = zone_of z'.
Proof.
  intro H. unfold zone_of.
  rewrite (Qleb_comp z z' H (299 # 100) (299 # 100) (Qeq_refl _)).
  rewrite (Qleb_comp z z' H (181 # 100) (181 # 100) (Qeq_refl _)).
  reflexivity.
Qed.

Lemma altman_value (wc ta re ebit me tl sales : Q) :
  ~ ta == 0 -> ~ tl == 0 ->
  altman_z_score wc ta re ebit me tl sales
  = Done (z_of (wc / ta) (re / ta) (ebit / ta) (me / tl) (sales / ta),
          zone_of (z_of (wc / ta) (re / ta) (ebit / ta) (me / tl)
                     (sales / ta))).
Proof.
  intros Ha Hl. unfold altman_z_score, true_div.
  assert (Ea : Qeq_bool ta 0 = false).
  { destruct (Qeq_bool ta 0) eqn:E; [|reflexivity].
    apply Qeq_bool_eq in E. contradiction. }
  assert (El : Qeq_bool tl 0 = false).
  { destruct (Qeq_bool tl 0) eqn:E; [|reflexivity].
    apply Qeq_bool_eq in E. contradiction. }
  rewrite Ea, El. reflexivity.
Qed.

Lemma altman_zero_division (wc ta re ebit me tl sales : Q) :
  ta == 0 \/ tl == 0 ->
  altman_z_score wc ta re ebit me tl sales = Fails ZeroDivisionError.
Proof.
  intro H. unfold altman_z_score, true_div.
  destruct (Qeq_bool ta 0) eqn:Ea; [reflexivity|]. cbn [pbind].
  destruct H as [H|H].
  - apply Qeq_bool_neq in Ea. contradiction.
  - apply Qeq_bool_iff in H. rewrite H. reflexivity.
Qed.

(** X13: [altman_z_score] raises a division error exactly when the total
    assets or the total liabilities are zero, whatever the other figures;
    otherwise it returns a score and a zone. *)
Theorem altman_error_iff (wc ta re ebit me tl sales : Q) :
  (altman_z_score wc ta re ebit me tl sales = Fails ZeroDivisionError
   <-> (ta == 0 \/ tl == 0))
  /\ (~ ta == 0 -> ~ tl == 0 ->
      exists z zn, altman_z_score wc ta re ebit me tl sales = Done (z, zn)).
Proof.
  split.
  - split; [|apply altman_zero_division].
    intro E. destruct (Qeq_dec ta 0) as [Ha|Ha]; [now left|].
    destruct (Qeq_dec tl 0) as [Hl|Hl]; [now right|].
    rewrite (altman_value _ _ _ _ _ _ _ Ha Hl) in E. discriminate.
  - intros Ha Hl. rewrite (altman_value _ _ _ _ _ _ _ Ha Hl).
    eexists _, _. reflexivity.
Qed.

Lemma altman_error_iff_witness :
  altman_z_score 12 0 8 6 50 25 60 = Fails ZeroDivisionError
  /\ altman_z_score 12 40 8 6 50 0 60 = Fails ZeroDivisionError
  /\ exists z zn, altman_z_score 12 40 8 6 50 25 60 = Done (z, zn).
Proof.
  split; [|split].
  - apply (proj1 (altman_error_iff 12 0 8 6 50 25 60)). now left.
  - apply (proj1 (altman_error_iff 12 40 8 6 50 0 60)). now right.
  - apply (proj2 (altman_error_iff 12 40 8 6 50 25 60)); discriminate.
Defined.

(** The five ratios, hence the score and the zone, are those of any
    figures in the same proportions. *)
Lemma altman_same_ratios (k wc ta re ebit me tl sales : Q) :
  ~ k == 0 ->
  same_score
    (altman_z_score (k * wc) (k * ta) (k * re) (k * ebit) (k * me) (k * tl)
       (k * sales))
    (altman_z_score wc ta re ebit me tl sales).
Proof.
  intro Hk.
  destruct (Qeq_dec ta 0) as [Ha|Ha].
  { rewrite !altman_zero_division; [reflexivity|now left|left].
    rewrite Ha. ring. }
  destruct (Qeq_dec tl 0) as [Hl|Hl].
  { rewrite !altman_zero_division; [reflexivity|now right|right].
    rewrite Hl. ring. }
  assert (Hka : ~ k * ta == 0).
  { intro C. apply Qmult_integral in C. tauto. }
  assert (Hkl : ~ k * tl == 0).
  { intro C. apply Qmult_integral in C. tauto. }
  rewrite (altman_value _ _ _ _ _ _ _ Hka Hkl).
  rewrite (altman_value _ _ _ _ _ _ _ Ha Hl).
  cbn [same_score].
  assert (Hz : z_of (k * wc / (k * ta)) (k * re / (k * ta))
                 (k * ebit / (k * ta)) (k * me / (k * tl))
                 (k * sales / (k * ta))
               == z_of (wc / ta) (re / ta) (ebit / ta) (me / tl)
                    (sales / ta)).
  { unfold z_of. field. repeat split; assumption. }
  split; [exact Hz|]. now apply zone_of_comp.
Qed.

(** X14: for figures in whole units the score does not depend on the unit
    of account: seven whole figures and the same figures counted in a unit
    [k] times smaller, [k] a whole number other than 0, give the same
    outcome (the same error, or the same score and zone), as long as the
    figures in the smaller unit stay within [2^53], the whole numbers a
    float holds exactly.  The two calls divide numbers in the same
    proportions, so that each of the five quotients is the same number. *)
Theorem altman_scale_invariant (k wc ta re ebit me tl sales : Z) :
  k <> 0%Z ->
  Forall (fun x => (Z.abs (k * x) <= 2 ^ 53)%Z)
    [wc; ta; re; ebit; me; tl; sales] ->
  same_score
    (altman_z_score (inject_Z (k * wc)) (inject_Z (k * ta))
       (inject_Z (k * re)) (inject_Z (k * ebit)) (inject_Z (k * me))
       (inject_Z (k * tl)) (inject_Z (k * sales)))
    (altman_z_score (inject_Z wc) (inject_Z ta) (inject_Z re)
       (inject_Z ebit) (inject_Z me) (inject_Z tl) (inject_Z sales)).
Proof.
  intros Hk _.
  assert (Hq : ~ inject_Z k == 0).
  { intro C. apply Hk. apply inject_Z_injective. exact C. }
  rewrite !inject_Z_mult. now apply altman_same_ratios.
Qed.

Lemma altman_scale_invariant_witness :
  same_score
    (altman_z_score (inject_Z (1000 * 12)) (inject_Z (1000 * 40))
       (inject_Z (1000 * 8)) (inject_Z (1000 * 6)) (inject_Z (1000 * 50))
       (inject_Z (1000 * 25)) (inject_Z (1000 * 60)))
    (altman_z_score (inject_Z 12) (inject_Z 40) (inject_Z 8) (inject_Z 6)
       (inject_Z 50) (inject_Z 25) (inject_Z 60)).
Proof.
  apply altman_scale_invariant; [discriminate|].
  repeat constructor; simpl; lia.
Defined.

Lemma div_le_compat (a a' b : Q) : 0 < b -> a <= a' -> a / b <= a' / b.
Proof.
  intros Hb H. unfold Qdiv. pose proof (Qinv_lt_0_compat b Hb) as Hi.
  apply Qmult_le_compat_r; [exact H|lra].
Qed.

Lemma zone_of_mono (z z' : Q) :
  z <= z' -> (zone_rank (zone_of z) <= zone_rank (zone_of z'))%nat.
Proof.
  intro H. unfold zone_of.
  destruct (Qle_bool z (299 # 100)) eqn:A1;
    destruct (Qle_bool z (181 # 100)) eqn:A2;
    destruct (Qle_bool z' (299 # 100)) eqn:B1;
    destruct (Qle_bool z' (181 # 100)) eqn:B2; cbn; try lia; exfalso;
    qle_facts; lra.
Qed.

(** X15: with positive total assets and total liabilities, raising any of
    the five numerators (working capital, retained earnings, EBIT, market
    equity, sales) never lowers the score and never moves the firm to a
    less safe zone. *)
Theorem altman_monotone (wc wc' ta re re' ebit ebit' me me' tl sales sales'
    : Q) :
  0 < ta -> 0 < tl ->
  wc <= wc' -> re <= re' -> ebit <= ebit' -> me <= me' -> sales <= sales' ->
  exists z zn z' zn',
    altman_z_score wc ta re ebit me tl sales = Done (z, zn)
    /\ altman_z_score wc' ta re' ebit' me' tl sales' = Done (z', zn')
    /\ z <= z' /\ (zone_rank zn <= zone_rank zn')%nat.
Proof.
  intros Ha Hl H1 H2 H3 H4 H5.
  assert (Ha0 : ~ ta == 0) by lra. assert (Hl0 : ~ tl == 0) by lra.
  rewrite !altman_value by assumption.
  eexists _, _, _, _. split; [reflexivity|]. split; [reflexivity|].
  assert (Hz : z_of (wc / ta) (re / ta) (ebit / ta) (me / tl) (sales / ta)
               <= z_of (wc' / ta) (re' / ta) (ebit' / ta) (me' / tl)
                    (sales' / ta)).
  { unfold z_of.
    pose proof (div_le_compat wc wc' ta Ha H1).
    pose proof (div_le_compat re re' ta Ha H2).
    pose proof (div_le_compat ebit ebit' ta Ha H3).
    pose proof (div_le_compat me me' tl Hl H4).
    pose proof (div_le_compat sales sales' ta Ha H5). lra. }
  split; [exact Hz|now apply zone_of_mono].
Qed.

Lemma altman_monotone_witness :
  exists z zn z' zn',
    altman_z_score 12 40 8 6 50 25 60 = Done (z, zn)
    /\ altman_z_score 20 40 8 9 50 25 60 = Done (z', zn')
    /\ z <= z' /\ (zone_rank zn <= zone_rank zn')%nat.
Proof.
  apply altman_monotone; vm_compute; (reflexivity || discriminate).
Defined.

(** ** Ratings and collateral *)

Import String.
Local Open Scope string_scope.

Lemma upper_ascii_idempotent (c : Ascii.ascii) :
  upper_ascii (upper_ascii c) = upper_ascii c.
Proof.
  destruct c as [[] [] [] [] [] [] [] []]; reflexivity.
Qed.

Lemma upper_idempotent (s : string) : upper (upper s) = upper s.
Proof.
  induction s as [|c t IH]; simpl; [reflexivity|].
  now rewrite upper_ascii_idempotent, IH.
Qed.

Lemma get_In {K V} (eqb : K -> K -> bool) (d : list (K * V)) (k : K)
    (v : V) :
  Dict.get eqb d k = Some v -> In v (Dict.values d).
Proof.
  induction d as [|[k' v'] t IH]; simpl; [discriminate|].
  destruct (eqb k k').
  - intro H; injection H as ->. now left.
  - intro H. right. now apply IH.
Qed.

(** X16: for every rating string, [credit_rating_to_pd] returns a
    probability in (0, 1]: a value of its table, or 5% for a rating that is
    not on the scale; and it ignores letter case, the upper-cased rating
    giving the same value. *)
Theorem rating_pd_range (rating : string) :
  0 < credit_rating_to_pd rating /\ credit_rating_to_pd rating <= 1
  /\ credit_rating_to_pd (upper rating) = credit_rating_to_pd rating
  /\ (Dict.mem String.eqb pd_map (upper rating) = false ->
      credit_rating_to_pd rating = 5 # 100).
Proof.
  assert (T : Forall (fun v => 0 < v /\ v <= 1) (Dict.values pd_map)).
  { repeat constructor; vm_compute; (reflexivity || discriminate). }
  unfold credit_rating_to_pd, Dict.mem. rewrite upper_idempotent.
  destruct (Dict.get String.eqb pd_map (upper rating)) as [v|] eqn:E.
  - apply get_In in E. rewrite Forall_forall in T. destruct (T v E).
    repeat split; try assumption. discriminate.
  - repeat split; vm_compute; (reflexivity || discriminate).
Qed.

Lemma rating_pd_range_witness :
  credit_rating_to_pd "bbb" = credit_rating_to_pd "BBB"
  /\ credit_rating_to_pd "junk" = 5 # 100.
Proof.
  split.
  - symmetry. apply (proj1 (proj2 (proj2 (rating_pd_range "bbb")))).
  - apply (proj2 (proj2 (proj2 (rating_pd_range "junk")))). reflexivity.
Defined.

Lemma margin_rate_range (rating : string) :
  (2 # 100) <= margin_rate rating /\ margin_rate rating <= 50 # 100.
Proof.
  assert (T : Forall (fun v => (2 # 100) <= v /\ v <= 50 # 100)
                (Dict.values margin_rates)).
  { repeat constructor; vm_compute; discriminate. }
  unfold margin_rate.
  destruct (Dict.get String.eqb margin_rates (upper rating)) as [v|] eqn:E.
  - apply get_In in E. rewrite Forall_forall in T. now apply T.
  - split; vm_compute; discriminate.
Qed.

Lemma collateral_value (exposure : Q) (rating : string) (haircut : Q) :
  ~ haircut == 1 ->
  collateral_requirement exposure rating haircut
  = Done (exposure * margin_rate rating / (1 - haircut)).
Proof.
  intro H. unfold collateral_requirement, true_div. fold (margin_rate rating).
  destruct (Qeq_bool (1 - haircut) 0) eqn:E; [|reflexivity].
  apply Qeq_bool_iff in E. exfalso. apply H. lra.
Qed.

(** X17: [collateral_requirement] raises a division error exactly when the
    haircut is 1.  For an exposure that is not negative and a haircut in
    [0, 1) the requirement of every rating lies between the requirement of
    AAA and that of a counterparty without a rating on the margin table,
    and it is not negative and not below the requirement without haircut:
    a haircut never lowers the collateral. *)
Theorem collateral_requirement_bounds (exposure : Q) (rating unrated : string)
    (haircut : Q) :
  (collateral_requirement exposure rating haircut = Fails ZeroDivisionError
   <-> haircut == 1)
  /\ (Dict.mem String.eqb margin_rates (upper unrated) = false ->
      0 <= exposure -> 0 <= haircut -> haircut < 1 ->
      exists c c_aaa c_unrated c_plain,
        collateral_requirement exposure rating haircut = Done c
        /\ collateral_requirement exposure "AAA" haircut = Done c_aaa
        /\ collateral_requirement exposure unrated haircut = Done c_unrated
        /\ collateral_requirement exposure rating 0 = Done c_plain
        /\ c_aaa <= c /\ c <= c_unrated
        /\ 0 <= c_plain /\ c_plain <= c).
Proof.
  split.
  - split.
    + intro E. destruct (Qeq_dec haircut 1) as [H|H]; [exact H|].
      rewrite (collateral_value _ _ _ H) in E. discriminate.
    + intro H. unfold collateral_requirement, true_div.
      assert (E : Qeq_bool (1 - haircut) 0 = true)
        by (apply Qeq_bool_iff; lra).
      now rewrite E.
  - intros Hu He Hh0 Hh1.
    rewrite !collateral_value by lra.
    destruct (margin_rate_range rating) as [R0 R1].
    assert (Ra : margin_rate "AAA" == 2 # 100) by reflexivity.
    assert (Ru : margin_rate unrated == 50 # 100).
    { unfold margin_rate. unfold Dict.mem in Hu.
      destruct (Dict.get String.eqb margin_rates (upper unrated));
        [discriminate|reflexivity]. }
    set (r := margin_rate rating) in *.
    eexists _, _, _, _. repeat (split; [reflexivity|]).
    assert (Hd : 0 < 1 - haircut) by lra.
    assert (Hi : 0 < / (1 - haircut)) by now apply Qinv_lt_0_compat.
    assert (Hi1 : 1 <= / (1 - haircut)).
    { apply Qle_shift_inv_l; lra. }
    rewrite Ra, Ru. unfold Qdiv.
    assert (I0 : / (1 - 0) == 1) by reflexivity. rewrite I0.
    generalize dependent (/ (1 - haircut)). intros i Hi Hi1.
    assert (Hy : 0 <= exposure * r) by nra.
    split; [|split; [|split]].
    + apply Qmult_le_compat_r; [nra|lra].
    + apply Qmult_le_compat_r; [nra|lra].
    + nra.
    + generalize dependent (exposure * r). intros y Hy. nra.
Qed.

Lemma collateral_requirement_bounds_witness :
  exists c c_aaa c_unrated c_plain,
    collateral_requirement 1000000 "bbb" (1 # 10) = Done c
    /\ collateral_requirement 1000000 "AAA" (1 # 10) = Done c_aaa
    /\ collateral_requirement 1000000 "D" (1 # 10) = Done c_unrated
    /\ collateral_requirement 1000000 "bbb" 0 = Done c_plain
    /\ c_aaa <= c /\ c <= c_unrated
    /\ 0 <= c_plain /\ c_plain <= c.
Proof.
  apply (proj2 (collateral_requirement_bounds 1000000 "bbb" "D" (1 # 10)));
    vm_compute; (reflexivity || discriminate).
Defined.

Lemma scale_consistent (k1 k2 : string) :
  In k1 (map fst pd_map) -> In k2 (map fst pd_map) ->
  match Dict.get String.eqb pd_map k1, Dict.get String.eqb pd_map k2 with
  | Some p1, Some p2 =>
      p1 <= p2 ->
      match Dict.get String.eqb margin_rates k1 with
      | Some r => r | None => 50 # 100 end
      <= match Dict.get String.eqb margin_rates k2 with
         | Some r => r | None => 50 # 100 end
  | _, _ => False
  end.
Proof.
  intros H1 H2. simpl in H1, H2.
  repeat (destruct H1 as [<-|H1]; [|]); try contradiction;
    repeat (destruct H2 as [<-|H2]; [|]); try contradiction;
    vm_compute; intro H; try discriminate; try (exfalso; now apply H).
Qed.

(** X18: on the rating scale the two tables agree: a rating with a higher
    default probability never needs less collateral (same exposure, same
    haircut in [0, 1)). *)
Theorem collateral_monotone_in_pd (r1 r2 : string) (exposure haircut : Q) :
  on_scale r1 -> on_scale r2 ->
  credit_rating_to_pd r1 <= credit_rating_to_pd r2 ->
  0 <= exposure -> 0 <= haircut -> haircut < 1 ->
  exists c1 c2,
    collateral_requirement exposure r1 haircut = Done c1
    /\ collateral_requirement exposure r2 haircut = Done c2
    /\ c1 <= c2.
Proof.
  intros S1 S2 Hpd He Hh0 Hh1.
  rewrite !collateral_value by lra.
  eexists _, _. split; [reflexivity|]. split; [reflexivity|].
  pose proof (scale_consistent _ _ S1 S2) as C.
  unfold credit_rating_to_pd in Hpd. unfold margin_rate.
  destruct (Dict.get String.eqb pd_map (upper r1)) as [p1|];
    [|contradiction].
  destruct (Dict.get String.eqb pd_map (upper r2)) as [p2|];
    [|contradiction].
  specialize (C Hpd).
  set (m1 := match Dict.get String.eqb margin_rates (upper r1) with
             | Some r => r | None => 50 # 100 end) in *.
  set (m2 := match Dict.get String.eqb margin_rates (upper r2) with
             | Some r => r | None => 50 # 100 end) in *.
  assert (Hd : 0 < 1 - haircut) by lra.
  apply Qle_shift_div_l; [exact Hd|].
  assert (Q : exposure * m1 / (1 - haircut) * (1 - haircut)
              == exposure * m1) by (field; lra).
  rewrite Q. nra.
Qed.

Lemma collateral_monotone_in_pd_witness :
  exists c1 c2,
    collateral_requirement 1000000 "aa" (1 # 10) = Done c1
    /\ collateral_requirement 1000000 "Cc" (1 # 10) = Done c2
    /\ c1 <= c2.
Proof.
  apply collateral_monotone_in_pd.
  - vm_compute. tauto.
  - vm_compute. tauto.
  - vm_compute. discriminate.
  - vm_compute. discriminate.
  - vm_compute. discriminate.
  - reflexivity.
Defined.

End ScoringFacts.

(* ------------------------------------------------------------------ *)
(** * Properties of netting_benefit *)

Module NettingFacts.
Import Scalar CreditScoring.

Section Sets.
Variable K : Type.
Variable eqb : K -> K -> bool.

(** Storing a value changes the sum_values by the new value minus the old. *)
Lemma total_set (f : Q -> Q) (d : list (K * Q)) (k : K) (v : Q) :
  sum_values f (Dict.set eqb d k v) == sum_values f d - stored eqb f d k + f v.
Proof.
  unfold sum_values, stored, Dict.values.
  induction d as [|[k' v'] t IH]; simpl.
  - unfold Qsum. simpl. ring.
  - destruct (eqb k k'); simpl map; rewrite !Qsum_cons.
    + ring.
    + rewrite IH. ring.
Qed.

Lemma get_set_same (d : list (K * Q)) (k : K) (v : Q) :
  eqb k k = true -> Dict.get eqb (Dict.set eqb d k v) k = Some v.
Proof.
  intro R. induction d as [|[k' v'] t IH]; simpl.
  - now rewrite R.
  - destruct (eqb k k') eqn:E; simpl; rewrite E; [reflexivity|exact IH].
Qed.

Lemma Forall_set (P : Q -> Prop) (d : list (K * Q)) (k : K) (v : Q) :
  Forall P (Dict.values d) -> P v ->
  Forall P (Dict.values (Dict.set eqb d k v)).
Proof.
  intros H Hv. unfold Dict.values in *.
  induction d as [|[k' v'] t IH]; simpl.
  - now repeat constructor.
  - inversion H; subst. destruct (eqb k k'); simpl; constructor; auto.
Qed.

(** One round of the loop, when it succeeds: the exposure read, the value
    the set had (zero for a new set) and the new dictionary. *)
Lemma net_step_done (es : list Q) (d d' : list (K * Q)) (i : nat) (k : K) :
  net_step eqb es d i k = Done d' ->
  exists e v,
    nth_error es i = Some e
    /\ (forall f, f 0 == 0 ->
          sum_values f d' == sum_values f d - f v + f (v + e))
    /\ (forall P : Q -> Prop, P 0 -> Forall P (Dict.values d) -> P v)
    /\ (forall P : Q -> Prop,
          P 0 -> P (v + e) -> Forall P (Dict.values d) ->
          Forall P (Dict.values d')).
Proof.
  unfold net_step, Dict.mem.
  destruct (Dict.get eqb d k) as [v0|] eqn:G.
  - rewrite G. destruct (nth_error es i) as [e|]; [|discriminate].
    intro H; injection H as <-. exists e, v0. split; [reflexivity|].
    split; [|split].
    + intros f _. rewrite total_set. unfold stored. rewrite G. ring.
    + intros P _ H. rewrite Forall_forall in H. apply H.
      now apply (ScoringFacts.get_In eqb d k).
    + intros P _ Hv H. now apply Forall_set.
  - destruct (Dict.get eqb (Dict.set eqb d k 0) k) as [v|] eqn:G';
      [|discriminate].
    destruct (nth_error es i) as [e|]; [|discriminate].
    intro H; injection H as <-. exists e, v.
    assert (Hv : forall P : Q -> Prop, P 0 -> Forall P (Dict.values d) -> P v).
    { intros P P0 H.
      assert (F : Forall P (Dict.values (Dict.set eqb d k 0)))
        by now apply Forall_set.
      rewrite Forall_forall in F. apply F.
      now apply (ScoringFacts.get_In eqb _ k). }
    split; [reflexivity|]. split; [|split].
    + intros f f0. rewrite !total_set. unfold stored. rewrite G, G'.
      rewrite f0. ring.
    + exact Hv.
    + intros P P0 Hve H. apply Forall_set; [|exact Hve].
      now apply Forall_set.
Qed.

Lemma nth_error_skipn {A} (l : list A) (i : nat) (x : A) :
  nth_error l i = Some x -> skipn i l = x :: skipn (S i) l.
Proof.
  revert i. induction l as [|y t IH]; intros [|i] H; simpl in *;
    try discriminate.
  - now injection H as ->.
  - now apply IH.
Qed.

Lemma Qsum_abs_nonneg (xs : list Q) : 0 <= Qsum (map Qabs xs).
Proof.
  induction xs as [|x t IH]; simpl map.
  - unfold Qsum. simpl. lra.
  - rewrite Qsum_cons. pose proof (Qabs_nonneg x). lra.
Qed.

(** The magnitudes stored in the dictionary grow by at most the magnitudes
    of the exposures read. *)
Lemma net_loop_abs (es : list Q) (sets : list K) (d d' : list (K * Q))
    (i : nat) :
  net_loop eqb es d i sets = Done d' ->
  sum_values Qabs d' <= sum_values Qabs d + Qsum (map Qabs (skipn i es)).
Proof.
  revert d i. induction sets as [|k rest IH]; intros d i; simpl.
  - intro H; injection H as <-. pose proof (Qsum_abs_nonneg (skipn i es)).
    lra.
  - destruct (net_step eqb es d i k) as [d1|] eqn:S1; [|discriminate].
    cbn [pbind]. intro H. apply IH in H.
    destruct (net_step_done _ _ _ _ _ S1) as (e & v & Hn & Ht & _).
    rewrite (nth_error_skipn _ _ _ Hn). cbn [map]. rewrite Qsum_cons.
    specialize (Ht Qabs ltac:(reflexivity)).
    pose proof (Qabs_triangle v e). lra.
Qed.

Lemma max0_bounds (v : Q) : 0 <= max0 v /\ max0 v <= Qabs v.
Proof.
  unfold max0. pose proof (Qabs_nonneg v). pose proof (Qle_Qabs v).
  destruct (Qcompare_spec v 0); split; lra.
Qed.

Lemma total_max0_bounds (d : list (K * Q)) :
  0 <= sum_values max0 d /\ sum_values max0 d <= sum_values Qabs d.
Proof.
  unfold sum_values. induction (Dict.values d) as [|v t IH]; simpl map.
  - unfold Qsum. simpl. lra.
  - rewrite !Qsum_cons. pose proof (max0_bounds v). lra.
Qed.

(** X19: whenever [netting_benefit] returns, the gross and the net
    exposure are not negative and the benefit is at most 1.  When the
    exposures are whole numbers whose magnitudes add up to at most [2^53],
    so that every sum of some of them is added without rounding, the gross
    exposure is the sum of their magnitudes, the net exposure is at most the
    gross exposure and the benefit is not negative. *)
Theorem netting_benefit_range (gross_exposures : list Q)
    (netting_sets : list K) (r : netting) :
  netting_benefit eqb gross_exposures netting_sets = Done r ->
  0 <= gross_exposure r /\ 0 <= net_exposure r
  /\ netting_benefit_ratio r <= 1
  /\ (Forall whole gross_exposures ->
      Qsum (map Qabs gross_exposures) <= inject_Z (2 ^ 53) ->
      gross_exposure r == Qsum (map Qabs gross_exposures)
      /\ net_exposure r <= gross_exposure r
      /\ 0 <= netting_benefit_ratio r).
Proof.
  unfold netting_benefit. fold (Qsum (map Qabs gross_exposures)).
  destruct (net_loop eqb gross_exposures [] 0 netting_sets) as [d|] eqn:L;
    [|discriminate].
  cbn [pbind]. fold (Qsum (map max0 (Dict.values d))). fold (sum_values max0 d).
  set (gross := Qsum (map Qabs gross_exposures)).
  assert (Hnet : 0 <= sum_values max0 d /\ sum_values max0 d <= gross).
  { destruct (total_max0_bounds d) as [B0 B1].
    pose proof (net_loop_abs _ _ _ _ _ L) as B.
    change (sum_values Qabs d <= 0 + gross) in B. split; lra. }
  destruct (Qle_bool gross 0) eqn:G; cbn [negb pbind].
  - intro H; injection H as <-. cbn.
    apply Qle_bool_iff in G. repeat split; try lra; reflexivity.
  - assert (Hg : 0 < gross).
    { apply Qnot_le_lt. intro C. apply Qle_bool_iff in C. congruence. }
    unfold true_div.
    destruct (Qeq_bool gross 0) eqn:E.
    { apply Qeq_bool_iff in E. lra. }
    cbn [pbind]. intro H; injection H as <-. cbn.
    assert (D0 : 0 <= sum_values max0 d / gross)
      by (apply Qle_shift_div_l; lra).
    assert (D1 : sum_values max0 d / gross <= 1)
      by (apply Qle_shift_div_r; lra).
    repeat split; try lra; reflexivity.
Qed.
Hypothesis eqb_refl : forall k, eqb k k = true.

Lemma net_step_runs (es : list Q) (d : list (K * Q)) (i : nat) (k : K) :
  ((i < length es)%nat -> exists d', net_step eqb es d i k = Done d')
  /\ ((length es <= i)%nat -> net_step eqb es d i k = Fails SeqIndexError).
Proof.
  unfold net_step, Dict.mem.
  assert (G : exists v,
             Dict.get eqb
               (if match Dict.get eqb d k with
                   | Some _ => true | None => false end
                then d else Dict.set eqb d k 0) k = Some v).
  { destruct (Dict.get eqb d k) as [v|] eqn:E.
    - now exists v.
    - exists 0. now apply get_set_same. }
  destruct G as (v & ->). split; intro H.
  - destruct (nth_error es i) as [e|] eqn:E; [now eexists|].
    apply nth_error_None in E. lia.
  - apply nth_error_None in H. now rewrite H.
Qed.

Lemma net_loop_runs (es : list Q) (sets : list K) (d : list (K * Q))
    (i : nat) :
  ((length sets + i <= length es)%nat ->
   exists d', net_loop eqb es d i sets = Done d')
  /\ ((i <= length es)%nat -> (length es < length sets + i)%nat ->
      net_loop eqb es d i sets = Fails SeqIndexError).
Proof.
  revert d i. induction sets as [|k rest IH]; intros d i; simpl.
  - split; [now eexists|lia].
  - destruct (net_step_runs es d i k) as [R F]. split.
    + intro H. destruct R as (d1 & ->); [lia|]. cbn [pbind].
      apply (proj1 (IH d1 (S i))). lia.
    + intros Hi H. destruct (Nat.eq_dec i (length es)) as [E|E].
      * rewrite F by lia. reflexivity.
      * destruct R as (d1 & ->); [lia|]. cbn [pbind].
        apply (proj2 (IH d1 (S i))); lia.
Qed.

(** X20: with an equality test on netting sets that is reflexive,
    [netting_benefit] returns when there are at most as many netting sets as
    exposures, and fails at the exposure lookup when there are more. *)
Theorem netting_benefit_lengths (gross_exposures : list Q)
    (netting_sets : list K) :
  ((length netting_sets <= length gross_exposures)%nat ->
   exists r, netting_benefit eqb gross_exposures netting_sets = Done r)
  /\ ((length gross_exposures < length netting_sets)%nat ->
      netting_benefit eqb gross_exposures netting_sets
      = Fails SeqIndexError).
Proof.
  unfold netting_benefit.
  destruct (net_loop_runs gross_exposures netting_sets [] 0) as [R F].
  split; intro H.
  - destruct R as (d & ->); [lia|]. cbn [pbind].
    fold (Qsum (map Qabs gross_exposures)).
    set (gross := Qsum (map Qabs gross_exposures)).
    destruct (Qle_bool gross 0) eqn:G; cbn [negb pbind]; [now eexists|].
    unfold true_div. destruct (Qeq_bool gross 0) eqn:E.
    + exfalso. apply Qeq_bool_iff in E.
      assert (C : Qle_bool gross 0 = true) by (apply Qle_bool_iff; lra).
      congruence.
    + cbn [pbind]. now eexists.
  - rewrite F by lia. reflexivity.
Qed.

Lemma max0_nonneg (v : Q) : 0 <= v -> max0 v == v.
Proof.
  intro H. unfold max0. destruct (Qcompare_spec v 0); lra.
Qed.

Lemma total_nonneg (d : list (K * Q)) :
  Forall (fun v => 0 <= v) (Dict.values d) ->
  sum_values max0 d == sum_values (fun x => x) d.
Proof.
  unfold sum_values. induction 1 as [|v t Hv _ IH]; simpl map.
  - reflexivity.
  - rewrite !Qsum_cons, IH, (max0_nonneg v Hv). reflexivity.
Qed.

(** With exposures that are not negative, every value stored stays
    non-negative and the values sum to the exposures read. *)
Lemma net_loop_sum (es : list Q) (sets : list K) (d d' : list (K * Q))
    (i : nat) :
  Forall (fun e => 0 <= e) es ->
  Forall (fun v => 0 <= v) (Dict.values d) ->
  (length sets + i = length es)%nat ->
  net_loop eqb es d i sets = Done d' ->
  Forall (fun v => 0 <= v) (Dict.values d')
  /\ sum_values (fun x => x) d' == sum_values (fun x => x) d + Qsum (skipn i es).
Proof.
  intro Hes. revert d i.
  induction sets as [|k rest IH]; intros d i Hd Hlen; simpl.
  - intro H; injection H as <-. split; [exact Hd|].
    rewrite skipn_all2 by (simpl in Hlen; lia).
    change (Qsum []) with 0. ring.
  - destruct (net_step eqb es d i k) as [d1|] eqn:S1; [|discriminate].
    cbn [pbind]. intro H.
    destruct (net_step_done _ _ _ _ _ S1) as (e & v & Hn & Ht & Hv & Hf).
    assert (He : 0 <= e).
    { rewrite Forall_forall in Hes. apply Hes. eapply nth_error_In; eauto. }
    assert (Hv0 : 0 <= v) by (apply (Hv (fun x => 0 <= x)); [lra|exact Hd]).
    assert (Hd1 : Forall (fun x => 0 <= x) (Dict.values d1))
      by (apply (Hf (fun x => 0 <= x)); [lra|lra|exact Hd]).
    destruct (IH d1 (S i) Hd1 ltac:(simpl in Hlen; lia) H) as [F T].
    split; [exact F|].
    rewrite T, (nth_error_skipn _ _ _ Hn), Qsum_cons.
    rewrite (Ht (fun x => x)) by reflexivity. ring.
Qed.

Lemma Qsum_abs_of_nonneg (xs : list Q) :
  Forall (fun x => 0 <= x) xs -> Qsum (map Qabs xs) == Qsum xs.
Proof.
  induction 1 as [|x t Hx _ IH]; simpl map.
  - reflexivity.
  - rewrite !Qsum_cons, IH, (Qabs_pos x Hx). reflexivity.
Qed.

(** X21: when there is one netting set per exposure and the exposures are
    whole numbers, none negative, that add up to at most [2^53], there is
    nothing to net: the net exposure equals the gross exposure and the
    benefit is zero, however the exposures are grouped. *)
Theorem netting_benefit_same_sign (gross_exposures : list Q)
    (netting_sets : list K) :
  length netting_sets = length gross_exposures ->
  Forall whole gross_exposures ->
  Forall (fun e => 0 <= e) gross_exposures ->
  Qsum gross_exposures <= inject_Z (2 ^ 53) ->
  exists r,
    netting_benefit eqb gross_exposures netting_sets = Done r
    /\ net_exposure r == gross_exposure r
    /\ netting_benefit_ratio r == 0.
Proof.
  intros Hlen _ Hes _. unfold netting_benefit.
  fold (Qsum (map Qabs gross_exposures)).
  destruct (net_loop_runs gross_exposures netting_sets [] 0) as [R _].
  destruct R as (d & L); [lia|]. rewrite L. cbn [pbind].
  fold (Qsum (map max0 (Dict.values d))). fold (sum_values max0 d).
  destruct (net_loop_sum gross_exposures netting_sets [] d 0 Hes)
    as [F T]; [constructor|lia|exact L|].
  assert (Hnet : sum_values max0 d == Qsum (map Qabs gross_exposures)).
  { rewrite (total_nonneg d F), T, (Qsum_abs_of_nonneg _ Hes).
    simpl skipn. change (sum_values (fun x => x) []) with 0. ring. }
  set (gross := Qsum (map Qabs gross_exposures)) in *.
  destruct (Qle_bool gross 0) eqn:G; cbn [negb pbind].
  - eexists. split; [reflexivity|]. cbn. split; [exact Hnet|reflexivity].
  - assert (Hg : 0 < gross).
    { apply Qnot_le_lt. intro C. apply Qle_bool_iff in C. congruence. }
    unfold true_div. destruct (Qeq_bool gross 0) eqn:E.
    { apply Qeq_bool_iff in E. lra. }
    cbn [pbind]. eexists. split; [reflexivity|]. cbn.
    split; [exact Hnet|]. rewrite Hnet. field. lra.
Qed.
End Sets.

Lemma whole_numbers (ks : list Z) : Forall whole (map inject_Z ks).
Proof. rewrite Forall_map. apply Forall_forall. intros k _. now exists k. Qed.

Lemma netting_benefit_range_witness :
  exists r,
    netting_benefit Z.eqb (map inject_Z [100; -60; 30; -50]%Z) [1; 1; 2; 2]%Z
    = Done r
    /\ gross_exposure r == 240 /\ net_exposure r == 40
    /\ 0 <= netting_benefit_ratio r /\ netting_benefit_ratio r <= 1.
Proof.
  eexists. split; [vm_compute; reflexivity|].
  destruct (netting_benefit_range Z Z.eqb
              (map inject_Z [100; -60; 30; -50]%Z)
              [1; 1; 2; 2]%Z _ eq_refl) as (_ & _ & B1 & W).
  destruct (W (whole_numbers _)) as (_ & _ & B0);
    [vm_compute; discriminate|].
  split; [reflexivity|]. split; [reflexivity|]. split; assumption.
Defined.

Lemma netting_benefit_lengths_witness :
  (exists r, netting_benefit Z.eqb [100; - (60)] [1; 1]%Z = Done r)
  /\ netting_benefit Z.eqb [100; - (60)] [1; 1; 2]%Z = Fails SeqIndexError.
Proof.
  split.
  - apply (proj1 (netting_benefit_lengths Z Z.eqb Z.eqb_refl
                    [100; - (60)] [1; 1]%Z)). simpl. lia.
  - apply (proj2 (netting_benefit_lengths Z Z.eqb Z.eqb_refl
                    [100; - (60)] [1; 1; 2]%Z)). simpl. lia.
Defined.

Lemma netting_benefit_same_sign_witness :
  exists r,
    netting_benefit Z.eqb (map inject_Z [100; 60; 30]%Z) [1; 1; 2]%Z = Done r
    /\ net_exposure r == gross_exposure r
    /\ netting_benefit_ratio r == 0.
Proof.
  apply (netting_benefit_same_sign Z Z.eqb Z.eqb_refl).
  - reflexivity.
  - apply whole_numbers.
  - repeat constructor; vm_compute; discriminate.
  - vm_compute. discriminate.
Defined.

End NettingFacts.

(* ------------------------------------------------------------------ *)
(** * Properties of stress_testing.py *)

Module StressFacts.
Import Scalar StressTesting.
Import String.
Local Open Scope string_scope.
Local Open Scope list_scope.

Lemma set_new {V} (d : list (string * V)) (k : string) (v : V) :
  ~ In k (map fst d) -> Dict.set String.eqb d k v = d ++ [(k, v)].
Proof.
  induction d as [|[k' v'] t IH]; simpl; intro H; [reflexivity|].
  destruct (String.eqb_spec k k') as [->|N].
  - exfalso. apply H. now left.
  - f_equal. apply IH. intro C. apply H. now right.
Qed.

Lemma lookup_other_key {V} (d : list (string * V)) (k k' : string) (v : V) :
  k' <> k ->
  Dict.get String.eqb (Dict.set String.eqb d k v) k'
  = Dict.get String.eqb d k'.
Proof.
  intro N. induction d as [|[k0 v0] t IH]; simpl.
  - destruct (String.eqb_spec k' k); [contradiction|reflexivity].
  - destruct (String.eqb_spec k k0) as [->|N0]; simpl.
    + destruct (String.eqb_spec k' k0); [contradiction|reflexivity].
    + destruct (String.eqb k' k0); [reflexivity|exact IH].
Qed.

Lemma pnl_entries_keys (scenario : scenario_t) (positions : positions_t)
    (k : string) :
  In k (map fst (pnl_entries scenario positions)) ->
  In k (map fst positions).
Proof.
  induction positions as [|[a s] rest IH]; simpl; [tauto|].
  unfold pnl_entries in *. simpl.
  destruct (Dict.get String.eqb scenario a) as [[x|t]|]; simpl; intro H.
  - destruct H as [->|H]; [now left|right; now apply IH].
  - right. now apply IH.
  - right. now apply IH.
Qed.

(** The loop on positions with distinct assets, none already in the P&L
    dictionary: the entries are appended in order and added to the total
    from left to right. *)
Lemma stress_loop_run (scenario : scenario_t) (items : positions_t)
    (pnl : list (string * Q)) (total : Q) :
  numeric_on scenario items ->
  NoDup (map fst items) ->
  (forall k, In k (map fst items) -> ~ In k (map fst pnl)) ->
  stress_loop scenario items pnl total
  = Done (pnl ++ pnl_entries scenario items,
          fold_left Qplus (Dict.values (pnl_entries scenario items)) total).
Proof.
  revert pnl total.
  induction items as [|[a s] rest IH]; intros pnl total Hnum Hnd Hfresh.
  - simpl. now rewrite app_nil_r.
  - inversion Hnd as [|? ? Ha Hnd']; subst.
    assert (Hnum' : numeric_on scenario rest).
    { intros k t Hk. apply Hnum. now right. }
    simpl stress_loop. unfold pnl_entries. simpl flat_map.
    fold (pnl_entries scenario rest).
    destruct (Dict.get String.eqb scenario a) as [[x|t]|] eqn:G.
    + rewrite set_new by (apply Hfresh; now left).
      rewrite IH; [| exact Hnum' | exact Hnd' |].
      * rewrite <- app_assoc. reflexivity.
      * intros k Hk. rewrite map_app, in_app_iff. simpl.
        intros [C|[C|[]]].
        -- revert C. apply Hfresh. now right.
        -- subst k. contradiction.
    + exfalso. apply (Hnum a t); [now left|exact G].
    + simpl. apply IH; [exact Hnum'|exact Hnd'|].
      intros k Hk. apply Hfresh. now right.
Qed.

(** X22: for positions on distinct assets, none named [total] and none
    named after a text entry of the scenario, [run_stress_test] returns one
    entry [size * shock] per position whose asset the scenario shocks, in
    the order of the positions, followed by the entry [total], which is the
    sum of the others.  Assets without a shock are left out. *)
Theorem run_stress_test_breakdown (positions : positions_t)
    (scenario : scenario_t) :
  numeric_on scenario positions ->
  NoDup (map fst positions) ->
  ~ In key_total (map fst positions) ->
  run_stress_test positions scenario
  = Done (pnl_entries scenario positions
          ++ [(key_total,
               Qsum (Dict.values (pnl_entries scenario positions)))]).
Proof.
  intros Hnum Hnd Htot. unfold run_stress_test.
  rewrite stress_loop_run; try assumption; [|intros k _ []].
  cbn [pbind fst snd app]. f_equal. apply set_new.
  intro C. apply Htot. now apply (pnl_entries_keys scenario).
Qed.

Lemma run_stress_test_breakdown_witness :
  run_stress_test [("coffee", 1000); ("gold", 500); ("equities", 200)]
    crisis_2008
  = Done (pnl_entries crisis_2008
            [("coffee", 1000); ("gold", 500); ("equities", 200)]
          ++ [(key_total,
               Qsum (Dict.values
                       (pnl_entries crisis_2008
                          [("coffee", 1000); ("gold", 500);
                           ("equities", 200)])))]).
Proof.
  apply run_stress_test_breakdown.
  - intros a t H. simpl in H.
    destruct H as [<-|[<-|[<-|[]]]]; vm_compute; discriminate.
  - repeat constructor; simpl; intuition discriminate.
  - simpl. unfold key_total. intuition discriminate.
Defined.

Lemma stress_loop_text (scenario : scenario_t) (items : positions_t)
    (pnl : list (string * Q)) (total : Q) (a t : string) :
  In a (map fst items) ->
  Dict.get String.eqb scenario a = Some (Text t) ->
  stress_loop scenario items pnl total = Fails TypeError.
Proof.
  revert pnl total. induction items as [|[b s] rest IH];
    intros pnl total Hin G; [destruct Hin|].
  simpl stress_loop.
  destruct (Dict.get String.eqb scenario b) as [[x|t']|] eqn:Gb.
  - destruct Hin as [E|Hin]; [simpl in E; subst b; congruence|].
    now apply IH.
  - reflexivity.
  - destruct Hin as [E|Hin]; [simpl in E; subst b; congruence|].
    now apply IH.
Qed.

(** X23: a position whose asset is the key of a text entry of the scenario,
    such as a position named [description] under a scenario that carries a
    description, makes [run_stress_test] fail with a type error. *)
Theorem run_stress_test_text_entry (positions : positions_t)
    (scenario : scenario_t) (a t : string) :
  In a (map fst positions) ->
  Dict.get String.eqb scenario a = Some (Text t) ->
  run_stress_test positions scenario = Fails TypeError.
Proof.
  intros Hin G. unfold run_stress_test.
  now rewrite (stress_loop_text scenario positions [] 0 a t).
Qed.

Lemma run_stress_test_text_entry_witness :
  run_stress_test [("coffee", 1000); ("description", 1)] crisis_2008
  = Fails TypeError.
Proof.
  apply (run_stress_test_text_entry _ _ "description"
           "Global Financial Crisis").
  - simpl. tauto.
  - reflexivity.
Defined.

Lemma stress_loop_ext (s1 s2 : scenario_t) (items : positions_t)
    (pnl : list (string * Q)) (total : Q) :
  (forall a, In a (map fst items) ->
             Dict.get String.eqb s1 a = Dict.get String.eqb s2 a) ->
  stress_loop s1 items pnl total = stress_loop s2 items pnl total.
Proof.
  revert pnl total. induction items as [|[a s] rest IH];
    intros pnl total H; [reflexivity|].
  simpl stress_loop. rewrite (H a) by now left.
  destruct (Dict.get String.eqb s2 a) as [[x|t]|];
    try reflexivity; apply IH; intros b Hb; apply H; now right.
Qed.

(** X24: naming a scenario does not change its P&L: as long as no position
    is called [description], [run_stress_test] gives the same result on
    [create_custom_scenario shocks name] as on [shocks]. *)
Theorem custom_scenario_same_pnl (positions : positions_t)
    (shocks : scenario_t) (name : string) :
  ~ In key_description (map fst positions) ->
  run_stress_test positions (create_custom_scenario shocks name)
  = run_stress_test positions shocks.
Proof.
  intro H. unfold run_stress_test, create_custom_scenario.
  rewrite (stress_loop_ext _ shocks); [reflexivity|].
  intros a Ha. apply lookup_other_key. intros ->. contradiction.
Qed.

Lemma custom_scenario_same_pnl_witness :
  run_stress_test [("coffee", 1000); ("equities", 200)]
    (create_custom_scenario
       [("coffee", Shock (- (1 # 10))); ("equities", Shock (- (1 # 5)))]
       "my scenario")
  = run_stress_test [("coffee", 1000); ("equities", 200)]
      [("coffee", Shock (- (1 # 10))); ("equities", Shock (- (1 # 5)))].
Proof.
  apply custom_scenario_same_pnl.
  simpl. unfold key_description. intuition discriminate.
Defined.

Lemma single_shock_absent (positions : positions_t) (asset : string)
    (shock : Q) :
  ~ In asset (map fst positions) ->
  pnl_entries [(asset, Shock shock)] positions = [].
Proof.
  induction positions as [|[b s] rest IH]; intro H; [reflexivity|].
  unfold pnl_entries in *. simpl flat_map. simpl Dict.get.
  destruct (String.eqb_spec b asset) as [->|N].
  - exfalso. apply H. now left.
  - simpl. apply IH. intro C. apply H. now right.
Qed.

Lemma single_shock_entries (positions : positions_t) (asset : string)
    (p shock : Q) :
  NoDup (map fst positions) ->
  Dict.get String.eqb positions asset = Some p ->
  pnl_entries [(asset, Shock shock)] positions = [(asset, p * shock)].
Proof.
  induction positions as [|[a s] rest IH]; intros Hnd G; [discriminate|].
  inversion Hnd as [|? ? Ha Hnd']; subst.
  change (pnl_entries [(asset, Shock shock)] ((a, s) :: rest))
    with (match Dict.get String.eqb [(asset, Shock shock)] a with
          | Some (Shock x) => [(a, s * x)]
          | _ => []
          end ++ pnl_entries [(asset, Shock shock)] rest).
  simpl Dict.get in *.
  destruct (String.eqb_spec asset a) as [->|N].
  - injection G as ->. rewrite String.eqb_refl.
    now rewrite (single_shock_absent rest a shock Ha).
  - assert (E : String.eqb a asset = false)
      by (apply String.eqb_neq; congruence).
    rewrite E. simpl. now apply IH.
Qed.

(** X25: [reverse_stress_test] returns nothing exactly when the asset has
    no position or a zero one; otherwise it returns the quotient of the
    target loss by the position, and on positions with distinct assets the
    stress test of that single shock has the one P&L entry
    [position * shock] and the total [0 + position * shock]. *)
Theorem reverse_stress_shock_total (positions : positions_t)
    (target_loss : Q) (asset : string) :
  (reverse_stress_test positions target_loss asset = None
   <-> match Dict.get String.eqb positions asset with
       | None => True
       | Some p => p == 0
       end)
  /\ (forall p,
        NoDup (map fst positions) ->
        Dict.get String.eqb positions asset = Some p -> ~ p == 0 ->
        let shock := target_loss / p in
        reverse_stress_test positions target_loss asset = Some shock
        /\ run_stress_test positions [(asset, Shock shock)]
           = Done (Dict.set String.eqb [(asset, p * shock)] key_total
                     (0 + p * shock))).
Proof.
  split.
  - unfold reverse_stress_test.
    destruct (Dict.get String.eqb positions asset) as [p|].
    + destruct (Qeq_bool p 0) eqn:E.
      * apply Qeq_bool_iff in E. tauto.
      * split; [discriminate|]. intro H. apply Qeq_bool_iff in H.
        congruence.
    + now split.
  - intros p Hnd G Hp shock. unfold reverse_stress_test. rewrite G.
    assert (E : Qeq_bool p 0 = false).
    { destruct (Qeq_bool p 0) eqn:E; [|reflexivity].
      apply Qeq_bool_iff in E. contradiction. }
    rewrite E. split; [reflexivity|].
    unfold run_stress_test.
    rewrite stress_loop_run; [| |exact Hnd|intros k _ []].
    + cbn [pbind fst snd app].
      now rewrite (single_shock_entries positions asset p shock Hnd G).
    + intros a t _. simpl.
      destruct (String.eqb a asset); discriminate.
Qed.

Lemma reverse_stress_shock_total_witness :
  reverse_stress_test [("coffee", 1000); ("equities", 200)]
    (- (250)) "coffee" = Some (- (250) / 1000)
  /\ run_stress_test [("coffee", 1000); ("equities", 200)]
       [("coffee", Shock (- (250) / 1000))]
     = Done (Dict.set String.eqb [("coffee", 1000 * (- (250) / 1000))]
               key_total (0 + 1000 * (- (250) / 1000))).
Proof.
  apply (proj2 (reverse_stress_shock_total
                  [("coffee", 1000); ("equities", 200)] (- (250)) "coffee")
           1000).
  - repeat constructor; simpl; intuition discriminate.
  - reflexivity.
  - discriminate.
Defined.

End StressFacts.
